(** * plex-db: a shallow embedding of the file-backed document store

    The model follows [PlexDB] (src/unnamed/part_000, lines 1-335): the
    storage engine ([storage] object), the helper [pathsafe] and the class
    [Collection].

    Modelling choices, stated once:
    - JavaScript values are [jsval].  Objects and arrays carry an identity
      tag ([loc]) so that [===] compares references, as in JavaScript.
      Numbers are the integers, [NaN] and the two infinities; other
      floating-point values are not modelled.  The caller's objects are
      plain objects: a key they do not hold reads the member of
      [Object.prototype] of that name, if there is one.
    - A file holds the JSON value its text encodes ([json]); [JSON.stringify]
      is [to_json] and [JSON.parse] is [of_json], which allocates fresh
      identity tags.
    - Paths follow Node's [path.posix] ([normalize], [join], [resolve],
      [dirname]).
    - The asynchronous code runs sequentially: the tasks of a
      [Promise.all] run one after the other in array order, and a rejected
      task does not stop the others (as in JavaScript).  The state
      [all_tasks] yields is the one after every task has settled, which
      is later than the moment the [Promise.all] rejects; the outcome is a
      rejection as soon as one task rejects.
    - Event emission is a side channel without effect on any result and is
      not modelled. *)

From Stdlib Require Import ZArith Ascii String List Bool Lia.
From stdpp Require Import base gmap strings list.

Import ListNotations.
Local Set Warnings "-register-all -abstract-large-number".
Open Scope list_scope.

(* stdpp blocks [simpl] on string concatenation; let it compute again. *)
Local Arguments String.append : simpl nomatch.

Local Notation "a +s+ b" := (String.append a b) (at level 60, right associativity).

(* ================================================================== *)
(** ** JavaScript values *)

Definition loc := N.

Inductive jsval :=
| VUndef
| VNull
| VBool (b : bool)
| VNum (n : Z)
| VNaN
| VStr (s : string)
| VArr (l : loc) (xs : list jsval)
| VObj (l : loc) (ps : list (string * jsval))
| VInf (neg : bool)    (* [Infinity], or [-Infinity] when [neg] *)
| VProto.              (* [Object.prototype] itself *)

(** Property read [o[k]] on a plain object: absent keys give [undefined]. *)
Fixpoint props_get (ps : list (string * jsval)) (k : string) : jsval :=
  match ps with
  | [] => VUndef
  | (k', v) :: ps' => if String.eqb k k' then v else props_get ps' k
  end.

(** Property assignment [o[k] = v]: an existing key keeps its position,
    a new key is appended (insertion order of [Object.keys]). *)
Fixpoint props_set (ps : list (string * jsval)) (k : string) (v : jsval)
  : list (string * jsval) :=
  match ps with
  | [] => [(k, v)]
  | (k', v') :: ps' =>
      if String.eqb k k' then (k', v) :: ps' else (k', v') :: props_set ps' k v
  end.

(** JavaScript truthiness ([!x] is [negb (truthy x)]). *)
Definition truthy (v : jsval) : bool :=
  match v with
  | VUndef | VNull | VNaN => false
  | VBool b => b
  | VNum n => negb (Z.eqb n 0)
  | VStr s => negb (String.eqb s "")
  | VArr _ _ | VObj _ _ | VInf _ | VProto => true
  end.

(** Strict equality [===]: objects and arrays by reference, [NaN] unequal
    to everything. *)
Definition strict_eq (a b : jsval) : bool :=
  match a, b with
  | VUndef, VUndef | VNull, VNull => true
  | VBool x, VBool y => Bool.eqb x y
  | VNum x, VNum y => Z.eqb x y
  | VStr x, VStr y => String.eqb x y
  | VArr l _, VArr l' _ | VObj l _, VObj l' _ => N.eqb l l'
  | VInf x, VInf y => Bool.eqb x y
  | VProto, VProto => true
  | _, _ => false
  end.

(** SameValueZero, the key equality of [Set]: like [===] but [NaN]
    equals [NaN]. *)
Definition same_value_zero (a b : jsval) : bool :=
  match a, b with
  | VNaN, VNaN => true
  | _, _ => strict_eq a b
  end.

(** [Set.prototype.add]: appends unless already present. *)
Definition set_add (x : jsval) (s : list jsval) : list jsval :=
  if existsb (same_value_zero x) s then s else s ++ [x].

(** The members of [Object.prototype] (Node 22). *)
Definition object_proto_members : list string :=
  ["constructor"; "__defineGetter__"; "__defineSetter__"; "hasOwnProperty";
   "__lookupGetter__"; "__lookupSetter__"; "isPrototypeOf";
   "propertyIsEnumerable"; "toString"; "valueOf"; "__proto__"; "toLocaleString"].

Definition object_proto_member (k : string) : bool :=
  existsb (String.eqb k) object_proto_members.

(** [o[k]] on a plain object with own properties [ps]: the own property,
    else what [Object.prototype] holds under [k]: [Object.prototype]
    itself for [__proto__], a built-in method ([None]) for its other
    members, [undefined] for any other key. *)
Definition member (ps : list (string * jsval)) (k : string) : option jsval :=
  if existsb (fun kv => String.eqb kv.1 k) ps then Some (props_get ps k)
  else if String.eqb k "__proto__" then Some VProto
  else if object_proto_member k then None
  else Some VUndef.

(* ================================================================== *)
(** ** JSON *)

Inductive json :=
| JNull
| JBool (b : bool)
| JNum (n : Z)
| JStr (s : string)
| JArr (xs : list json)
| JObj (ps : list (string * json)).

(** [JSON.stringify]: [undefined] has no serialisation (the result is
    [undefined]); [NaN] and the infinities become [null]; inside arrays
    [undefined] becomes [null]; inside objects properties holding
    [undefined] are dropped.  [Object.prototype] has no own enumerable
    property and becomes [{}]. *)
Fixpoint to_json (v : jsval) : option json :=
  match v with
  | VUndef => None
  | VNull | VNaN | VInf _ => Some JNull
  | VProto => Some (JObj [])
  | VBool b => Some (JBool b)
  | VNum n => Some (JNum n)
  | VStr s => Some (JStr s)
  | VArr _ xs =>
      Some (JArr ((fix go (xs : list jsval) : list json :=
                     match xs with
                     | [] => []
                     | x :: xs' =>
                         match to_json x with
                         | Some j => j :: go xs'
                         | None => JNull :: go xs'
                         end
                     end) xs))
  | VObj _ ps =>
      Some (JObj ((fix go (ps : list (string * jsval)) : list (string * json) :=
                     match ps with
                     | [] => []
                     | (k, x) :: ps' =>
                         match to_json x with
                         | Some j => (k, j) :: go ps'
                         | None => go ps'
                         end
                     end) ps))
  end.

(** [JSON.parse]: every array and object is a fresh one; [nx] is the next
    unused identity tag. *)
Fixpoint of_json (j : json) (nx : loc) : jsval * loc :=
  match j with
  | JNull => (VNull, nx)
  | JBool b => (VBool b, nx)
  | JNum n => (VNum n, nx)
  | JStr s => (VStr s, nx)
  | JArr xs =>
      let '(vs, nx') :=
        (fix go (xs : list json) (n : loc) : list jsval * loc :=
           match xs with
           | [] => ([], n)
           | x :: xs' =>
               let '(v, n1) := of_json x n in
               let '(vs, n2) := go xs' n1 in (v :: vs, n2)
           end) xs (N.succ nx) in
      (VArr nx vs, nx')
  | JObj ps =>
      let '(vs, nx') :=
        (fix go (ps : list (string * json)) (n : loc)
           : list (string * jsval) * loc :=
           match ps with
           | [] => ([], n)
           | (k, x) :: ps' =>
               let '(v, n1) := of_json x n in
               let '(vs, n2) := go ps' n1 in ((k, v) :: vs, n2)
           end) ps (N.succ nx) in
      (VObj nx vs, nx')
  end.

(* ================================================================== *)
(** ** JSON text and [pathsafe] *)

Definition hex_digit (n : nat) : ascii :=
  ascii_of_nat (if Nat.ltb n 10 then 48 + n else 87 + n).

(** Decimal digits of a natural number, most significant first. *)
Fixpoint dec_go (fuel n : nat) (acc : string) : string :=
  match fuel with
  | O => acc
  | S f =>
      let acc' := String (ascii_of_nat (48 + Nat.modulo n 10)) acc in
      if Nat.ltb n 10 then acc' else dec_go f (Nat.div n 10) acc'
  end.

Definition dec_nat (n : nat) : string := dec_go (S n) n "".

Definition number_text (z : Z) : string :=
  if Z.ltb z 0 then "-" +s+ dec_nat (Z.to_nat (- z)) else dec_nat (Z.to_nat z).

(** Escaping of [JSON.stringify] for one character. *)
Definition escape_char (c : ascii) : string :=
  let n := nat_of_ascii c in
  if Nat.eqb n 34 then String "\" (String "034" EmptyString)
  else if Nat.eqb n 92 then String "\" (String "\" EmptyString)
  else if Nat.eqb n 8 then String "\" (String "b" EmptyString)
  else if Nat.eqb n 9 then String "\" (String "t" EmptyString)
  else if Nat.eqb n 10 then String "\" (String "n" EmptyString)
  else if Nat.eqb n 12 then String "\" (String "f" EmptyString)
  else if Nat.eqb n 13 then String "\" (String "r" EmptyString)
  else if Nat.ltb n 32 then
    "\u00" +s+ String (hex_digit (Nat.div n 16)) (String (hex_digit (Nat.modulo n 16)) EmptyString)
  else String c EmptyString.

Fixpoint escape_string (s : string) : string :=
  match s with
  | EmptyString => EmptyString
  | String c s' => escape_char c +s+ escape_string s'
  end.

Definition quote (s : string) : string :=
  String "034" (escape_string s +s+ String "034" EmptyString).

(** The text [JSON.stringify] produces. *)
Fixpoint json_text (j : json) : string :=
  match j with
  | JNull => "null"
  | JBool true => "true"
  | JBool false => "false"
  | JNum n => number_text n
  | JStr s => quote s
  | JArr xs =>
      "[" +s+ String.concat "," (map json_text xs) +s+ "]"
  | JObj ps =>
      "{" +s+ String.concat "," (map (fun '(k, x) => quote k +s+ ":" +s+ json_text x) ps)
          +s+ "}"
  end.

(** UTF-8 bytes of a character (code points below 256). *)
Definition utf8_bytes (c : ascii) : list nat :=
  let n := nat_of_ascii c in
  if Nat.ltb n 128 then [n]
  else [192 + Nat.div n 64; 128 + Nat.modulo n 64].

Definition hex_byte (b : nat) : string :=
  String (hex_digit (Nat.div b 16)) (String (hex_digit (Nat.modulo b 16)) EmptyString).

(** [Buffer.from(s, "utf-8").toString("hex")] *)
Fixpoint hex_of_string (s : string) : string :=
  match s with
  | EmptyString => EmptyString
  | String c s' => String.concat "" (map hex_byte (utf8_bytes c)) +s+ hex_of_string s'
  end.

(** [pathsafe(data)]: [None] where [Buffer.from(JSON.stringify(data))]
    throws, that is for [undefined]. *)
Definition pathsafe (v : jsval) : option string :=
  match to_json v with
  | Some j => Some (hex_of_string (json_text j))
  | None => None
  end.

(* ================================================================== *)
(** ** Paths ([path.posix]) *)

Module Path.

(** [s.split("/")] *)
Fixpoint split_go (s : string) : string * list string :=
  match s with
  | EmptyString => (EmptyString, [])
  | String c s' =>
      let '(h, t) := split_go s' in
      if Ascii.eqb c "/" then (EmptyString, h :: t) else (String c h, t)
  end.

Definition split_slash (s : string) : list string :=
  let '(h, t) := split_go s in h :: t.

Definition is_abs (s : string) : bool :=
  match s with
  | String c _ => Ascii.eqb c "/"
  | EmptyString => false
  end.

Fixpoint last_char (s : string) : option ascii :=
  match s with
  | EmptyString => None
  | String c EmptyString => Some c
  | String _ s' => last_char s'
  end.

Definition ends_slash (s : string) : bool :=
  match last_char s with Some c => Ascii.eqb c "/" | None => false end.

(** One step of Node's [normalizeString]; the accumulator holds the
    segments kept so far, last one first. *)
Definition norm_step (allow_above : bool) (acc : list string) (seg : string)
  : list string :=
  if String.eqb seg "" || String.eqb seg "." then acc
  else if String.eqb seg ".." then
    match acc with
    | x :: acc' =>
        if String.eqb x ".." then (if allow_above then ".." :: acc else acc)
        else acc'
    | [] => if allow_above then [".."] else []
    end
  else seg :: acc.

Definition normalize_string (s : string) (allow_above : bool) : string :=
  String.concat "/" (rev (fold_left (norm_step allow_above) (split_slash s) [])).

(** [path.posix.normalize] *)
Definition normalize (s : string) : string :=
  if String.eqb s "" then "."
  else
    let abs := is_abs s in
    let tr := ends_slash s in
    let body := normalize_string s (negb abs) in
    if String.eqb body "" then
      (if abs then "/" else if tr then "./" else ".")
    else
      let body' := if tr then body +s+ "/" else body in
      if abs then "/" +s+ body' else body'.

(** [path.posix.join] (all arguments are strings; a non-string argument
    is a [TypeError] raised by the caller's conversion). *)
Definition join (args : list string) : string :=
  let joined := String.concat "/" (List.filter (fun a => negb (String.eqb a "")) args) in
  if String.eqb joined "" then "." else normalize joined.

(** [path.resolve] of an absolute path: normalised, without a trailing
    separator.  The storage engine only resolves [join(root, p)] with an
    absolute [root] ([PlexDB]'s constructor applies [resolve] to it), so
    the working directory is never consulted. *)
Definition resolve (s : string) : string :=
  "/" +s+ normalize_string s false.

(** [path.posix.dirname] of a resolved absolute path. *)
Definition dirname (p : string) : string :=
  match rev (split_slash p) with
  | _ :: rest =>
      let d := String.concat "/" (rev rest) in
      if String.eqb d "" then (if is_abs p then "/" else ".") else d
  | [] => "."
  end.

End Path.

(* ================================================================== *)
(** ** Errors, state and the monad *)

(** Every [throw] of the source is [new Error(msg)]; the constructors name
    the spec's error kinds. *)
Inductive err :=
| PathEscapeError            (* "Requested path is outside of the DB" *)
| MissingRequiredFieldError  (* "Required value not supplied and no default defined!" *)
| UniqueConstraintViolation  (* "Schema requires unique value, but query found collision" *)
| TypeError                  (* property of undefined, bad argument type, ... *)
| IOError.                   (* EISDIR, ENOTDIR from the file system *)

Inductive res (A : Type) :=
| Ok (a : A)
| Err (e : err).
Arguments Ok {A} a.
Arguments Err {A} e.

(** A node of the durable file system. *)
Inductive node :=
| FFile (j : json)
| FDir.

(** The [Map] object [storage.cache] (line 38).  No code calls its
    [set], so it never holds an entry: [has] answers [false], [delete]
    deletes nothing, [size] is 0 and [keys()] is empty.  What the code
    changes are the object's own properties ([cache[path] = data]) and,
    through the [__proto__] setter, its prototype. *)
Record state := mkState {
  files : gmap string node;               (** durable storage, by absolute path *)
  cache_props : gmap string jsval;        (** own properties of the [Map] object *)
  cache_proto : option jsval;             (** its prototype: [None] is [Map.prototype],
                                              [Some p] the value [p] that replaced it *)
  next_loc : loc;                         (** next fresh object identity *)
  seed : nat                              (** source of [randomUUID] and default producers *)
}.

Definition set_files (f : gmap string node) (st : state) : state :=
  mkState f (cache_props st) (cache_proto st) (next_loc st) (seed st).
Definition set_cache_props (c : gmap string jsval) (st : state) : state :=
  mkState (files st) c (cache_proto st) (next_loc st) (seed st).
Definition set_cache_proto (p : option jsval) (st : state) : state :=
  mkState (files st) (cache_props st) p (next_loc st) (seed st).
Definition set_next_loc (n : loc) (st : state) : state :=
  mkState (files st) (cache_props st) (cache_proto st) n (seed st).
Definition set_seed (n : nat) (st : state) : state :=
  mkState (files st) (cache_props st) (cache_proto st) (next_loc st) n.

(** State and exceptions: effects performed before a [throw] stay. *)
Definition M (A : Type) : Type := state -> res A * state.

Definition ret {A} (a : A) : M A := fun st => (Ok a, st).
Definition throw {A} (e : err) : M A := fun st => (Err e, st).
Definition bind {A B} (m : M A) (k : A -> M B) : M B :=
  fun st => match m st with
            | (Ok a, st') => k a st'
            | (Err e, st') => (Err e, st')
            end.
Definition lift {A} (r : res A) : M A := fun st => (r, st).
Definition lift_opt {A} (e : err) (o : option A) : M A :=
  fun st => match o with Some a => (Ok a, st) | None => (Err e, st) end.
Definition gets {A} (f : state -> A) : M A := fun st => (Ok (f st), st).
Definition modify (f : state -> state) : M unit := fun st => (Ok tt, f st).

Notation "x <- m ;; k" := (bind m (fun x => k))
  (at level 100, m at next level, right associativity).
Notation "m ;;; k" := (bind m (fun _ => k))
  (at level 100, right associativity).

(** [Promise.all] over tasks started together: every task runs; the
    outcome is a rejection when a task rejects (the first in array order
    is reported), and the state is the one after all tasks have settled. *)
Fixpoint all_tasks (ts : list (M unit)) : M unit :=
  match ts with
  | [] => ret tt
  | t :: ts' =>
      fun st =>
        match t st with
        | (Ok _, st1) => all_tasks ts' st1
        | (Err e, st1) => (Err e, snd (all_tasks ts' st1))
        end
  end.

(** [JSON.parse] inside the monad. *)
Definition parse (j : json) : M jsval :=
  fun st => let '(v, n) := of_json j (next_loc st) in (Ok v, set_next_loc n st).

(** [[]]: a fresh empty array. *)
Definition new_array : M jsval :=
  fun st => (Ok (VArr (next_loc st) []), set_next_loc (N.succ (next_loc st)) st).

(* ================================================================== *)
(** ** File system primitives ([fs], [fs/promises]) *)

Definition existsSync (fs : gmap string node) (p : string) : bool :=
  match fs !! p with Some _ => true | None => false end.

(** [readFile(p, "utf-8")] followed by [JSON.parse]. *)
Definition readFile (p : string) : M json :=
  fun st => match files st !! p with
            | Some (FFile j) => (Ok j, st)
            | _ => (Err IOError, st)
            end.

(** [writeFile(p, JSON.stringify(data))]: [JSON.stringify(undefined)] is
    not a string and [writeFile] rejects it. *)
Definition writeFile (p : string) (data : jsval) : M unit :=
  fun st => match to_json data with
            | None => (Err TypeError, st)
            | Some j =>
                match files st !! p with
                | Some FDir => (Err IOError, st)
                | _ => (Ok tt, set_files (<[p := FFile j]> (files st)) st)
                end
            end.

(** The absolute paths [mkdir(p, {recursive: true})] creates, outermost
    first. *)
Fixpoint chain (base : string) (segs : list string) : list string :=
  match segs with
  | [] => []
  | s :: r => let q := base +s+ "/" +s+ s in q :: chain q r
  end.

Fixpoint mkdir_chain (qs : list string) : M unit :=
  match qs with
  | [] => ret tt
  | q :: qs' =>
      fun st => match files st !! q with
                | Some (FFile _) => (Err IOError, st)
                | Some FDir => mkdir_chain qs' st
                | None => mkdir_chain qs' (set_files (<[q := FDir]> (files st)) st)
                end
  end.

Definition mkdir_p (p : string) : M unit :=
  mkdir_chain (chain "" (List.filter (fun a => negb (String.eqb a "")) (Path.split_slash p))).

(** [rm(p, {force: true, recursive: true})] *)
Definition rm_rf (p : string) : M unit :=
  modify (fun st => set_files
    (filter (fun kv => negb (String.eqb kv.1 p || String.prefix (p +s+ "/") kv.1)) (files st)) st).

(** [readdir(p)]: the names of the direct children. *)
Definition readdir (p : string) : M (list string) :=
  fun st => match files st !! p with
            | Some FDir =>
                (Ok (omap (fun kv => if String.eqb (Path.dirname kv.1) p
                                     then last (Path.split_slash kv.1) else None)
                          (map_to_list (files st))), st)
            | _ => (Err IOError, st)
            end.

(* ================================================================== *)
(** ** The [Map] object [storage.cache] *)

(** [cache.m] for the methods [has], [delete] and [keys]: [None] is a
    built-in method ([Map.prototype]'s, or [Array.prototype.keys] once an
    array is the prototype); [Some v] is a value, none of which is
    callable. *)
Definition cache_method (st : state) (m : string) : option jsval :=
  match cache_props st !! m with
  | Some v => Some v
  | None =>
      match cache_proto st with
      | None => None
      | Some (VArr _ _) => if String.eqb m "keys" then None else Some VUndef
      | Some (VObj _ ps) => Some (props_get ps m)
      | Some _ => Some VUndef
      end
  end.

(** [cache[k] = v] in strict mode.  An own property is updated; otherwise
    the prototype chain decides: [Map.prototype.size] is a getter without
    setter, so the assignment throws; [Object.prototype.__proto__] is a
    setter, which makes an object or [null] the new prototype and ignores
    any other value; every other key becomes an own property. *)
Definition cache_assign (k : string) (v : jsval) : M unit :=
  fun st =>
    let own := (Ok tt, set_cache_props (<[k := v]> (cache_props st)) st) in
    let setter := (Ok tt, match v with
                          | VNull | VArr _ _ | VObj _ _ | VProto => set_cache_proto (Some v) st
                          | _ => st
                          end) in
    match cache_props st !! k with
    | Some _ => own
    | None =>
        match cache_proto st with
        | None =>
            if String.eqb k "size" then (Err TypeError, st)
            else if String.eqb k "__proto__" then setter else own
        | Some (VObj _ ps) =>
            if existsb (fun kv => String.eqb kv.1 k) ps then own
            else if String.eqb k "__proto__" then setter else own
        | Some VNull => own
        | Some _ => if String.eqb k "__proto__" then setter else own
        end
    end.

(** [this.storage.cache.has(path)]: [Map.prototype.has] answers [false]
    (the [Map] has no entry); any other value in its place is not a
    function.  The answer is always [false] and is not returned. *)
Definition cache_has : M unit :=
  m <- gets (fun st => cache_method st "has") ;;
  match m with None => ret tt | Some _ => throw TypeError end.

(** [cache.size] once a value replaced [Map.prototype]. *)
Definition cache_size (st : state) : jsval :=
  match cache_props st !! "size" with
  | Some v => v
  | None =>
      match cache_proto st with
      | Some (VObj _ ps) => props_get ps "size"
      | _ => VUndef
      end
  end.

(** The comparisons [size < 10000] and [size >= 10000]: [Below] when the
    number is less than 10000, [AtLeast] when it is not, [Unordered] for
    [NaN] (both comparisons are then false). *)
Inductive cmp10k := Below | AtLeast | Unordered.

Definition is_ws (c : ascii) : bool :=
  let n := nat_of_ascii c in
  Nat.eqb n 9 || Nat.eqb n 10 || Nat.eqb n 11 || Nat.eqb n 12 || Nat.eqb n 13
  || Nat.eqb n 32 || Nat.eqb n 160.

Fixpoint drop_ws (l : list ascii) : list ascii :=
  match l with
  | c :: l' => if is_ws c then drop_ws l' else l
  | [] => []
  end.

Definition digit_in (radix : nat) (c : ascii) : option nat :=
  let n := nat_of_ascii c in
  let d := if (48 <=? n) && (n <=? 57) then Some (n - 48)
           else if (97 <=? n) && (n <=? 122) then Some (n - 87)
           else if (65 <=? n) && (n <=? 90) then Some (n - 55)
           else None in
  match d with Some x => if x <? radix then Some x else None | None => None end.

(** The longest run of digits: its value, its length and the rest. *)
Fixpoint take_digits (radix : nat) (l : list ascii) (acc : Z) (cnt : nat)
  : Z * nat * list ascii :=
  match l with
  | c :: l' =>
      match digit_in radix c with
      | Some d => take_digits radix l' (acc * Z.of_nat radix + Z.of_nat d) (S cnt)
      | None => (acc, cnt, l)
      end
  | [] => (acc, cnt, [])
  end.

Definition cmp_int (v : Z) : cmp10k := if Z.ltb v 10000 then Below else AtLeast.

(** A positive decimal [m * 10^k], [m] having at most [len] digits, after
    rounding to the nearest double. *)
Definition cmp_dec (m : Z) (len : nat) (k : Z) : cmp10k :=
  if Z.leb 0 k then (if Z.leb 5 k then AtLeast else cmp_int (m * 10 ^ k))
  else if Z.leb (Z.of_nat len + 5) (- k) then Below
  else if Z.leb ((10000 * 2 ^ 40 - 1) * 10 ^ (- k)) (m * 2 ^ 40) then AtLeast
  else Below.

Definition str_of (l : list ascii) : string := string_of_list_ascii l.

(** [StrUnsignedDecimalLiteral]: [Infinity], or digits with an optional
    fraction and exponent. *)
Definition cmp_unsigned (neg : bool) (l : list ascii) : cmp10k :=
  if String.eqb (str_of l) "Infinity" then (if neg then Below else AtLeast) else
  let '(d1, n1, r1) := take_digits 10 l 0 0 in
  let '(m, n2, r2) :=
    match r1 with
    | "."%char :: r1' => let '(d2, n2, r3) := take_digits 10 r1' 0 0 in
                         ((d1 * 10 ^ Z.of_nat n2 + d2)%Z, n2, r3)
    | _ => (d1, O, r1)
    end in
  let ex :=
    match r2 with
    | [] => Some 0%Z
    | e :: r3 =>
        if Ascii.eqb e "e" || Ascii.eqb e "E" then
          let '(sg, r4) := match r3 with
                           | "+"%char :: r => (1%Z, r)
                           | "-"%char :: r => ((-1)%Z, r)
                           | _ => (1%Z, r3)
                           end in
          let '(x, nx, r5) := take_digits 10 r4 0 0 in
          match nx, r5 with
          | S _, [] => Some (sg * x)%Z
          | _, _ => None
          end
        else None
    end in
  match ex with
  | None => Unordered
  | Some x =>
      if Nat.eqb (n1 + n2) 0 then Unordered
      else if neg || Z.eqb m 0 then Below
      else cmp_dec m (n1 + n2) (x - Z.of_nat n2)
  end.

(** [StringToNumber(s)] compared with 10000.  Surrounding white space is
    ignored, the empty string is 0, [0x], [0o] and [0b] literals are
    unsigned integers, and a decimal literal is rounded to the nearest
    double: below 10000 the doubles are 2^-39 apart, so it rounds to
    10000 or more exactly when its value is at least 10000 - 2^-40 (the
    tie goes to the even 10000). *)
Definition str_cmp (s : string) : cmp10k :=
  let l := rev (drop_ws (rev (drop_ws (list_ascii_of_string s)))) in
  match l with
  | [] => Below
  | "0"%char :: x :: r
      => let radix := if Ascii.eqb x "x" || Ascii.eqb x "X" then 16
                      else if Ascii.eqb x "o" || Ascii.eqb x "O" then 8
                      else if Ascii.eqb x "b" || Ascii.eqb x "B" then 2
                      else O in
         if Nat.eqb radix 0 then cmp_unsigned false l
         else match take_digits radix r 0 0 with
              | (v, S _, []) => cmp_int v
              | _ => Unordered
              end
  | "+"%char :: r => cmp_unsigned false r
  | "-"%char :: r => cmp_unsigned true r
  | _ => cmp_unsigned false l
  end.

(** [ToString] of an element in [Array.prototype.join]: [null] and
    [undefined] give the empty string; an object with an own [toString]
    (which is not callable) and no callable [valueOf] returning a
    primitive throws. *)
Fixpoint elem_text (v : jsval) : res string :=
  match v with
  | VUndef | VNull => Ok ""
  | VBool b => Ok (if b then "true" else "false")
  | VNum n => Ok (number_text n)
  | VNaN => Ok "NaN"
  | VInf neg => Ok (if neg then "-Infinity" else "Infinity")
  | VStr s => Ok s
  | VProto => Ok "[object Object]"
  | VObj _ ps =>
      if existsb (fun kv => String.eqb kv.1 "toString") ps then Err TypeError
      else Ok "[object Object]"
  | VArr _ xs =>
      (fix go (xs : list jsval) : res string :=
         match xs with
         | [] => Ok ""
         | x :: xs' =>
             match elem_text x with
             | Err e => Err e
             | Ok a =>
                 match xs' with
                 | [] => Ok a
                 | _ => match go xs' with
                        | Ok b => Ok (a +s+ "," +s+ b)
                        | Err e => Err e
                        end
                 end
             end
         end) xs
  end.

(** [ToPrimitive(size, number)] and the comparison with 10000. *)
Definition size_cmp (v : jsval) : res cmp10k :=
  match v with
  | VUndef | VNaN | VProto => Ok Unordered
  | VNull | VBool _ => Ok Below
  | VNum n => Ok (cmp_int n)
  | VInf neg => Ok (if neg then Below else AtLeast)
  | VStr s => Ok (str_cmp s)
  | VArr _ _ => match elem_text v with Ok t => Ok (str_cmp t) | Err e => Err e end
  | VObj _ ps =>
      if existsb (fun kv => String.eqb kv.1 "toString") ps then Err TypeError
      else Ok Unordered
  end.

(* ================================================================== *)
(** ** Storage engine ([PlexDB.storage], lines 37-104) *)

Module Storage.
Section Engine.

(** [this.root]: absolute, as [resolve] leaves it. *)
Variable root : string.

(** [storage.prefix] *)
Definition prefix (path : string) : res string :=
  let p := Path.resolve (Path.normalize (Path.join [root; path])) in
  if String.prefix root p then Ok p else Err PathEscapeError.

(** [storage.read] *)
Definition read (path : string) : M jsval :=
  cache_has ;;;
  p <- lift (prefix path) ;;
  e <- gets (fun st => existsSync (files st) p) ;;
  if negb e then ret VUndef
  else (j <- readFile p ;; parse j).

(** [storage.write]: the value goes to a property of the [Map] object
    ([this.storage.cache[path] = data]), not to a [Map] entry. *)
Definition write (path : string) (data : jsval) : M unit :=
  cache_assign path data ;;;
  p <- lift (prefix path) ;;
  d <- gets (fun st => existsSync (files st) (Path.dirname p)) ;;
  (if d then ret tt else mkdir_p (Path.dirname p)) ;;;
  writeFile p data.

(** [storage.exists] *)
Definition exists_ (path : string) : M bool :=
  cache_has ;;;
  p <- lift (prefix path) ;;
  gets (fun st => existsSync (files st) p).

(** [storage.list] ([None] is [undefined]). *)
Definition list (path : string) : M (option (list string)) :=
  e <- exists_ path ;;
  if negb e then ret None
  else (p <- lift (prefix path) ;; xs <- readdir p ;; ret (Some xs)).

(** [storage.remove].  [this.storage.cache.delete(prefix(path))] looks up
    [delete], evaluates the argument, then calls: [Map.prototype.delete]
    finds no entry and does nothing; any other value is not a function. *)
Definition remove (path : string) : M unit :=
  m <- gets (fun st => cache_method st "delete") ;;
  p <- lift (prefix path) ;;
  (match m with None => ret tt | Some _ => throw TypeError end) ;;;
  e <- exists_ path ;;
  if e then (p' <- lift (prefix path) ;; rm_rf p') else ret tt.

(** [storage.makedir] *)
Definition makedir (path : string) : M unit :=
  p <- lift (prefix path) ;;
  mkdir_p p.

End Engine.

(** The interval body of [storage.cacheClear] (lines 39-45).  While the
    prototype is [Map.prototype], [size] is its getter and gives 0 (an
    own [size] cannot be created then, since assigning it throws), so
    the body returns at once.  Once a value replaced the prototype,
    [size] is an ordinary property: below 10000 the body returns;
    otherwise [cache.keys()] is called, which throws unless [keys] is
    [Array.prototype.keys]; when [size >= 10000] the loop then calls
    [cache.delete], which is not a function.  No run changes the
    state. *)
Definition cacheClear : M unit :=
  fun st =>
    match cache_proto st with
    | None => (Ok tt, st)
    | Some _ =>
        match size_cmp (cache_size st) with
        | Err e => (Err e, st)
        | Ok Below => (Ok tt, st)
        | Ok c =>
            match cache_method st "keys" with
            | Some _ => (Err TypeError, st)
            | None => match c with AtLeast => (Err TypeError, st) | _ => (Ok tt, st) end
            end
        end
    end.

(** The storage operations a caller can issue, and their outcomes. *)
Inductive op :=
| OpRead (path : string)
| OpWrite (path : string) (data : jsval)
| OpExists (path : string)
| OpList (path : string)
| OpRemove (path : string)
| OpMakedir (path : string)
| OpCacheClear.

Inductive outcome :=
| OValue (v : jsval)
| OBool (b : bool)
| ONames (xs : option (Datatypes.list string))
| ODone.

Definition map_res {A B} (f : A -> B) (m : M A) : M B :=
  a <- m ;; ret (f a).

Definition run_op (root : string) (o : op) : M outcome :=
  match o with
  | OpRead p => map_res OValue (read root p)
  | OpWrite p v => map_res (fun _ => ODone) (write root p v)
  | OpExists p => map_res OBool (exists_ root p)
  | OpList p => map_res ONames (list root p)
  | OpRemove p => map_res (fun _ => ODone) (remove root p)
  | OpMakedir p => map_res (fun _ => ODone) (makedir root p)
  | OpCacheClear => map_res (fun _ => ODone) cacheClear
  end.

Fixpoint run_ops (root : string) (os : Datatypes.list op) : M (Datatypes.list (res outcome)) :=
  match os with
  | [] => ret []
  | o :: os' =>
      fun st =>
        let '(r, st1) := run_op root o st in
        match run_ops root os' st1 with
        | (Ok rs, st2) => (Ok (r :: rs), st2)
        | (Err e, st2) => (Err e, st2)
        end
  end.

End Storage.

(* ================================================================== *)
(** ** Collections ([Collection], lines 145-335) *)

Module Collection.

(** [default] of a field descriptor: absent, a constant, or a producer
    (sync or async; the awaited value is what it yields, given the
    random source). *)
Inductive dflt :=
| DNone
| DConst (v : jsval)
| DProducer (f : nat -> jsval).

(** A field descriptor of [Schema<T>] (absent flags are [false]). *)
Record field := mkField {
  index : bool;
  unique : bool;
  required : bool;
  default : dflt
}.

Definition schema := list (string * field).

Fixpoint schema_get (s : schema) (k : string) : option field :=
  match s with
  | [] => None
  | (k', f) :: s' => if String.eqb k k' then Some f else schema_get s' k
  end.

Fixpoint schema_set (s : schema) (k : string) (f : field) : schema :=
  match s with
  | [] => [(k, f)]
  | (k', f') :: s' =>
      if String.eqb k k' then (k', f) :: s' else (k', f') :: schema_set s' k f
  end.

(** [randomUUID], drawn from the random source. *)
Definition uuid_of (n : nat) : jsval := VStr ("uuid-" +s+ dec_nat n).

(** The descriptor the constructor installs for [id]. *)
Definition id_field : field := mkField true true true (DProducer uuid_of).

(** The schema after the constructor's [this.schema["id"] = {...}]. *)
Definition with_id (s : schema) : schema := schema_set s "id" id_field.

Record collection := mkCollection {
  root : string;   (** [this.db.root] *)
  name : string;   (** [this.name] *)
  cschema : schema (** [this.schema], after the constructor *)
}.

Definition props := list (string * jsval).

(** [Object.keys] *)
Definition keys (ps : props) : list string := map fst ps.

(** The members of [Array.prototype], [String.prototype],
    [Number.prototype] and [Boolean.prototype] (Node 22). *)
Definition array_proto_members : list string :=
  ["at"; "concat"; "copyWithin"; "entries"; "every"; "fill"; "filter"; "find";
   "findIndex"; "findLast"; "findLastIndex"; "flat"; "flatMap"; "forEach";
   "includes"; "indexOf"; "join"; "keys"; "lastIndexOf"; "map"; "pop"; "push";
   "reduce"; "reduceRight"; "reverse"; "shift"; "slice"; "some"; "sort";
   "splice"; "toLocaleString"; "toReversed"; "toSorted"; "toSpliced";
   "toString"; "unshift"; "values"; "with"; "constructor"].

Definition string_proto_members : list string :=
  ["anchor"; "at"; "big"; "blink"; "bold"; "charAt"; "charCodeAt";
   "codePointAt"; "concat"; "constructor"; "endsWith"; "fontcolor"; "fontsize";
   "fixed"; "includes"; "indexOf"; "isWellFormed"; "italics"; "lastIndexOf";
   "link"; "localeCompare"; "match"; "matchAll"; "normalize"; "padEnd";
   "padStart"; "repeat"; "replace"; "replaceAll"; "search"; "slice"; "small";
   "split"; "strike"; "sub"; "substr"; "substring"; "sup"; "startsWith";
   "toString"; "toWellFormed"; "trim"; "trimStart"; "trimLeft"; "trimEnd";
   "trimRight"; "toLocaleLowerCase"; "toLocaleUpperCase"; "toLowerCase";
   "toUpperCase"; "valueOf"].

Definition number_proto_members : list string :=
  ["constructor"; "toExponential"; "toFixed"; "toPrecision"; "toString";
   "toLocaleString"; "valueOf"].

Definition boolean_proto_members : list string :=
  ["constructor"; "toString"; "valueOf"].

(** An array index written canonically ("0", or no leading zero). *)
Definition array_index (k : string) : option nat :=
  match list_ascii_of_string k with
  | [] => None
  | c :: rest =>
      match take_digits 10 (c :: rest) 0 0 with
      | (v, _, []) =>
          if Ascii.eqb c "0" && negb (Nat.eqb (length rest) 0) then None
          else Some (Z.to_nat v)
      | _ => None
      end
  end.

(** [obj[key]] on the value [storage.read] returned.  [None] is a value
    the model does not hold: a built-in method, or the prototype object
    of an array, string, number or boolean; none of them is [===] to a
    value of a query. *)
Definition get_prop (o : jsval) (k : string) : res (option jsval) :=
  let inherited (own : list string) :=
    if existsb (String.eqb k) own || object_proto_member k then None else Some VUndef in
  match o with
  | VUndef | VNull => Err TypeError
  | VObj _ ps => Ok (member ps k)
  | VArr _ xs =>
      if String.eqb k "length" then Ok (Some (VNum (Z.of_nat (length xs))))
      else match array_index k with
           | Some i => Ok (Some (nth i xs VUndef))
           | None => Ok (inherited array_proto_members)
           end
  | VStr s =>
      if String.eqb k "length" then Ok (Some (VNum (Z.of_nat (String.length s))))
      else match array_index k with
           | Some i =>
               Ok (Some (match String.get i s with
                         | Some ch => VStr (String ch EmptyString)
                         | None => VUndef
                         end))
           | None => Ok (inherited string_proto_members)
           end
  | VNum _ | VNaN | VInf _ => Ok (inherited number_proto_members)
  | VBool _ => Ok (inherited boolean_proto_members)
  | VProto =>
      Ok (if String.eqb k "__proto__" then Some VNull
          else if object_proto_member k then None else Some VUndef)
  end.

(** [Object.keys(data).every(key => data[key] === obj[key])] *)
Fixpoint every_match (q : props) (obj : jsval) : res bool :=
  match q with
  | [] => Ok true
  | (k, v) :: q' =>
      match get_prop obj k with
      | Err e => Err e
      | Ok (Some x) => if strict_eq v x then every_match q' obj else Ok false
      | Ok None => Ok false
      end
  end.

(** [path.join] accepts strings only. *)
Definition as_string (v : jsval) : res string :=
  match v with VStr s => Ok s | _ => Err TypeError end.

(** [ids.push(x)] *)
Definition push (a : jsval) (x : jsval) : res jsval :=
  match a with VArr l xs => Ok (VArr l (xs ++ [x])) | _ => Err TypeError end.

(** A call of a producer: [await default()]. *)
Definition produce (f : nat -> jsval) : M jsval :=
  fun st => (Ok (f (seed st)), set_seed (S (seed st)) st).

Definition index_path (c : collection) (key hex : string) : string :=
  Path.join ["index"; name c; key; hex].

Definition data_path (c : collection) (id : string) : string :=
  Path.join ["data"; name c; id].

Section Methods.
Variable c : collection.

Definition field_of (key : string) : option field := schema_get (cschema c) key.

(** One index probe of [findAll] / [findOne] (lines 191-204, 223-236):
    adds the ids of the index entry of [data[key]] to the candidates. *)
Definition probe (data : props) (cands : list jsval) (key : string) : M (list jsval) :=
  if String.eqb key "id" then ret cands else
  match field_of key with
  | Some fd =>
      if index fd then
        hex <- lift_opt TypeError (pathsafe (props_get data key)) ;;
        let indexPath := index_path c key hex in
        e <- Storage.exists_ (root c) indexPath ;;
        if negb e then ret cands else
        content <- Storage.read (root c) indexPath ;;
        if unique fd then ret (set_add content cands)
        else match content with
             | VArr _ xs => ret (fold_left (fun s x => set_add x s) xs cands)
             | _ => throw TypeError
             end
      else ret cands
  | None => ret cands
  end.

(** The probes share one [Set]; they only read, so running them in key
    order with the first rejection ending the query is exact. *)
Fixpoint gather (data : props) (ks : list string) (cands : list jsval) : M (list jsval) :=
  match ks with
  | [] => ret cands
  | k :: ks' => cands' <- probe data cands k ;; gather data ks' cands'
  end.

Definition candidates (data : props) : M (list jsval) := gather data (keys data) [].

(** [this.db.storage.read(join("data", this.name, candidate))] *)
Definition load (cand : jsval) : M jsval :=
  id <- lift (as_string cand) ;;
  Storage.read (root c) (data_path c id).

Fixpoint findOne_loop (data : props) (cands : list jsval) : M jsval :=
  match cands with
  | [] => ret VUndef
  | cand :: rest =>
      obj <- load cand ;;
      ok <- lift (every_match data obj) ;;
      if ok then ret obj else findOne_loop data rest
  end.

Fixpoint findAll_loop (data : props) (cands : list jsval) : M (list jsval) :=
  match cands with
  | [] => ret []
  | cand :: rest =>
      obj <- load cand ;;
      ok <- lift (every_match data obj) ;;
      results <- findAll_loop data rest ;;
      ret (if ok then obj :: results else results)
  end.

(** [findAll] (lines 187-218) *)
Definition findAll (data : props) : M (list jsval) :=
  cands <- candidates data ;;
  findAll_loop data cands.

(** [findOne] (lines 220-248); [undefined] when nothing matches. *)
Definition findOne (data : props) : M jsval :=
  cands <- candidates data ;;
  findOne_loop data cands.

(** [get] (lines 283-285) *)
Definition get (id : string) : M jsval :=
  Storage.read (root c) (data_path c id).

(** [this.schema[key].index] in [write] and [delete]: the descriptor of
    [key]; a key the schema lacks reads [undefined], whose [.index]
    throws, unless [Object.prototype] has a member of that name, whose
    [index] is [undefined] ([None]). *)
Definition indexed_field (key : string) : M (option field) :=
  match field_of key with
  | Some fd => ret (if index fd then Some fd else None)
  | None => if object_proto_member key then ret None else throw TypeError
  end.

(** The per-key task of [write] (lines 291-305). *)
Definition write_key (data : props) (id : jsval) (key : string) : M unit :=
  if String.eqb key "id" then ret tt else
  ofd <- indexed_field key ;;
  match ofd with
  | Some fd =>
    hex <- lift_opt TypeError (pathsafe (props_get data key)) ;;
    let indexPath := index_path c key hex in
    if unique fd then Storage.write (root c) indexPath id
    else
      ids <- Storage.read (root c) indexPath ;;
      ids' <- (if truthy ids then ret ids else new_array) ;;
      pushed <- lift (push ids' id) ;;
      Storage.write (root c) indexPath pushed
  | None => ret tt
  end.

(** [write] (lines 287-307); the document is the object [l] with
    properties [data]. *)
Definition write (l : loc) (data : props) : M unit :=
  let id := props_get data "id" in
  s <- lift (as_string id) ;;
  all_tasks (Storage.write (root c) (data_path c s) (VObj l data)
             :: map (write_key data id) (keys data)).

(** The per-key task of [delete] (lines 253-261). *)
Definition delete_key (data : props) (key : string) : M unit :=
  if String.eqb key "id" then ret tt else
  ofd <- indexed_field key ;;
  match ofd with
  | Some _ =>
    hex <- lift_opt TypeError (pathsafe (props_get data key)) ;;
    Storage.remove (root c) (index_path c key hex)
  | None => ret tt
  end.

(** [delete] (lines 250-263) *)
Definition delete (data : props) : M unit :=
  s <- lift (as_string (props_get data "id")) ;;
  all_tasks (Storage.remove (root c) (data_path c s)
             :: map (delete_key data) (keys data)).

(** [data[key]] is truthy: an inherited built-in method is. *)
Definition member_truthy (data : props) (key : string) : bool :=
  match member data key with Some v => truthy v | None => true end.

(** [data[key]] in the query [Object.fromEntries([[key, data[key]]])] of
    [create].  An inherited built-in method stands as [undefined]: the
    key is a schema key other than [id], so [findOne] looks at the value
    only in [pathsafe], which throws on both. *)
Definition query_value (data : props) (key : string) : jsval :=
  match member data key with Some v => v | None => VUndef end.

(** The resolution of one field in [create] (lines 317-326): a required
    field whose value is falsy takes its default, or the loop throws. *)
Definition resolve (key : string) (fd : field) (data : props) (st : state)
  : res unit * props * state :=
  if required fd && negb (member_truthy data key) then
    match default fd with
    | DNone => (Err MissingRequiredFieldError, data, st)
    | DConst v =>
        if truthy v then (Ok tt, props_set data key v, st)
        else (Err MissingRequiredFieldError, data, st)
    | DProducer f =>
        (Ok tt, props_set data key (f (seed st)), set_seed (S (seed st)) st)
    end
  else (Ok tt, data, st).

(** The loop of [create] (lines 310-330).  [data] is the caller's object:
    every assignment [data[key] = ...] is made on it in place, so the
    object is returned together with the outcome, also when the loop
    throws. *)
Fixpoint create_loop (fields : schema) (data : props) (st : state)
  : res unit * props * state :=
  match fields with
  | [] => (Ok tt, data, st)
  | (key, fd) :: rest =>
      if String.eqb key "id" then
        match default fd with
        | DProducer f =>
            create_loop rest (props_set data key (f (seed st))) (set_seed (S (seed st)) st)
        | _ => (Err TypeError, data, st)   (* calling a non-function *)
        end
      else
        match resolve key fd data st with
        | (Err e, d1, st1) => (Err e, d1, st1)
        | (Ok _, d1, st1) =>
            if unique fd then
              match findOne [(key, query_value d1 key)] st1 with
              | (Err e, st2) => (Err e, d1, st2)
              | (Ok found, st2) =>
                  if truthy found then (Err UniqueConstraintViolation, d1, st2)
                  else create_loop rest d1 st2
              end
            else create_loop rest d1 st1
        end
  end.

(** [create] (lines 309-334): returns the caller's object [l] itself. *)
Definition create (l : loc) (data : props) (st : state) : res jsval * props * state :=
  match create_loop (cschema c) data st with
  | (Ok _, d', st') => (Ok (VObj l d'), d', st')
  | (Err e, d', st') => (Err e, d', st')
  end.

End Methods.

(** The folders the constructor asks for (lines 173-184): the data and
    index folders of the collection, then one index folder per indexed
    field other than [id], in the order of [for (let key in schema)]. *)
Definition ctor_dirs (c : collection) : list string :=
  Path.join ["data"; name c] :: Path.join ["index"; name c] ::
  map (fun kf => Path.join ["index"; name c; kf.1])
      (List.filter (fun kf => negb (String.eqb kf.1 "id") && index kf.2) (cschema c)).

(** [new Collection(name, dummy, schema, db)] (lines 160-185): the
    schema gets the [id] descriptor and the collection object is
    returned.  The [makedir] promises are not awaited: their effects
    happen, their rejections never reach the caller. *)
Definition construct (root name : string) (s : schema) : M collection :=
  fun st =>
    let c := mkCollection root name (with_id s) in
    (Ok c, snd (all_tasks (map (Storage.makedir root) (ctor_dirs c)) st)).

(** [Promise.all] over tasks yielding values: every task runs, the
    values come in array order, the first rejection is the outcome. *)
Fixpoint all_values (ts : list (M jsval)) : M (list jsval) :=
  match ts with
  | [] => ret []
  | t :: ts' =>
      fun st =>
        match t st with
        | (Ok v, st1) =>
            match all_values ts' st1 with
            | (Ok vs, st2) => (Ok (v :: vs), st2)
            | (Err e, st2) => (Err e, st2)
            end
        | (Err e, st1) => (Err e, snd (all_values ts' st1))
        end
  end.

(** [queryAll(task, runtime)] (lines 270-281).  [storage.list] gives
    [undefined] for a missing data folder, and [undefined.entries()]
    throws.  The [wait(runtime * index)] calls only stagger the tasks by
    index; each entry is read and handed to [task] in index order. *)
Definition queryAll (c : collection) (task : jsval -> M jsval) : M (list jsval) :=
  names <- Storage.list (root c) (Path.join ["data"; name c]) ;;
  match names with
  | None => throw TypeError
  | Some ids =>
      all_values (map (fun id => data <- Storage.read (root c) (Path.join ["data"; name c; id]) ;;
                                 task data) ids)
  end.

End Collection.

(* ================================================================== *)
(** ** Creating and opening a database ([PlexDB], lines 13-131) *)

Module PlexDB.

(** [(await stat(p)).isDirectory()]: [stat] rejects for a missing path. *)
Definition stat_is_dir (p : string) : M bool :=
  fun st => match files st !! p with
            | Some FDir => (Ok true, st)
            | Some (FFile _) => (Ok false, st)
            | None => (Err IOError, st)
            end.

(** [mkdir(p)] without [recursive]: EEXIST when [p] exists, ENOENT or
    ENOTDIR when its parent is not a directory. *)
Definition mkdir (p : string) : M unit :=
  fun st => match files st !! p with
            | Some _ => (Err IOError, st)
            | None =>
                match files st !! Path.dirname p with
                | Some FDir => (Ok tt, set_files (<[p := FDir]> (files st)) st)
                | _ => (Err IOError, st)
                end
            end.

(** [writeFile(p, text)] on its own: ENOENT or ENOTDIR when the parent of
    [p] is not a directory. *)
Definition write_file (p : string) (data : jsval) : M unit :=
  fun st => match files st !! Path.dirname p with
            | Some FDir => writeFile p data st
            | _ => (Err IOError, st)
            end.

(** The object literal [{collections: [], indexes: {}, name: "db0"}]. *)
Definition fresh_meta : M jsval :=
  fun st =>
    let l := next_loc st in
    (Ok (VObj l [("collections", VArr (N.succ l) []); ("indexes", VObj (N.succ (N.succ l)) []);
                 ("name", VStr "db0")]),
     set_next_loc (N.succ (N.succ (N.succ l))) st).

(** [PlexDB.createNew(path)] (lines 17-32), for a string [path].  The
    [new Error("Cannot create DB here! ...")] of a parent that is not a
    directory is reported as [IOError]. *)
Definition createNew (path : string) : M unit :=
  isdir <- stat_is_dir (Path.dirname path) ;;
  if negb isdir then throw IOError
  else
    e <- gets (fun st => existsSync (files st) path) ;;
    (if e then ret tt else mkdir path) ;;;
    meta <- fresh_meta ;;
    all_tasks [write_file (Path.join [path; ".plexmeta"]) meta;
               mkdir (Path.join [path; "index"]);
               mkdir (Path.join [path; "data"])].

(** [new PlexDB(folder)] (lines 121-126) for an absolute [folder]: the
    root and the parsed [.plexmeta]; [readFileSync] throws when the file
    is missing. *)
Definition open_db (folder : string) : M (string * jsval) :=
  let root := Path.resolve folder in
  j <- readFile (Path.join [root; ".plexmeta"]) ;;
  meta <- parse j ;;
  ret (root, meta).

(** The body of the [autosave] interval (lines 116-119). *)
Definition autosave (root : string) (meta : jsval) : M unit :=
  if negb (String.eqb root "") && truthy meta
  then Storage.write root (Path.join [".plexmeta"]) meta
  else ret tt.

End PlexDB.

(* ================================================================== *)
(** ** The storage engine without its cache

    [storage] with the cache lines removed: [read] and [exists] go to the
    file system directly, [write] does not touch the cache, [remove] does
    not delete a cache entry, and the eviction check does nothing. *)

Module NoCache.
Section Engine.
Variable root : string.

Definition read (path : string) : M jsval :=
  p <- lift (Storage.prefix root path) ;;
  e <- gets (fun st => existsSync (files st) p) ;;
  if negb e then ret VUndef else (j <- readFile p ;; parse j).

Definition write (path : string) (data : jsval) : M unit :=
  p <- lift (Storage.prefix root path) ;;
  d <- gets (fun st => existsSync (files st) (Path.dirname p)) ;;
  (if d then ret tt else mkdir_p (Path.dirname p)) ;;;
  writeFile p data.

Definition exists_ (path : string) : M bool :=
  p <- lift (Storage.prefix root path) ;;
  gets (fun st => existsSync (files st) p).

Definition list (path : string) : M (option (Datatypes.list string)) :=
  e <- exists_ path ;;
  if negb e then ret None
  else (p <- lift (Storage.prefix root path) ;; xs <- readdir p ;; ret (Some xs)).

Definition remove (path : string) : M unit :=
  e <- exists_ path ;;
  if e then (p' <- lift (Storage.prefix root path) ;; rm_rf p') else ret tt.

Definition makedir (path : string) : M unit :=
  p <- lift (Storage.prefix root path) ;;
  mkdir_p p.

End Engine.

Definition run_op (root : string) (o : Storage.op) : M Storage.outcome :=
  match o with
  | Storage.OpRead p => Storage.map_res Storage.OValue (read root p)
  | Storage.OpWrite p v => Storage.map_res (fun _ => Storage.ODone) (write root p v)
  | Storage.OpExists p => Storage.map_res Storage.OBool (exists_ root p)
  | Storage.OpList p => Storage.map_res Storage.ONames (list root p)
  | Storage.OpRemove p => Storage.map_res (fun _ => Storage.ODone) (remove root p)
  | Storage.OpMakedir p => Storage.map_res (fun _ => Storage.ODone) (makedir root p)
  | Storage.OpCacheClear => ret Storage.ODone
  end.

Fixpoint run_ops (root : string) (os : Datatypes.list Storage.op)
  : M (Datatypes.list (res Storage.outcome)) :=
  match os with
  | [] => ret []
  | o :: os' =>
      fun st =>
        let '(r, st1) := run_op root o st in
        match run_ops root os' st1 with
        | (Ok rs, st2) => (Ok (r :: rs), st2)
        | (Err e, st2) => (Err e, st2)
        end
  end.

End NoCache.

(* ================================================================== *)
(** ** Vocabulary of the properties *)

(** A path segment that [normalize] keeps as it is. *)
Fixpoint no_char (c : ascii) (s : string) : bool :=
  match s with
  | EmptyString => true
  | String c' s' => negb (Ascii.eqb c c') && no_char c s'
  end.

Definition simple_seg (s : string) : bool :=
  negb (String.eqb s "") && negb (String.eqb s ".") && negb (String.eqb s "..")
  && no_char "/" s.

(** The absolute path with the given segments. *)
Definition render (segs : list string) : string :=
  "/" +s+ String.concat "/" segs.

(** A collection as the constructor leaves it, under a database root
    [render rsegs]: plain names, distinct schema keys (those of an object),
    and the [id] descriptor installed. *)
Definition wf (c : Collection.collection) (rsegs : list string) : Prop :=
  Collection.root c = render rsegs /\ rsegs <> [] /\
  Forall (fun s => simple_seg s = true) rsegs /\
  simple_seg (Collection.name c) = true /\
  Forall (fun s => simple_seg s = true) (map fst (Collection.cschema c)) /\
  NoDup (map fst (Collection.cschema c)) /\
  Collection.schema_get (Collection.cschema c) "id" = Some Collection.id_field.

(** No file sits at the folder [render L] or at one of its ancestors
    [render M], [M] a nonempty prefix of [L]: [mkdir -p] can make it. *)
Definition no_file_on (fs : gmap string node) (L : list string) : Prop :=
  forall M j, M <> [] -> M `prefix_of` L -> fs !! render M <> Some (FFile j).

(** Values that survive [JSON.stringify] / [JSON.parse] and compare equal
    with [===] afterwards: strings, numbers, booleans and [null]. *)
Definition plain (v : jsval) : bool :=
  match v with
  | VNull | VBool _ | VNum _ | VStr _ => true
  | _ => false
  end.

(** The JSON form of a plain value. *)
Definition json_of_plain (v : jsval) : json :=
  match v with
  | VBool b => JBool b
  | VNum n => JNum n
  | VStr s => JStr s
  | _ => JNull
  end.

(** Sequential [await c.write(d)] for each document. *)
Fixpoint write_all (c : Collection.collection) (docs : list (loc * Collection.props))
  : M unit :=
  match docs with
  | [] => ret tt
  | (l, d) :: ds => Collection.write c l d ;;; write_all c ds
  end.


(** [P] relates the state before and after every run of [m]. *)
Definition inv_m (P : state -> state -> Prop) {A} (m : M A) : Prop :=
  forall st r st', m st = (r, st') -> P st st'.

(** Only fresh object identities: files, cache and random source unchanged. *)
Definition ro (st st' : state) : Prop :=
  files st' = files st /\ cache_props st' = cache_props st /\
  cache_proto st' = cache_proto st /\ seed st' = seed st.

(** What [create] keeps: the files and the cache. *)
Definition cro (st st' : state) : Prop :=
  files st' = files st /\ cache_props st' = cache_props st /\
  cache_proto st' = cache_proto st.

(** The JSON document stored at [q], if [q] is a file. *)
Definition ffile (fs : gmap string node) (q : string) : option json :=
  match fs !! q with Some (FFile j) => Some j | _ => None end.

(** The keys whose assignment on the cache object changes what its
    methods do: [has], [delete], [size] and [__proto__]. *)
Definition cache_key (k : string) : bool :=
  String.eqb k "has" || String.eqb k "delete" || String.eqb k "size" || String.eqb k "__proto__".

(** The cache object as [new Map] leaves it, as far as the storage
    engine can tell: the prototype is [Map.prototype] and no own property
    hides [has], [delete] or [size].  Only [storage.write] on one of the
    [cache_key]s leaves this state. *)
Definition cache_ok (st : state) : Prop :=
  cache_proto st = None /\ cache_props st !! "has" = None /\
  cache_props st !! "delete" = None /\ cache_props st !! "size" = None.

(** The file at [q] and the random source are kept, and so is a cache in
    its initial shape. *)
Definition fr (q : string) (st st' : state) : Prop :=
  ffile (files st') q = ffile (files st) q /\ (cache_ok st -> cache_ok st') /\
  seed st' = seed st.

(** Files only disappear, and the cache object is kept. *)
Definition sh (st st' : state) : Prop :=
  (forall q, files st !! q = None -> files st' !! q = None) /\
  cache_props st' = cache_props st /\ cache_proto st' = cache_proto st.

(** What a caller of the storage engine can observe of a state: the
    files, the identities handed out so far and the random source. *)
Definition same (st st' : state) : Prop :=
  files st' = files st /\ next_loc st' = next_loc st /\ seed st' = seed st.

(** The cache object, its own properties and its prototype, is kept. *)
Definition kc (st st' : state) : Prop :=
  cache_props st' = cache_props st /\ cache_proto st' = cache_proto st.

(** [m] only looks at what [same] compares and never touches the cache. *)
Definition resp {A} (m : M A) : Prop :=
  forall st st', same st st' ->
    fst (m st) = fst (m st') /\ same (snd (m st)) (snd (m st')) /\ kc st (snd (m st)).


(** Operations that keep [Map.prototype] the prototype of the cache
    object and succeed in their cache assignment: no [write] to [size]
    or [__proto__]. *)
Definition op_keeps_proto (o : Storage.op) : bool :=
  match o with
  | Storage.OpWrite p _ => negb (String.eqb p "size" || String.eqb p "__proto__")
  | _ => true
  end.

(** The plain properties of the cache object after one operation. *)
Definition cache_after (m : gmap string jsval) (o : Storage.op) : gmap string jsval :=
  match o with
  | Storage.OpWrite p v => <[p := v]> m
  | _ => m
  end.

(* ================================================================== *)
(** ** Scenarios *)

(** An empty file system, an empty cache. *)
Definition st_empty : state := mkState ∅ ∅ None 0%N 0.

(** [const d = await c.create(data); await c.write(d)]: the document and
    the state afterwards, when both calls succeed. *)
Definition create_write (c : Collection.collection) (l : loc) (data : Collection.props)
  (st : state) : option (Collection.props * state) :=
  match Collection.create c l data st with
  | (Ok _, d, st1) =>
      match Collection.write c l d st1 with
      | (Ok _, st2) => Some (d, st2)
      | (Err _, _) => None
      end
  | (Err _, _, _) => None
  end.

(** A collection under [/srv/db] with a non-unique index ([name]), a
    unique index ([email]) and two plain fields. *)
Definition users_schema : Collection.schema :=
  Collection.with_id
    [("name", Collection.mkField true false false Collection.DNone);
     ("email", Collection.mkField true true false Collection.DNone);
     ("age", Collection.mkField false false false Collection.DNone);
     ("score", Collection.mkField false false false Collection.DNone)].

Definition users : Collection.collection := Collection.mkCollection "/srv/db" "users" users_schema.

(** A document with a plain value for each field, created and written
    into the empty database. *)
Definition ann : Collection.props := [("name", VStr "ann"); ("email", VStr "ann@x")].
Definition ann_created : res jsval * Collection.props * state :=
  Collection.create users 1%N ann st_empty.
Definition ann_doc : Collection.props := ann_created.1.2.
Definition ann_st1 : state := ann_created.2.
Definition ann_st2 : state := (Collection.write users 1%N ann_doc ann_st1).2.

(** The hex name [pathsafe] gives a value, when it gives one. *)
Definition hex_name (v : jsval) : string := default "" (pathsafe v).

(** Distinct keys: ["k"] followed by the binary digits of [p]. *)
Fixpoint bin_key (p : positive) : string :=
  match p with
  | xH => "1"
  | xO q => String "0" (bin_key q)
  | xI q => String "1" (bin_key q)
  end.

Fixpoint writes_from (p : positive) (n : nat) : list Storage.op :=
  match n with
  | O => []
  | S m => Storage.OpWrite ("k" +s+ bin_key p) (VNum 0) :: writes_from (Pos.succ p) m
  end.

(** [n] writes of distinct keys, then the eviction check. *)
Definition distinct_writes (n : nat) : list Storage.op :=
  writes_from 1 n ++ [Storage.OpCacheClear].

(** A database [/srv/db] next to a directory [/srv/db2] holding a file. *)
Definition st_sibling : state :=
  mkState {[ "/srv/db2/secret" := FFile (JStr "pw"); "/srv/db2" := FDir; "/srv" := FDir ]}
    ∅ None 0%N 0.


(** Two [users] documents sharing the name [nm], with their own ids and
    emails. *)
Definition two_users (nm : jsval) : list (loc * Collection.props) :=
  [(1%N, [("name", nm); ("email", VStr "a@x"); ("id", VStr "i1")]);
   (2%N, [("name", nm); ("email", VStr "b@x"); ("id", VStr "i2")])].

(* ================================================================== *)
(** * Properties *)

(** ** Strings and paths *)

Lemma app_assoc_s (a b d : string) : (a +s+ b) +s+ d = a +s+ (b +s+ d).
Proof. induction a as [|x a IH]; simpl; [reflexivity|]. now rewrite IH. Qed.

Lemma no_char_app (ch : ascii) (a b : string) :
  no_char ch (a +s+ b) = no_char ch a && no_char ch b.
Proof.
  induction a as [|x a IH]; simpl; [reflexivity|].
  rewrite IH. now rewrite andb_assoc.
Qed.

Lemma simple_no_slash (s : string) : simple_seg s = true -> no_char "/" s = true.
Proof. unfold simple_seg. intros H. now apply andb_prop in H as [_ H]. Qed.

Lemma simple_nonempty (s : string) : simple_seg s = true -> s <> "".
Proof. intros H ->. discriminate H. Qed.

Lemma Forall_simple_nonempty (segs : list string) :
  Forall (fun s => simple_seg s = true) segs -> Forall (fun s => s <> "") segs.
Proof. intros HF. eapply Forall_impl; [exact HF|]. intros s0; apply simple_nonempty. Qed.

Lemma Forall_simple_noslash (segs : list string) :
  Forall (fun s => simple_seg s = true) segs -> Forall (fun s => no_char "/" s = true) segs.
Proof. intros HF. eapply Forall_impl; [exact HF|]. intros s0; apply simple_no_slash. Qed.

Lemma norm_step_simple (b : bool) (acc : list string) (a : string) :
  simple_seg a = true -> Path.norm_step b acc a = a :: acc.
Proof.
  unfold simple_seg, Path.norm_step. intros H.
  destruct (String.eqb a "") eqn:E1; [discriminate H|].
  destruct (String.eqb a ".") eqn:E2; [discriminate H|].
  destruct (String.eqb a "..") eqn:E3; [discriminate H|].
  reflexivity.
Qed.

Lemma fold_norm_simple (b : bool) (segs acc : list string) :
  Forall (fun s => simple_seg s = true) segs ->
  fold_left (Path.norm_step b) segs acc = rev segs ++ acc.
Proof.
  revert acc. induction segs as [|a segs IH]; intros acc HF; simpl; [reflexivity|].
  inversion HF; subst. rewrite norm_step_simple by assumption.
  rewrite IH by assumption. now rewrite <- app_assoc.
Qed.

Lemma split_go_noslash (s : string) :
  no_char "/" s = true -> Path.split_go s = (s, []).
Proof.
  induction s as [|x s IH]; [reflexivity|]. intros H. cbn [no_char] in H.
  apply andb_prop in H as [Hx Hs]. cbn [Path.split_go]. rewrite IH by exact Hs.
  rewrite Ascii.eqb_sym. destruct (Ascii.eqb "/" x); simpl in Hx; [discriminate Hx|reflexivity].
Qed.

Lemma split_go_app (a b : string) :
  Path.split_go (a +s+ String "/" b) =
  (fst (Path.split_go a), snd (Path.split_go a) ++ Path.split_slash b).
Proof.
  induction a as [|x a IH]; simpl.
  - unfold Path.split_slash. destruct (Path.split_go b); reflexivity.
  - rewrite IH. destruct (Path.split_go a) as [h t]; simpl.
    destruct (Ascii.eqb x "/"); reflexivity.
Qed.

Lemma split_root (X : string) : Path.split_slash (String "/" X) = "" :: Path.split_slash X.
Proof. unfold Path.split_slash. simpl. destruct (Path.split_go X); reflexivity. Qed.

Lemma concat_cons2 (x y : string) (r : list string) :
  String.concat "/" (x :: y :: r) = x +s+ String "/" (String.concat "/" (y :: r)).
Proof. reflexivity. Qed.

Lemma split_concat (segs : list string) :
  segs <> [] -> Forall (fun s => no_char "/" s = true) segs ->
  Path.split_slash (String.concat "/" segs) = segs.
Proof.
  induction segs as [|x r IH]; intros Hne HF; [congruence|].
  inversion HF; subst. destruct r as [|y r].
  - unfold Path.split_slash. simpl. now rewrite split_go_noslash.
  - rewrite concat_cons2. unfold Path.split_slash at 1.
    rewrite split_go_app, split_go_noslash by assumption. simpl.
    f_equal. apply IH; [discriminate|assumption].
Qed.

Lemma concat_app (l1 l2 : list string) :
  l1 <> [] -> l2 <> [] ->
  String.concat "/" (l1 ++ l2) = String.concat "/" l1 +s+ String "/" (String.concat "/" l2).
Proof.
  induction l1 as [|x r IH]; intros H1 H2; [congruence|].
  destruct r as [|y r].
  - destruct l2 as [|z l2]; [congruence|]. reflexivity.
  - change ((x :: y :: r) ++ l2) with (x :: y :: (r ++ l2)).
    rewrite !concat_cons2. change (y :: r ++ l2) with ((y :: r) ++ l2).
    rewrite IH by (auto || discriminate). rewrite app_assoc_s. reflexivity.
Qed.

Lemma is_abs_app (a b : string) : a <> "" -> Path.is_abs (a +s+ b) = Path.is_abs a.
Proof. destruct a; [congruence|reflexivity]. Qed.

Lemma last_char_app (a b : string) : b <> "" -> Path.last_char (a +s+ b) = Path.last_char b.
Proof.
  intros Hb. induction a as [|x a IH]; simpl; [reflexivity|].
  rewrite IH. destruct a; simpl; [destruct b; [congruence|reflexivity]|].
  reflexivity.
Qed.

Lemma last_char_cons (c : ascii) (X : string) :
  X <> "" -> Path.last_char (String c X) = Path.last_char X.
Proof. destruct X; [congruence|reflexivity]. Qed.

Lemma last_char_noslash (s : string) :
  no_char "/" s = true -> Path.ends_slash s = false.
Proof.
  unfold Path.ends_slash. induction s as [|x s IH]; [reflexivity|].
  intros H. cbn [no_char] in H. apply andb_prop in H as [Hx Hs]. cbn [Path.last_char].
  destruct s as [|y s].
  - rewrite Ascii.eqb_sym. destruct (Ascii.eqb "/" x); simpl in Hx; [discriminate Hx|reflexivity].
  - apply IH. exact Hs.
Qed.

Lemma concat_nonempty (segs : list string) :
  segs <> [] -> Forall (fun s => s <> "") segs -> String.concat "/" segs <> "".
Proof.
  destruct segs as [|x [|y r]]; intros Hne HF; [congruence| |].
  - inversion HF; subst. assumption.
  - rewrite concat_cons2. destruct x; [inversion HF; congruence|discriminate].
Qed.

Lemma concat_no_slash_end (segs : list string) :
  segs <> [] -> Forall (fun s => simple_seg s = true) segs ->
  Path.ends_slash (String.concat "/" segs) = false.
Proof.
  induction segs as [|x r IH]; intros Hne HF; [congruence|]. inversion HF; subst.
  destruct r as [|y r].
  - apply last_char_noslash, simple_no_slash. assumption.
  - assert (Hy : String.concat "/" (y :: r) <> "").
    { apply concat_nonempty; [discriminate|]. now apply Forall_simple_nonempty. }
    pose proof (IH ltac:(discriminate) H2) as IH'.
    rewrite concat_cons2. unfold Path.ends_slash in *.
    rewrite last_char_app by discriminate. rewrite last_char_cons by exact Hy.
    exact IH'.
Qed.

Lemma simple_not_abs (s : string) : simple_seg s = true -> Path.is_abs s = false.
Proof.
  intros H. pose proof (simple_no_slash s H) as Hn. destruct s as [|x s]; [reflexivity|].
  cbn [no_char Path.is_abs] in *. apply andb_prop in Hn as [Hx _]. rewrite Ascii.eqb_sym.
  destruct (Ascii.eqb "/" x); simpl in Hx; [discriminate Hx|reflexivity].
Qed.

Lemma normalize_rel (segs : list string) :
  segs <> [] -> Forall (fun s => simple_seg s = true) segs ->
  Path.normalize (String.concat "/" segs) = String.concat "/" segs.
Proof.
  intros Hne HF.
  assert (Hnz : String.concat "/" segs <> "")
    by (apply concat_nonempty; [exact Hne|now apply Forall_simple_nonempty]).
  unfold Path.normalize.
  destruct (String.eqb (String.concat "/" segs) "") eqn:E;
    [apply String.eqb_eq in E; congruence|].
  destruct segs as [|x r]; [congruence|]. inversion HF; subst.
  assert (Habs : Path.is_abs (String.concat "/" (x :: r)) = false).
  { destruct r as [|y r]; [now apply simple_not_abs|].
    rewrite concat_cons2, is_abs_app by now apply simple_nonempty.
    now apply simple_not_abs. }
  rewrite Habs, concat_no_slash_end by assumption.
  unfold Path.normalize_string.
  rewrite split_concat by (auto; now apply Forall_simple_noslash).
  rewrite fold_norm_simple by assumption. rewrite app_nil_r, rev_involutive.
  rewrite E. reflexivity.
Qed.

Lemma filter_nonempty (args : list string) :
  Forall (fun s => s <> "") args ->
  List.filter (fun a => negb (String.eqb a "")) args = args.
Proof.
  induction args as [|a r IH]; intros HF; [reflexivity|]. inversion HF; subst.
  simpl. destruct (String.eqb a "") eqn:E; [apply String.eqb_eq in E; congruence|].
  simpl. now rewrite IH.
Qed.

Lemma join_simple (args : list string) :
  args <> [] -> Forall (fun s => simple_seg s = true) args ->
  Path.join args = String.concat "/" args.
Proof.
  intros Hne HF. unfold Path.join.
  rewrite filter_nonempty by now apply Forall_simple_nonempty.
  destruct (String.eqb (String.concat "/" args) "") eqn:E.
  - apply String.eqb_eq in E. exfalso. revert E.
    apply concat_nonempty; [exact Hne|now apply Forall_simple_nonempty].
  - now apply normalize_rel.
Qed.

Lemma render_cons (L : list string) : render L = String "/" (String.concat "/" L).
Proof. reflexivity. Qed.

Lemma normalize_string_render (b : bool) (L : list string) :
  L <> [] -> Forall (fun s => simple_seg s = true) L ->
  Path.normalize_string (render L) b = String.concat "/" L.
Proof.
  intros Hne HF. unfold Path.normalize_string. rewrite render_cons, split_root.
  rewrite split_concat by (auto; now apply Forall_simple_noslash).
  simpl fold_left. rewrite fold_norm_simple by assumption.
  rewrite app_nil_r, rev_involutive. reflexivity.
Qed.

Lemma normalize_render (L : list string) :
  L <> [] -> Forall (fun s => simple_seg s = true) L ->
  Path.normalize (render L) = render L.
Proof.
  intros Hne HF.
  assert (Hnz : String.concat "/" L <> "")
    by (apply concat_nonempty; [exact Hne|now apply Forall_simple_nonempty]).
  unfold Path.normalize. rewrite normalize_string_render by assumption.
  rewrite render_cons. cbn [String.eqb Path.is_abs].
  replace (Path.ends_slash (String "/" (String.concat "/" L)))
    with (Path.ends_slash (String.concat "/" L))
    by (unfold Path.ends_slash; now rewrite last_char_cons).
  rewrite concat_no_slash_end by assumption.
  destruct (String.eqb (String.concat "/" L) "") eqn:E;
    [apply String.eqb_eq in E; congruence|].
  reflexivity.
Qed.

Lemma resolve_render (L : list string) :
  L <> [] -> Forall (fun s => simple_seg s = true) L ->
  Path.resolve (render L) = render L.
Proof. intros. unfold Path.resolve. now rewrite normalize_string_render. Qed.

Lemma render_app (r p : list string) :
  r <> [] -> p <> [] ->
  render (r ++ p) = render r +s+ String "/" (String.concat "/" p).
Proof. intros Hr Hp. unfold render. rewrite concat_app by assumption. reflexivity. Qed.

Lemma prefix_self (a b : string) : String.prefix a (a +s+ b) = true.
Proof.
  induction a as [|x a IH]; simpl; [destruct b; reflexivity|].
  destruct (ascii_dec x x); [exact IH|congruence].
Qed.

(** [storage.prefix] on a path of plain segments under a root of plain
    segments: the path is appended to the root. *)
Lemma prefix_simple (rsegs psegs : list string) :
  rsegs <> [] -> psegs <> [] ->
  Forall (fun s => simple_seg s = true) rsegs ->
  Forall (fun s => simple_seg s = true) psegs ->
  Storage.prefix (render rsegs) (String.concat "/" psegs) = Ok (render (rsegs ++ psegs)).
Proof.
  intros Hr Hp HFr HFp.
  assert (HF : Forall (fun s => simple_seg s = true) (rsegs ++ psegs))
    by (apply Forall_app; auto).
  assert (Hj : Path.join [render rsegs; String.concat "/" psegs] = render (rsegs ++ psegs)).
  { unfold Path.join.
    rewrite filter_nonempty.
    2:{ constructor; [discriminate|]. constructor; [|constructor].
        apply concat_nonempty; [exact Hp|now apply Forall_simple_nonempty]. }
    change (String.concat "/" [render rsegs; String.concat "/" psegs])
      with (render rsegs +s+ String "/" (String.concat "/" psegs)).
    rewrite <- render_app by assumption.
    rewrite render_cons. cbn [String.eqb]. rewrite <- render_cons.
    now apply normalize_render; [destruct rsegs|]. }
  unfold Storage.prefix. rewrite Hj.
  assert (Hne : rsegs ++ psegs <> []) by (destruct rsegs; [congruence|discriminate]).
  rewrite normalize_render, resolve_render by assumption.
  rewrite render_app by assumption. now rewrite prefix_self.
Qed.

Lemma render_inj (L1 L2 : list string) :
  L1 <> [] -> L2 <> [] ->
  Forall (fun s => simple_seg s = true) L1 -> Forall (fun s => simple_seg s = true) L2 ->
  render L1 = render L2 -> L1 = L2.
Proof.
  intros H1 H2 F1 F2 E. rewrite !render_cons in E. injection E as E.
  rewrite <- (split_concat L1), <- (split_concat L2) by (auto; now apply Forall_simple_noslash).
  now rewrite E.
Qed.

(** ** Index and data file names *)

Lemma hex_digit_ok (ch : ascii) (n : nat) :
  (ch = "/"%char \/ ch = "."%char) -> n < 16 -> Ascii.eqb ch (hex_digit n) = false.
Proof.
  intros [-> | ->] Hn; do 16 (destruct n as [|n]; [reflexivity|]); lia.
Qed.

Lemma hex_byte_ok (ch : ascii) (b : nat) :
  (ch = "/"%char \/ ch = "."%char) -> b < 256 -> no_char ch (hex_byte b) = true.
Proof.
  intros Hch Hb. unfold hex_byte. cbn [no_char].
  rewrite !hex_digit_ok by (auto; first [apply Nat.mod_upper_bound; lia
                                        | apply Nat.Div0.div_lt_upper_bound; lia]).
  reflexivity.
Qed.

Lemma utf8_bytes_bound (c : ascii) : Forall (fun b => b < 256) (utf8_bytes c).
Proof.
  pose proof (Ascii.nat_ascii_bounded c) as Hc. unfold utf8_bytes.
  destruct (Nat.ltb (nat_of_ascii c) 128) eqn:E.
  - apply Nat.ltb_lt in E. constructor; [lia|constructor].
  - assert (nat_of_ascii c / 64 < 4) by (apply Nat.Div0.div_lt_upper_bound; lia).
    pose proof (Nat.mod_upper_bound (nat_of_ascii c) 64 ltac:(lia)).
    constructor; [lia|constructor; [lia|constructor]].
Qed.

Lemma concat_empty_no_char (ch : ascii) (xs : list string) :
  Forall (fun x => no_char ch x = true) xs -> no_char ch (String.concat "" xs) = true.
Proof.
  induction xs as [|x r IH]; intros HF; [reflexivity|]. inversion HF; subst.
  destruct r as [|y r]; [assumption|].
  change (String.concat "" (x :: y :: r)) with (x +s+ "" +s+ String.concat "" (y :: r)).
  rewrite !no_char_app. rewrite H1, IH by assumption. reflexivity.
Qed.

Lemma hex_of_string_no_char (ch : ascii) (s : string) :
  (ch = "/"%char \/ ch = "."%char) -> no_char ch (hex_of_string s) = true.
Proof.
  intros Hch. induction s as [|c s IH]; [reflexivity|]. simpl hex_of_string.
  rewrite no_char_app, IH, andb_true_r. apply concat_empty_no_char.
  pose proof (utf8_bytes_bound c) as HB. induction HB; constructor; auto.
  now apply hex_byte_ok.
Qed.

Lemma hex_of_string_nonempty (s : string) : s <> "" -> hex_of_string s <> "".
Proof.
  destruct s as [|c s]; [congruence|]. intros _. simpl hex_of_string.
  unfold utf8_bytes. destruct (Nat.ltb (nat_of_ascii c) 128); simpl; discriminate.
Qed.

Lemma dec_go_nonempty (f n : nat) (acc : string) :
  (f <> 0 \/ acc <> "") -> dec_go f n acc <> "".
Proof.
  revert n acc. induction f as [|f IH]; intros n acc H; simpl.
  - destruct H; [congruence|assumption].
  - destruct (Nat.ltb n 10); [discriminate|]. apply IH. right. discriminate.
Qed.

Lemma json_text_nonempty (j : json) : json_text j <> "".
Proof.
  destruct j as [|b|z|s|xs|ps]; simpl; try discriminate.
  - destruct b; discriminate.
  - unfold number_text. destruct (Z.ltb z 0); [discriminate|].
    apply dec_go_nonempty. left. discriminate.
Qed.

Lemma no_char_not_eq (ch : ascii) (s t : string) :
  no_char ch s = true -> no_char ch t = false -> s <> t.
Proof. intros H1 H2 ->. congruence. Qed.

(** [pathsafe] yields one plain path segment. *)
Lemma pathsafe_simple (v : jsval) (h : string) : pathsafe v = Some h -> simple_seg h = true.
Proof.
  unfold pathsafe. destruct (to_json v) as [j|]; [|discriminate]. intros E; injection E as <-.
  pose proof (hex_of_string_no_char "/" (json_text j) (or_introl eq_refl)) as Hs.
  pose proof (hex_of_string_no_char "." (json_text j) (or_intror eq_refl)) as Hd.
  pose proof (hex_of_string_nonempty _ (json_text_nonempty j)) as Hn.
  unfold simple_seg. rewrite Hs.
  destruct (String.eqb_spec (hex_of_string (json_text j)) "") as [E|]; [congruence|].
  destruct (String.eqb_spec (hex_of_string (json_text j)) ".") as [E|];
    [exfalso; revert E; apply (no_char_not_eq "."); [exact Hd|reflexivity]|].
  destruct (String.eqb_spec (hex_of_string (json_text j)) "..") as [E|];
    [exfalso; revert E; apply (no_char_not_eq "."); [exact Hd|reflexivity]|].
  reflexivity.
Qed.

Lemma no_char_cons (ch a : ascii) (s : string) :
  no_char ch (String a s) = negb (Ascii.eqb ch a) && no_char ch s.
Proof. reflexivity. Qed.

Lemma dec_go_no_slash (f n : nat) (acc : string) :
  no_char "/" acc = true -> no_char "/" (dec_go f n acc) = true.
Proof.
  revert n acc. induction f as [|f IH]; intros n acc H; [exact H|].
  assert (Hd : Ascii.eqb "/" (ascii_of_nat (48 + n mod 10)) = false).
  { pose proof (Nat.mod_upper_bound n 10 ltac:(lia)) as Hm.
    remember (n mod 10) as k eqn:Ek; clear Ek.
    do 10 (destruct k as [|k]; [reflexivity|]); lia. }
  change (dec_go (S f) n acc) with
    (if Nat.ltb n 10 then String (ascii_of_nat (48 + Nat.modulo n 10)) acc
     else dec_go f (Nat.div n 10) (String (ascii_of_nat (48 + Nat.modulo n 10)) acc)).
  destruct (Nat.ltb n 10); [|apply IH]; rewrite no_char_cons, Hd; exact H.
Qed.

Lemma simple_u (t : string) : no_char "/" t = true -> simple_seg (String "u" t) = true.
Proof.
  intros H. unfold simple_seg.
  change (String.eqb (String "u" t) "") with false.
  change (String.eqb (String "u" t) ".") with false.
  change (String.eqb (String "u" t) "..") with false.
  rewrite no_char_cons. change (Ascii.eqb "/" "u") with false. exact H.
Qed.

(** Generated ids are plain path segments. *)
Lemma uuid_simple (n : nat) : exists s, Collection.uuid_of n = VStr s /\ simple_seg s = true.
Proof.
  eexists; split; [reflexivity|].
  change ("uuid-" +s+ dec_nat n) with (String "u" ("uid-" +s+ dec_nat n)).
  apply simple_u. rewrite no_char_app. apply dec_go_no_slash. reflexivity.
Qed.

Lemma data_path_prefix (c : Collection.collection) (rsegs : list string) (s : string) :
  wf c rsegs -> simple_seg s = true ->
  Storage.prefix (Collection.root c) (Collection.data_path c s)
  = Ok (render (rsegs ++ ["data"; Collection.name c; s])).
Proof.
  intros (Hr & Hne & HFr & Hn & _) Hs. unfold Collection.data_path.
  assert (HF : Forall (fun s => simple_seg s = true) ["data"; Collection.name c; s])
    by (repeat constructor; auto).
  rewrite join_simple by (auto; discriminate). rewrite Hr.
  apply prefix_simple; auto; discriminate.
Qed.

Lemma index_path_prefix (c : Collection.collection) (rsegs : list string) (k h : string) :
  wf c rsegs -> simple_seg k = true -> simple_seg h = true ->
  Storage.prefix (Collection.root c) (Collection.index_path c k h)
  = Ok (render (rsegs ++ ["index"; Collection.name c; k; h])).
Proof.
  intros (Hr & Hne & HFr & Hn & _) Hk Hh. unfold Collection.index_path.
  assert (HF : Forall (fun s => simple_seg s = true) ["index"; Collection.name c; k; h])
    by (repeat constructor; auto).
  rewrite join_simple by (auto; discriminate). rewrite Hr.
  apply prefix_simple; auto; discriminate.
Qed.

Lemma render_seg_neq (rsegs a b : list string) :
  Forall (fun s => simple_seg s = true) (rsegs ++ a) ->
  Forall (fun s => simple_seg s = true) (rsegs ++ b) ->
  rsegs <> [] -> a <> b -> render (rsegs ++ a) <> render (rsegs ++ b).
Proof.
  intros Ha Hb Hr Hab E. apply render_inj in E; auto.
  - apply app_inv_head in E. congruence.
  - destruct rsegs; [congruence|discriminate].
  - destruct rsegs; [congruence|discriminate].
Qed.

Lemma cache_key_slash (s : string) : no_char "/" s = false -> cache_key s = false.
Proof.
  intros H. unfold cache_key.
  destruct (String.eqb_spec s "has") as [->|]; [discriminate|].
  destruct (String.eqb_spec s "delete") as [->|]; [discriminate|].
  destruct (String.eqb_spec s "size") as [->|]; [discriminate|].
  destruct (String.eqb_spec s "__proto__") as [->|]; [discriminate|]. reflexivity.
Qed.

Lemma concat_slash (x y : string) (r : list string) :
  no_char "/" (String.concat "/" (x :: y :: r)) = false.
Proof.
  rewrite concat_cons2, no_char_app, no_char_cons. change (Ascii.eqb "/" "/") with true.
  simpl. apply andb_false_r.
Qed.

(** The paths of a collection are never cache keys. *)
Lemma data_path_key (c : Collection.collection) (rsegs : list string) (s : string) :
  wf c rsegs -> simple_seg s = true -> cache_key (Collection.data_path c s) = false.
Proof.
  intros (Hr & Hne & HFr & Hn & _) Hs. apply cache_key_slash. unfold Collection.data_path.
  rewrite join_simple by first [discriminate | repeat constructor; auto]. apply concat_slash.
Qed.

Lemma index_path_key (c : Collection.collection) (rsegs : list string) (k h : string) :
  wf c rsegs -> simple_seg k = true -> simple_seg h = true ->
  cache_key (Collection.index_path c k h) = false.
Proof.
  intros (Hr & Hne & HFr & Hn & _) Hk Hh. apply cache_key_slash. unfold Collection.index_path.
  rewrite join_simple by first [discriminate | repeat constructor; auto]. apply concat_slash.
Qed.

(** ** The cache object *)

Lemma cache_key_false (k : string) :
  cache_key k = false -> k <> "has" /\ k <> "delete" /\ k <> "size" /\ k <> "__proto__".
Proof.
  unfold cache_key. intros H. repeat rewrite orb_false_iff in H.
  destruct H as [[[H1 H2] H3] H4].
  apply String.eqb_neq in H1, H2, H3, H4. auto.
Qed.

(** Assigning a key that is not a cache key to the initial cache object
    adds an own property. *)
Lemma cache_assign_ok (k : string) (v : jsval) (st : state) :
  cache_ok st -> cache_key k = false ->
  cache_assign k v st = (Ok tt, set_cache_props (<[k := v]> (cache_props st)) st).
Proof.
  intros (Hp & _) Hk. destruct (cache_key_false k Hk) as (_ & _ & Hs & Hpr).
  unfold cache_assign. rewrite Hp. destruct (cache_props st !! k); [reflexivity|].
  rewrite (proj2 (String.eqb_neq _ _) Hs), (proj2 (String.eqb_neq _ _) Hpr). reflexivity.
Qed.

(** While [Map.prototype] is the prototype, assigning a key other than
    [size] and [__proto__] adds or updates an own property. *)
Lemma cache_assign_own (k : string) (v : jsval) (st : state) :
  cache_proto st = None -> String.eqb k "size" = false -> String.eqb k "__proto__" = false ->
  cache_assign k v st = (Ok tt, set_cache_props (<[k := v]> (cache_props st)) st).
Proof.
  intros Hp Hs Hr. unfold cache_assign. rewrite Hp, Hs, Hr.
  destruct (cache_props st !! k); reflexivity.
Qed.

Lemma cache_ok_insert (k : string) (v : jsval) (st : state) :
  cache_ok st -> cache_key k = false ->
  cache_ok (set_cache_props (<[k := v]> (cache_props st)) st).
Proof.
  intros (Hp & Hh & Hd & Hs) Hk. destruct (cache_key_false k Hk) as (Hk1 & Hk2 & Hk3 & _).
  unfold cache_ok; simpl. repeat split; [exact Hp| | |];
    rewrite lookup_insert_ne by congruence; assumption.
Qed.

Lemma cache_assign_state (k : string) (v : jsval) (st : state) r st' :
  cache_assign k v st = (r, st') ->
  files st' = files st /\ next_loc st' = next_loc st /\ seed st' = seed st.
Proof.
  unfold cache_assign. cbv zeta.
  repeat match goal with
         | |- context [match ?x with _ => _ end] => destruct x
         | |- context [if ?b then _ else _] => destruct b
         end; intros [= _ <-]; auto.
Qed.

(** [cache_has] and the lookup of [delete] succeed on the initial cache. *)
Lemma cache_has_ok (st : state) : cache_ok st -> cache_has st = (Ok tt, st).
Proof.
  intros (Hp & Hh & _). unfold cache_has, bind, gets, cache_method. rewrite Hh, Hp. reflexivity.
Qed.

Lemma cache_delete_ok (st : state) : cache_ok st -> cache_method st "delete" = None.
Proof. intros (Hp & _ & Hd & _). unfold cache_method. rewrite Hd, Hp. reflexivity. Qed.

(** ** Invariants of computations *)


Section Invariants.
Variable P : state -> state -> Prop.
Hypothesis P_refl : forall st, P st st.
Hypothesis P_trans : forall a b c, P a b -> P b c -> P a c.

Lemma inv_ret {A} (a : A) : inv_m P (ret a).
Proof. intros st r st' [= _ <-]. apply P_refl. Qed.

Lemma inv_throw {A} (e : err) : inv_m P (@throw A e).
Proof. intros st r st' [= _ <-]. apply P_refl. Qed.

Lemma inv_lift {A} (x : res A) : inv_m P (lift x).
Proof. intros st r st' [= _ <-]. apply P_refl. Qed.

Lemma inv_lift_opt {A} (e : err) (o : option A) : inv_m P (lift_opt e o).
Proof. intros st r st'. unfold lift_opt. destruct o; intros [= _ <-]; apply P_refl. Qed.

Lemma inv_gets {A} (f : state -> A) : inv_m P (gets f).
Proof. intros st r st' [= _ <-]. apply P_refl. Qed.

Lemma inv_bind {A B} (m : M A) (k : A -> M B) :
  inv_m P m -> (forall a, inv_m P (k a)) -> inv_m P (bind m k).
Proof.
  intros Hm Hk st r st'. unfold bind. destruct (m st) as [[a|e] st1] eqn:E.
  - intros H. eapply P_trans; [eapply Hm; exact E|]. eapply Hk; exact H.
  - intros [= _ <-]. eapply Hm; exact E.
Qed.

Lemma inv_all_tasks (ts : list (M unit)) : Forall (fun t => inv_m P t) ts -> inv_m P (all_tasks ts).
Proof.
  induction 1 as [|t ts Ht _ IH]; [apply inv_ret|].
  intros st r st'. simpl. destruct (t st) as [[u|e] st1] eqn:E.
  - intros H. eapply P_trans; [eapply Ht; exact E|]. eapply IH; exact H.
  - destruct (all_tasks ts st1) as [r1 st2] eqn:E2. intros [= _ <-].
    eapply P_trans; [eapply Ht; exact E|]. eapply IH; exact E2.
Qed.

End Invariants.

Ltac inv_step :=
  first [ apply inv_bind; [eauto|eauto|..]; intros
        | apply inv_ret; auto | apply inv_throw; auto | apply inv_lift; auto
        | apply inv_lift_opt; auto | apply inv_gets; auto
        | match goal with
          | |- inv_m _ (if ?b then _ else _) => destruct b
          | |- inv_m _ (match ?x with _ => _ end) => destruct x
          end ].


Lemma ro_refl (st : state) : ro st st.
Proof. repeat split. Qed.

Lemma ro_trans (a b d : state) : ro a b -> ro b d -> ro a d.
Proof. unfold ro. intuition congruence. Qed.

#[local] Hint Resolve ro_refl ro_trans : core.

Lemma cache_has_state (st : state) r st' : cache_has st = (r, st') -> st' = st.
Proof.
  unfold cache_has, bind, gets. destruct (cache_method st "has"); intros [= _ <-]; auto.
Qed.

Lemma cache_has_ro : inv_m ro cache_has.
Proof. intros st r st' H. apply cache_has_state in H. subst. apply ro_refl. Qed.

Lemma exists_state (root p : string) (st : state) r st' :
  Storage.exists_ root p st = (r, st') -> st' = st.
Proof.
  unfold Storage.exists_, cache_has, bind, gets, lift.
  destruct (cache_method st "has"); [intros [= _ <-]; auto|].
  unfold ret. destruct (Storage.prefix root p); intros [= _ <-]; auto.
Qed.

Lemma exists_ro (root p : string) : inv_m ro (Storage.exists_ root p).
Proof. intros st r st' H. apply exists_state in H. subst. apply ro_refl. Qed.

Lemma readFile_ro (p : string) : inv_m ro (readFile p).
Proof.
  intros st r st'. unfold readFile. destruct (files st !! p) as [[j|]|];
    intros [= _ <-]; apply ro_refl.
Qed.

Lemma parse_ro (j : json) : inv_m ro (parse j).
Proof. intros st r st'. unfold parse. destruct (of_json j _). intros [= _ <-]. repeat split. Qed.

Lemma new_array_ro : inv_m ro new_array.
Proof. intros st r st' [= _ <-]. repeat split. Qed.

Lemma read_ro (root p : string) : inv_m ro (Storage.read root p).
Proof.
  unfold Storage.read. repeat inv_step; auto using cache_has_ro, readFile_ro, parse_ro.
Qed.

#[local] Hint Resolve cache_has_ro readFile_ro parse_ro exists_ro read_ro new_array_ro : core.

(** ** Queries only read *)

Section Queries.
Variable c : Collection.collection.

Lemma probe_ro (data : Collection.props) (cands : list jsval) (key : string) :
  inv_m ro (Collection.probe c data cands key).
Proof. unfold Collection.probe. cbv zeta. repeat inv_step; auto using exists_ro, read_ro. Qed.

Lemma gather_ro (data : Collection.props) (ks : list string) (cands : list jsval) :
  inv_m ro (Collection.gather c data ks cands).
Proof.
  revert cands. induction ks as [|k ks IH]; intros cands; simpl; repeat inv_step; auto using probe_ro.
Qed.

Lemma load_ro (cand : jsval) : inv_m ro (Collection.load c cand).
Proof. unfold Collection.load. repeat inv_step; auto using read_ro. Qed.

Lemma findOne_loop_ro (data : Collection.props) (cands : list jsval) :
  inv_m ro (Collection.findOne_loop c data cands).
Proof. induction cands as [|x r IH]; simpl; repeat inv_step; auto using load_ro, read_ro. Qed.

Lemma findAll_loop_ro (data : Collection.props) (cands : list jsval) :
  inv_m ro (Collection.findAll_loop c data cands).
Proof. induction cands as [|x r IH]; simpl; repeat inv_step; auto using load_ro, read_ro. Qed.

Lemma findOne_ro (data : Collection.props) : inv_m ro (Collection.findOne c data).
Proof.
  unfold Collection.findOne, Collection.candidates.
  repeat inv_step; auto using gather_ro, findOne_loop_ro.
Qed.

Lemma findAll_ro (data : Collection.props) : inv_m ro (Collection.findAll c data).
Proof.
  unfold Collection.findAll, Collection.candidates.
  repeat inv_step; auto using gather_ro, findAll_loop_ro.
Qed.


Lemma resolve_cro (key : string) (fd : Collection.field) (data : Collection.props) (st : state) :
  let '(r, d1, st1) := Collection.resolve key fd data st in cro st st1.
Proof.
  unfold Collection.resolve, cro.
  destruct (_ && _); [|auto].
  destruct (Collection.default fd); [auto| destruct (truthy _); auto | auto].
Qed.

Lemma create_loop_cro (fields : Collection.schema) (data : Collection.props) (st : state) :
  let '(r, d', st') := Collection.create_loop c fields data st in cro st st'.
Proof.
  revert data st. induction fields as [|[key fd] rest IH]; intros data st; simpl.
  - unfold cro; auto.
  - destruct (String.eqb key "id").
    + destruct (Collection.default fd); try (unfold cro; auto; fail).
      specialize (IH (props_set data key (f (seed st))) (set_seed (S (seed st)) st)).
      destruct (Collection.create_loop c rest _ _) as [[r d'] st']. unfold cro in *. simpl in IH.
      intuition.
    + pose proof (resolve_cro key fd data st) as HR.
      destruct (Collection.resolve key fd data st) as [[[u|e] d1] st1]; [|exact HR].
      destruct (Collection.unique fd).
      * destruct (Collection.findOne c [(key, Collection.query_value d1 key)] st1) as [[found|e] st2] eqn:EF;
          pose proof (findOne_ro _ _ _ _ EF) as (F1 & F2 & F3 & _).
        -- destruct (truthy found).
           ++ unfold cro in *. intuition congruence.
           ++ specialize (IH d1 st2). destruct (Collection.create_loop c rest d1 st2) as [[r d'] st'].
              unfold cro in *. intuition congruence.
        -- unfold cro in *. intuition congruence.
      * specialize (IH d1 st1). destruct (Collection.create_loop c rest d1 st1) as [[r d'] st'].
        unfold cro in *. intuition congruence.
Qed.

Lemma create_cro (l : loc) (data : Collection.props) (st : state) :
  let '(r, d', st') := Collection.create c l data st in cro st st'.
Proof.
  unfold Collection.create. pose proof (create_loop_cro (Collection.cschema c) data st) as H.
  destruct (Collection.create_loop c _ data st) as [[[u|e] d'] st']; exact H.
Qed.

End Queries.

(** ** Writes: what changes where *)



Lemma fr_refl (q : string) (st : state) : fr q st st.
Proof. unfold fr. auto. Qed.

Lemma fr_trans (q : string) (a b d : state) : fr q a b -> fr q b d -> fr q a d.
Proof.
  intros (A1 & A2 & A3) (B1 & B2 & B3). unfold fr.
  split; [congruence|split; [auto|congruence]].
Qed.

#[local] Hint Resolve fr_refl fr_trans : core.

Lemma ro_cache_ok (st st' : state) : ro st st' -> cache_ok st -> cache_ok st'.
Proof. intros (_ & C & P & _). unfold cache_ok. rewrite C, P. auto. Qed.

Lemma cro_cache_ok (st st' : state) : cro st st' -> cache_ok st -> cache_ok st'.
Proof. intros (_ & C & P). unfold cache_ok. rewrite C, P. auto. Qed.

Lemma ro_fr (q : string) {A} (m : M A) : inv_m ro m -> inv_m (fr q) m.
Proof.
  intros H st r st' E. pose proof (H _ _ _ E) as Hro. destruct Hro as (F & _ & _ & S).
  unfold fr. rewrite F, S. split; [reflexivity|split; [|reflexivity]].
  apply ro_cache_ok. eapply H; exact E.
Qed.

Lemma inv_modify (P : state -> state -> Prop) (f : state -> state) :
  (forall st, P st (f st)) -> inv_m P (modify f).
Proof. intros H st r st' [= _ <-]. apply H. Qed.

Lemma inv_bind_lift (P : state -> state -> Prop) {A B} (x : res A) (k : A -> M B) :
  (forall st, P st st) -> (forall a, x = Ok a -> inv_m P (k a)) -> inv_m P (bind (lift x) k).
Proof.
  intros Hr Hk st r st'. unfold bind, lift. destruct x as [a|e].
  - now apply Hk.
  - intros [= _ <-]. apply Hr.
Qed.

Lemma inv_bind_indexed (P : state -> state -> Prop) {B} (c : Collection.collection) (key : string)
  (k : option Collection.field -> M B) :
  (forall st, P st st) ->
  (forall ofd, (forall fd, ofd = Some fd ->
                Collection.field_of c key = Some fd /\ Collection.index fd = true) ->
               inv_m P (k ofd)) ->
  inv_m P (bind (Collection.indexed_field c key) k).
Proof.
  intros Hr Hk st r st'. unfold bind, Collection.indexed_field.
  destruct (Collection.field_of c key) as [fd|] eqn:E.
  - destruct (Collection.index fd) eqn:Ei; unfold ret; apply Hk;
      intros fd' H; [injection H as <-; auto|discriminate].
  - destruct (object_proto_member key); unfold ret, throw.
    + apply Hk. intros fd' H; discriminate.
    + intros [= _ <-]. apply Hr.
Qed.

Lemma inv_bind_lift_opt (P : state -> state -> Prop) {A B} (e : err) (o : option A) (k : A -> M B) :
  (forall st, P st st) -> (forall a, o = Some a -> inv_m P (k a)) ->
  inv_m P (bind (lift_opt e o) k).
Proof.
  intros Hr Hk st r st'. unfold bind, lift_opt. destruct o as [a|].
  - now apply Hk.
  - intros [= _ <-]. apply Hr.
Qed.

Lemma mkdir_chain_fr (q : string) (qs : list string) : inv_m (fr q) (mkdir_chain qs).
Proof.
  induction qs as [|q0 qs IH]; [apply inv_ret; auto|].
  intros st r st'. simpl. destruct (files st !! q0) as [[j|]|] eqn:E.
  - intros [= _ <-]. auto.
  - apply IH.
  - intros H. eapply fr_trans; [|eapply IH; exact H].
    unfold fr, ffile; simpl. split; [|auto].
    destruct (String.eq_dec q0 q) as [->|Hne].
    + rewrite lookup_insert_eq, E. reflexivity.
    + rewrite lookup_insert_ne by exact Hne. reflexivity.
Qed.

Lemma writeFile_fr (q p : string) (v : jsval) : p <> q -> inv_m (fr q) (writeFile p v).
Proof.
  intros Hne st r st'. unfold writeFile.
  destruct (to_json v) as [j|]; [|intros [= _ <-]; auto].
  destruct (files st !! p) as [[j'|]|]; try (intros [= _ <-]; auto; fail).
  all: intros [= _ <-]; unfold fr, ffile; simpl; rewrite lookup_insert_ne by exact Hne; auto.
Qed.

Lemma cache_assign_fr (q k : string) (v : jsval) :
  cache_key k = false -> inv_m (fr q) (cache_assign k v).
Proof.
  intros Hk st r st' E. pose proof (cache_assign_state _ _ _ _ _ E) as (F & _ & S).
  unfold fr. rewrite F, S. split; [reflexivity|split; [|reflexivity]].
  intros Hok. rewrite (cache_assign_ok k v st Hok Hk) in E. injection E as _ <-.
  now apply cache_ok_insert.
Qed.

Lemma write_fr (root path : string) (v : jsval) (q : string) :
  cache_key path = false ->
  (forall p, Storage.prefix root path = Ok p -> p <> q) ->
  inv_m (fr q) (Storage.write root path v).
Proof.
  intros Hk Hq. unfold Storage.write.
  apply inv_bind; [eauto|apply cache_assign_fr, Hk|intros _].
  apply inv_bind_lift; [auto|intros p Hp].
  apply inv_bind; [eauto|apply inv_gets; auto|intros d].
  apply inv_bind; [eauto| |intros _].
  - destruct d; [apply inv_ret; auto|apply mkdir_chain_fr].
  - apply writeFile_fr. now apply Hq.
Qed.

Lemma bind_ok {A B} (m : M A) (k : A -> M B) (st st' : state) (b : B) :
  bind m k st = (Ok b, st') -> exists a st1, m st = (Ok a, st1) /\ k a st1 = (Ok b, st').
Proof.
  unfold bind. destruct (m st) as [[a|e] st1]; [|discriminate]. eauto.
Qed.

Lemma bind_step {A B} (m : M A) (k : A -> M B) (st st1 : state) (a : A) :
  m st = (Ok a, st1) -> bind m k st = k a st1.
Proof. intros E. unfold bind. rewrite E. reflexivity. Qed.

Lemma writeFile_ok (p : string) (v : jsval) (st st' : state) :
  writeFile p v st = (Ok tt, st') -> exists j, to_json v = Some j /\ ffile (files st') p = Some j.
Proof.
  unfold writeFile. destruct (to_json v) as [j|]; [|discriminate].
  destruct (files st !! p) as [[j'|]|]; try discriminate.
  all: intros [= <-]; exists j; split; [reflexivity|]; unfold ffile; simpl; now rewrite lookup_insert_eq.
Qed.

Lemma write_ok (root path : string) (v : jsval) (st st' : state) :
  Storage.write root path v st = (Ok tt, st') ->
  exists p j, Storage.prefix root path = Ok p /\ to_json v = Some j /\ ffile (files st') p = Some j.
Proof.
  unfold Storage.write. intros H.
  apply bind_ok in H as (u & st1 & _ & H).
  apply bind_ok in H as (p & st2 & H1 & H).
  unfold lift in H1. destruct (Storage.prefix root path) as [p'|e] eqn:Ep; [|discriminate].
  injection H1 as <- <-.
  apply bind_ok in H as (d & st3 & _ & H).
  apply bind_ok in H as (u' & st4 & _ & H).
  apply writeFile_ok in H as (j & Hj & Hf). eauto.
Qed.

Lemma all_tasks_cons_ok (t : M unit) (ts : list (M unit)) (st st' : state) :
  all_tasks (t :: ts) st = (Ok tt, st') ->
  exists st1, t st = (Ok tt, st1) /\ all_tasks ts st1 = (Ok tt, st').
Proof.
  simpl. destruct (t st) as [[[]|e] st1]; [eauto|].
  destruct (all_tasks ts st1). discriminate.
Qed.

Lemma all_tasks_app_ok (ts1 ts2 : list (M unit)) (st st' : state) :
  all_tasks (ts1 ++ ts2) st = (Ok tt, st') ->
  exists st1, all_tasks ts1 st = (Ok tt, st1) /\ all_tasks ts2 st1 = (Ok tt, st').
Proof.
  revert st. induction ts1 as [|t ts1 IH]; intros st H; [eexists; split; [reflexivity|exact H]|].
  apply all_tasks_cons_ok in H as (st1 & H1 & H2). apply IH in H2 as (st2 & H3 & H4).
  exists st2. split; [|exact H4]. simpl. rewrite H1. exact H3.
Qed.

(** ** Reading files *)


Lemma read_file (root path p : string) (st : state) (j : json) :
  cache_ok st -> Storage.prefix root path = Ok p -> ffile (files st) p = Some j ->
  Storage.read root path st
  = (Ok (fst (of_json j (next_loc st))), set_next_loc (snd (of_json j (next_loc st))) st).
Proof.
  intros Hc Hp Hf. unfold Storage.read. rewrite (bind_step _ _ _ _ _ (cache_has_ok st Hc)).
  unfold bind, lift, gets. rewrite Hp. unfold existsSync, ffile in *.
  destruct (files st !! p) as [[j'|]|] eqn:E; [|discriminate|discriminate].
  injection Hf as <-. simpl. unfold readFile. rewrite E. unfold parse.
  destruct (of_json j' (next_loc st)). reflexivity.
Qed.



(** ** The tasks of [Collection.write] *)

Lemma schema_get_in (s : Collection.schema) (k : string) (fd : Collection.field) :
  Collection.schema_get s k = Some fd -> In k (map fst s).
Proof.
  induction s as [|[k' f'] s IH]; simpl; [discriminate|].
  destruct (String.eqb_spec k k') as [->|]; auto.
Qed.

Lemma field_simple (c : Collection.collection) (rsegs : list string) (k : string) (fd : Collection.field) :
  wf c rsegs -> Collection.field_of c k = Some fd -> simple_seg k = true.
Proof.
  intros (_ & _ & _ & _ & HF & _) Hk. apply schema_get_in in Hk.
  rewrite List.Forall_forall in HF. now apply HF.
Qed.

Section Written.
Variables (c : Collection.collection) (rsegs : list string).
Hypothesis Hwf : wf c rsegs.

(** The file of the document with id [s], and of the index entry [h] of [k]. *)
Let dfile (s : string) : string := render (rsegs ++ ["data"; Collection.name c; s]).
Let ifile (k h : string) : string := render (rsegs ++ ["index"; Collection.name c; k; h]).

Lemma wf_rsegs : Forall (fun s => simple_seg s = true) rsegs /\ rsegs <> [] /\
  simple_seg (Collection.name c) = true.
Proof. destruct Hwf as (_ & ? & ? & ? & _). auto. Qed.

Lemma dfile_ifile (s k h : string) :
  simple_seg s = true -> simple_seg k = true -> simple_seg h = true -> dfile s <> ifile k h.
Proof.
  intros Hs Hk Hh. destruct wf_rsegs as (HF & Hne & Hn). apply render_seg_neq;
    first [ assumption | discriminate | congruence
          | apply Forall_app; split; [auto|repeat constructor; auto] ].
Qed.



Lemma write_key_fr (d : Collection.props) (id : jsval) (k q : string) :
  (forall h, simple_seg k = true -> simple_seg h = true -> q <> ifile k h) ->
  inv_m (fr q) (Collection.write_key c d id k).
Proof.
  intros Hq. unfold Collection.write_key. destruct (String.eqb k "id"); [apply inv_ret; auto|].
  apply inv_bind_indexed; [auto|intros [fd|] Hfd; [|apply inv_ret; auto]].
  destruct (Hfd fd eq_refl) as [Hf _].
  apply inv_bind_lift_opt; [auto|intros h Hh]. cbv zeta.
  assert (Hk : simple_seg k = true) by (eapply field_simple; eauto).
  assert (Hh' : simple_seg h = true) by (eapply pathsafe_simple; eauto).
  assert (Hp : forall p, Storage.prefix (Collection.root c) (Collection.index_path c k h) = Ok p -> p <> q).
  { intros p E. rewrite (index_path_prefix c rsegs) in E by auto. injection E as <-.
    intros E. apply (Hq h); auto. }
  assert (Hck : cache_key (Collection.index_path c k h) = false) by (eapply index_path_key; eauto).
  destruct (Collection.unique fd).
  - now apply write_fr.
  - apply inv_bind; [eauto|apply ro_fr, read_ro|intros ids].
    apply inv_bind; [eauto| |intros ids'].
    { destruct (truthy ids); [apply inv_ret; auto|apply ro_fr, new_array_ro]. }
    apply inv_bind; [eauto|apply inv_lift; auto|intros pushed].
    now apply write_fr.
Qed.

Lemma write_tasks (l : loc) (d : Collection.props) (s : string) :
  props_get d "id" = VStr s ->
  Collection.write c l d
  = all_tasks (Storage.write (Collection.root c) (Collection.data_path c s) (VObj l d)
               :: map (Collection.write_key c d (VStr s)) (Collection.keys d)).
Proof. intros Hid. unfold Collection.write. rewrite Hid. reflexivity. Qed.

(** [write] touches the document's own file and index entries only. *)
Lemma write_frame (l : loc) (d : Collection.props) (s : string) (st st' : state) r (q : string) :
  props_get d "id" = VStr s -> simple_seg s = true ->
  Collection.write c l d st = (r, st') -> q <> dfile s ->
  (forall k h, simple_seg k = true -> simple_seg h = true -> q <> ifile k h) ->
  fr q st st'.
Proof.
  intros Hid Hs Hw Hq Hqi. rewrite (write_tasks l d s Hid) in Hw.
  revert Hw. apply inv_all_tasks; [auto|eauto|]. constructor.
  - apply write_fr; [eapply data_path_key; eauto|].
    intros p E. rewrite (data_path_prefix c rsegs) in E by auto. injection E as <-. auto.
  - apply List.Forall_forall. intros t Ht. apply in_map_iff in Ht as (k & <- & _).
    apply write_key_fr. auto.
Qed.

Lemma write_keeps (l : loc) (d : Collection.props) (s : string) (st st' : state) r :
  props_get d "id" = VStr s -> simple_seg s = true ->
  Collection.write c l d st = (r, st') ->
  (cache_ok st -> cache_ok st') /\ seed st' = seed st.
Proof.
  intros Hid Hs Hw. assert (H : fr "" st st').
  { eapply write_frame; eauto.
    all: try (unfold dfile; discriminate).
    all: intros k h _ _; unfold ifile; discriminate. }
  destruct H as (_ & ? & ?). auto.
Qed.

Lemma tasks_fr (d : Collection.props) (s : string) (ks : list string) (q : string) :
  (forall k h, In k ks -> simple_seg k = true -> simple_seg h = true -> q <> ifile k h) ->
  inv_m (fr q) (all_tasks (map (Collection.write_key c d (VStr s)) ks)).
Proof.
  intros Hq. apply inv_all_tasks; [auto|eauto|]. apply List.Forall_forall.
  intros t Ht. apply in_map_iff in Ht as (k & <- & Hk). apply write_key_fr. intros h. auto.
Qed.

(** After a successful [write], the document's file holds its JSON. *)
Lemma write_data (l : loc) (d : Collection.props) (s : string) (st st' : state) :
  props_get d "id" = VStr s -> simple_seg s = true ->
  Collection.write c l d st = (Ok tt, st') ->
  ffile (files st') (dfile s) = to_json (VObj l d).
Proof.
  intros Hid Hs Hw. rewrite (write_tasks l d s Hid) in Hw.
  apply all_tasks_cons_ok in Hw as (st1 & H1 & H2).
  apply write_ok in H1 as (p & j & Hp & Hj & Hf).
  rewrite (data_path_prefix c rsegs) in Hp by auto. injection Hp as <-.
  rewrite Hj. rewrite <- Hf. eapply tasks_fr; [|exact H2].
  intros k h _ Hk Hh. now apply dfile_ifile.
Qed.

Lemma keys_split (d : Collection.props) (f : string) :
  NoDup (Collection.keys d) -> In f (Collection.keys d) ->
  exists ks1 ks2, Collection.keys d = ks1 ++ f :: ks2 /\ ~ In f ks2 /\ ~ In f ks1.
Proof.
  intros Hnd Hin. apply in_split in Hin as (ks1 & ks2 & E). exists ks1, ks2.
  split; [exact E|]. rewrite E in Hnd. apply NoDup_ListNoDup, NoDup_remove_2 in Hnd.
  split; intros H; apply Hnd; apply in_or_app; auto.
Qed.





End Written.

(** ** Plain documents survive [JSON.stringify] / [JSON.parse] *)

Lemma to_json_plain (v : jsval) : plain v = true -> to_json v = Some (json_of_plain v).
Proof. destruct v; simpl; congruence. Qed.

Lemma of_json_plain (v : jsval) (n : loc) : plain v = true -> of_json (json_of_plain v) n = (v, n).
Proof. destruct v; simpl; congruence. Qed.

Lemma to_json_plain_obj (l : loc) (d : Collection.props) :
  forallb plain (map snd d) = true ->
  to_json (VObj l d) = Some (JObj (map (fun kv => (kv.1, json_of_plain kv.2)) d)).
Proof.
  induction d as [|[k v] d IH]; intros H; [reflexivity|].
  simpl in H. apply andb_prop in H as [Hv Hd]. specialize (IH Hd).
  simpl in IH |- *. injection IH as IH. rewrite (to_json_plain v Hv), IH. reflexivity.
Qed.

Lemma of_json_plain_obj (d : Collection.props) (nx : loc) :
  forallb plain (map snd d) = true ->
  of_json (JObj (map (fun kv => (kv.1, json_of_plain kv.2)) d)) nx = (VObj nx d, N.succ nx).
Proof.
  induction d as [|[k v] d IH]; intros H; [reflexivity|].
  simpl in H. apply andb_prop in H as [Hv Hd]. specialize (IH Hd). simpl in IH |- *.
  match type of IH with context [match ?t with _ => _ end] => destruct t as [vs n2] eqn:E end.
  injection IH as -> ->. rewrite (of_json_plain v _ Hv). rewrite E. reflexivity.
Qed.






(** ** Evaluating queries on known files *)

Lemma state_eta (st : state) : set_next_loc (next_loc st) st = st.
Proof. destruct st; reflexivity. Qed.

Lemma exists_present (root path p : string) (st : state) :
  cache_ok st -> Storage.prefix root path = Ok p -> files st !! p <> None ->
  Storage.exists_ root path st = (Ok true, st).
Proof.
  intros Hc Hp Hf. unfold Storage.exists_. rewrite (bind_step _ _ _ _ _ (cache_has_ok st Hc)).
  unfold bind, lift, gets. rewrite Hp. unfold existsSync. destruct (files st !! p); [reflexivity|congruence].
Qed.

Lemma exists_absent (root path p : string) (st : state) :
  cache_ok st -> Storage.prefix root path = Ok p -> files st !! p = None ->
  Storage.exists_ root path st = (Ok false, st).
Proof.
  intros Hc Hp Hf. unfold Storage.exists_. rewrite (bind_step _ _ _ _ _ (cache_has_ok st Hc)).
  unfold bind, lift, gets. rewrite Hp. unfold existsSync. rewrite Hf. reflexivity.
Qed.




Section Reading.
Variables (c : Collection.collection) (rsegs : list string).
Hypothesis Hwf : wf c rsegs.

Let dfile (s : string) : string := render (rsegs ++ ["data"; Collection.name c; s]).
Let ifile (k h : string) : string := render (rsegs ++ ["index"; Collection.name c; k; h]).




Lemma probe_absent (st : state) (data : Collection.props) (cands : list jsval) (f h : string)
  (fd : Collection.field) :
  cache_ok st -> f <> "id" -> Collection.field_of c f = Some fd ->
  Collection.index fd = true ->
  pathsafe (props_get data f) = Some h -> files st !! ifile f h = None ->
  Collection.probe c data cands f st = (Ok cands, st).
Proof.
  intros Hc Hf Hfd Hi Hh Hfile.
  assert (Hp : Storage.prefix (Collection.root c) (Collection.index_path c f h) = Ok (ifile f h)).
  { apply (index_path_prefix c rsegs); eauto using field_simple, pathsafe_simple. }
  unfold Collection.probe. rewrite (proj2 (String.eqb_neq f "id") Hf), Hfd, Hi.
  unfold bind at 1, lift_opt. rewrite Hh. cbv zeta.
  rewrite (bind_step _ _ _ _ _ (exists_absent _ _ _ _ Hc Hp Hfile)). reflexivity.
Qed.

(** A single-key query [{f: v}] with [v] plain. *)
Lemma query1_get (f : string) (v : jsval) : props_get [(f, v)] f = v.
Proof. simpl. now rewrite String.eqb_refl. Qed.






End Reading.


(** ** What [create] assigns *)

Lemma props_get_set_same (ps : Collection.props) (k : string) (v : jsval) :
  props_get (props_set ps k v) k = v.
Proof.
  induction ps as [|[k' v'] ps IH]; simpl; [now rewrite String.eqb_refl|].
  destruct (String.eqb_spec k k') as [->|Hne]; simpl.
  - now rewrite String.eqb_refl.
  - rewrite (proj2 (String.eqb_neq k k') Hne). exact IH.
Qed.

Lemma props_get_set_other (ps : Collection.props) (k k2 : string) (v : jsval) :
  k2 <> k -> props_get (props_set ps k v) k2 = props_get ps k2.
Proof.
  intros Hne. induction ps as [|[k' v'] ps IH]; simpl.
  - now rewrite (proj2 (String.eqb_neq k2 k) Hne).
  - destruct (String.eqb_spec k k') as [->|Hne']; simpl.
    + now rewrite (proj2 (String.eqb_neq k2 k') Hne).
    + destruct (String.eqb k2 k'); [reflexivity|exact IH].
Qed.

Section Creating.
Variable c : Collection.collection.



Lemma resolve_other (key : string) (fd : Collection.field) (data : Collection.props)
  (st : state) r d1 st1 (k : string) :
  Collection.resolve key fd data st = (r, d1, st1) -> k <> key ->
  props_get d1 k = props_get data k.
Proof.
  unfold Collection.resolve. intros H Hk. destruct (_ && _).
  - destruct (Collection.default fd) as [|v|f].
    + congruence.
    + destruct (truthy v); injection H as _ <- _; [now apply props_get_set_other|reflexivity].
    + injection H as _ <- _. now apply props_get_set_other.
  - congruence.
Qed.

Ltac split_create_step IH :=
  match goal with
  | |- context [Collection.resolve ?key ?fd ?data ?st] =>
      destruct (Collection.resolve key fd data st) as [[[?u|?e] ?d1] ?st1] eqn:ER
  end.

(** A loop over fields other than [id] leaves [id] alone. *)
Lemma create_loop_noid (fields : Collection.schema) (data : Collection.props) (st : state)
  r d st' :
  ~ In "id" (map fst fields) ->
  Collection.create_loop c fields data st = (r, d, st') ->
  props_get d "id" = props_get data "id".
Proof.
  revert data st. induction fields as [|[key fd] rest IH]; intros data st Hn H; simpl in H.
  - congruence.
  - assert (Hk : key <> "id") by (intros ->; apply Hn; left; reflexivity).
    assert (Hr : ~ In "id" (map fst rest)) by (intros Hi; apply Hn; right; exact Hi).
    rewrite (proj2 (String.eqb_neq key "id") Hk) in H.
    destruct (Collection.resolve key fd data st) as [[r1 d1] st1] eqn:ER.
    assert (H1 : props_get d1 "id" = props_get data "id")
      by (apply (resolve_other _ _ _ _ _ _ _ _ ER); congruence).
    destruct r1 as [u|e].
    + destruct (Collection.unique fd).
      * destruct (Collection.findOne c _ st1) as [[found|e] st2].
        -- destruct (truthy found).
           ++ injection H as _ <- _. exact H1.
           ++ rewrite <- H1. exact (IH _ _ Hr H).
        -- injection H as _ <- _. exact H1.
      * rewrite <- H1. exact (IH _ _ Hr H).
    + injection H as _ <- _. exact H1.
Qed.

(** A successful [create] has given the document an id from the
    constructor's producer. *)
Lemma create_loop_id (fields : Collection.schema) (data : Collection.props) (st : state)
  u d st' :
  NoDup (map fst fields) -> Collection.schema_get fields "id" = Some Collection.id_field ->
  Collection.create_loop c fields data st = (Ok u, d, st') ->
  exists n, props_get d "id" = Collection.uuid_of n.
Proof.
  revert data st. induction fields as [|[key fd] rest IH]; intros data st Hnd Hid H;
    [discriminate Hid|].
  change (Collection.schema_get ((key, fd) :: rest) "id")
    with (if String.eqb "id" key then Some fd else Collection.schema_get rest "id") in Hid.
  simpl Collection.create_loop in H.
  apply NoDup_cons in Hnd as [Hnin Hnd].
  destruct (String.eqb_spec key "id") as [->|Hk].
  - try rewrite String.eqb_refl in Hid. injection Hid as ->. simpl in H.
    assert (Hn : ~ In "id" (map fst rest)) by (intros Hi; apply Hnin, list_elem_of_In, Hi).
    exists (seed st). rewrite (create_loop_noid _ _ _ _ _ _ Hn H).
    apply props_get_set_same.
  - rewrite (proj2 (String.eqb_neq "id" key) (not_eq_sym Hk)) in Hid.
    destruct (Collection.resolve key fd data st) as [[r1 d1] st1] eqn:ER.
    destruct r1 as [u1|e]; [|discriminate H].
    destruct (Collection.unique fd).
    + destruct (Collection.findOne c _ st1) as [[found|e] st2]; [|discriminate H].
      destruct (truthy found); [discriminate H|]. exact (IH _ _ Hnd Hid H).
    + exact (IH _ _ Hnd Hid H).
Qed.



End Creating.

Lemma users_wf : wf users ["srv"; "db"].
Proof.
  unfold wf. repeat split; try reflexivity; try discriminate.
  - repeat constructor.
  - vm_compute. repeat constructor.
  - vm_compute. repeat (apply NoDup_cons; split); [..|apply NoDup_nil_2];
      rewrite list_elem_of_In; simpl; intuition discriminate.
Qed.

(** ** Deletes: what disappears *)

Lemma sh_refl (st : state) : sh st st.
Proof. unfold sh. auto. Qed.

Lemma sh_trans (a b d : state) : sh a b -> sh b d -> sh a d.
Proof. intros (H1 & H2 & H3) (H4 & H5 & H6). split; [auto|split; congruence]. Qed.

#[local] Hint Resolve sh_refl sh_trans : core.

Lemma sh_cache_ok (st st' : state) : sh st st' -> cache_ok st -> cache_ok st'.
Proof. intros (_ & Hp & Hr). unfold cache_ok. now rewrite Hp, Hr. Qed.

Lemma rm_rf_gone (p : string) (st st' : state) u :
  rm_rf p st = (u, st') -> files st' !! p = None.
Proof.
  unfold rm_rf, modify. intros H. apply (f_equal snd) in H. simpl in H. subst st'. simpl.
  apply map_lookup_filter_None. right. intros x _. simpl.
  rewrite String.eqb_refl. simpl. intros Hx. inversion Hx.
Qed.

Lemma rm_rf_sh (p : string) : inv_m sh (rm_rf p).
Proof.
  unfold rm_rf, modify. intros st r st' H. apply (f_equal snd) in H. simpl in H. subst st'.
  split; simpl; [|auto].
  intros q Hq. apply map_lookup_filter_None. left. exact Hq.
Qed.

Lemma remove_sh (root path : string) : inv_m sh (Storage.remove root path).
Proof.
  unfold Storage.remove. apply (inv_bind sh sh_trans); [apply (inv_gets sh sh_refl)|intros m].
  apply (inv_bind sh sh_trans); [apply (inv_lift sh sh_refl)|intros p].
  apply (inv_bind sh sh_trans).
  { destruct m; [apply (inv_throw sh sh_refl)|apply (inv_ret sh sh_refl)]. }
  intros _. apply (inv_bind sh sh_trans).
  { intros st r st' E. rewrite (exists_state _ _ _ _ _ E). apply sh_refl. }
  intros e. destruct e; [|apply (inv_ret sh sh_refl)].
  apply (inv_bind sh sh_trans); [apply (inv_lift sh sh_refl)|intros p'].
  apply rm_rf_sh.
Qed.

Lemma remove_gone (root path p : string) (st st' : state) :
  cache_ok st -> Storage.prefix root path = Ok p ->
  Storage.remove root path st = (Ok tt, st') -> files st' !! p = None.
Proof.
  intros Hc Hp H. unfold Storage.remove, bind at 1, gets in H. rewrite (cache_delete_ok st Hc) in H.
  unfold bind at 1 in H. unfold lift at 1 in H. rewrite Hp in H. unfold bind at 1, ret at 1 in H.
  destruct (files st !! p) eqn:E.
  - rewrite (bind_step _ _ _ _ _ (exists_present _ _ _ _ Hc Hp ltac:(congruence))) in H.
    unfold bind, lift in H. exact (rm_rf_gone _ _ _ _ H).
  - rewrite (bind_step _ _ _ _ _ (exists_absent _ _ _ _ Hc Hp E)) in H.
    injection H as <-. exact E.
Qed.

Lemma delete_key_sh (c : Collection.collection) (d : Collection.props) (k : string) :
  inv_m sh (Collection.delete_key c d k).
Proof.
  unfold Collection.delete_key. destruct (String.eqb k "id"); [apply (inv_ret sh sh_refl)|].
  apply (inv_bind_indexed sh); [apply sh_refl|intros [fd|] _; [|apply (inv_ret sh sh_refl)]].
  apply (inv_bind sh sh_trans); [apply (inv_lift_opt sh sh_refl)|intros h].
  apply remove_sh.
Qed.

(** After a successful [delete(d)], the index file of each indexed field
    of [d] is gone, and the cache object keeps its shape. *)
Lemma delete_gone (c : Collection.collection) (rsegs : list string) (d : Collection.props)
  (f h : string) (fd : Collection.field) (st st' : state) :
  wf c rsegs -> cache_ok st -> NoDup (Collection.keys d) -> In f (Collection.keys d) ->
  f <> "id" -> Collection.field_of c f = Some fd -> Collection.index fd = true ->
  pathsafe (props_get d f) = Some h ->
  Collection.delete c d st = (Ok tt, st') ->
  files st' !! render (rsegs ++ ["index"; Collection.name c; f; h]) = None /\
  cache_ok st'.
Proof.
  intros Hwf Hc Hnd Hin Hf Hfd Hi Hh H.
  unfold Collection.delete, bind, lift in H.
  destruct (Collection.as_string (props_get d "id")) as [s|e]; [|discriminate H].
  apply all_tasks_cons_ok in H as (st1 & H0 & H).
  destruct (keys_split d f Hnd Hin) as (ks1 & ks2 & Hk & _ & _).
  rewrite Hk, map_app in H. simpl in H.
  apply all_tasks_app_ok in H as (st2 & H1 & H).
  apply all_tasks_cons_ok in H as (st3 & H2 & H3).
  assert (Hsh1 : sh st st2).
  { eapply sh_trans; [eapply remove_sh; exact H0|].
    eapply (inv_all_tasks sh sh_refl sh_trans); [|exact H1].
    apply List.Forall_forall. intros t Ht. apply in_map_iff in Ht as (k & <- & _).
    apply delete_key_sh. }
  assert (Hsh3 : sh st3 st').
  { eapply (inv_all_tasks sh sh_refl sh_trans); [|exact H3].
    apply List.Forall_forall. intros t Ht. apply in_map_iff in Ht as (k & <- & _).
    apply delete_key_sh. }
  assert (Hc2 : cache_ok st2) by exact (sh_cache_ok _ _ Hsh1 Hc).
  unfold Collection.delete_key in H2.
  rewrite (proj2 (String.eqb_neq f "id") Hf) in H2.
  unfold bind at 1, Collection.indexed_field in H2. rewrite Hfd, Hi in H2. unfold ret in H2.
  unfold bind at 1, lift_opt in H2. rewrite Hh in H2. cbv beta iota in H2.
  pose proof (remove_gone _ _ _ _ _ Hc2
                (index_path_prefix c rsegs f h Hwf (field_simple c rsegs f fd Hwf Hfd)
                   (pathsafe_simple _ _ Hh)) H2) as Hg.
  pose proof (remove_sh _ _ _ _ _ H2) as Hsh2.
  split.
  - apply (proj1 Hsh3). exact Hg.
  - exact (sh_cache_ok _ _ Hsh3 (sh_cache_ok _ _ Hsh2 Hc2)).
Qed.


(** The loop of [create] over a split schema. *)
Lemma create_loop_app (c : Collection.collection) (pre rest : Collection.schema)
  (data : Collection.props) (st : state) :
  Collection.create_loop c (pre ++ rest) data st
  = match Collection.create_loop c pre data st with
    | (Ok _, d1, st1) => Collection.create_loop c rest d1 st1
    | (Err e, d1, st1) => (Err e, d1, st1)
    end.
Proof.
  revert data st. induction pre as [|[key fd] pre IH]; intros data st; [reflexivity|].
  simpl. destruct (String.eqb key "id").
  - destruct (Collection.default fd); [reflexivity|reflexivity|apply IH].
  - destruct (Collection.resolve key fd data st) as [[[u|e] d1] st1]; [|reflexivity].
    destruct (Collection.unique fd); [|apply IH].
    destruct (Collection.findOne c _ st1) as [[found|e] st2]; [|reflexivity].
    destruct (truthy found); [reflexivity|apply IH].
Qed.

(** ** The engine against the engine without cache *)

Lemma same_refl (st : state) : same st st.
Proof. unfold same. auto. Qed.

Lemma same_trans (a b d : state) : same a b -> same b d -> same a d.
Proof. unfold same. intuition congruence. Qed.

Lemma kc_refl (st : state) : kc st st.
Proof. unfold kc. auto. Qed.

Lemma kc_trans (a b d : state) : kc a b -> kc b d -> kc a d.
Proof. unfold kc. intuition congruence. Qed.

#[local] Hint Resolve same_refl kc_refl : core.

Ltac resp_intro :=
  intros [f1 cp1 pr1 n1 s1] [f2 cp2 pr2 n2 s2] (Hf & Hn & Hs);
  simpl in Hf, Hn, Hs; subst f2 n2 s2.

Lemma resp_ret {A} (a : A) : resp (ret a).
Proof. resp_intro. unfold same, kc. simpl. auto. Qed.

Lemma resp_lift {A} (x : res A) : resp (lift x).
Proof. resp_intro. unfold same, kc. simpl. auto. Qed.

Lemma resp_gets {A} (f : state -> A) :
  (forall st st', same st st' -> f st = f st') -> resp (gets f).
Proof.
  intros Hf st st' Hs. simpl. split; [f_equal; apply Hf; exact Hs|]. split; [exact Hs|apply kc_refl].
Qed.

Lemma resp_bind {A B} (m : M A) (k : A -> M B) :
  resp m -> (forall a, resp (k a)) -> resp (bind m k).
Proof.
  intros Hm Hk st st' Hs. destruct (Hm st st' Hs) as (H1 & H2 & H3).
  unfold bind. destruct (m st) as [r1 s1], (m st') as [r2 s2]. simpl in *. subst r2.
  destruct r1 as [a|e].
  - destruct (Hk a s1 s2 H2) as (K1 & K2 & K3). split; [exact K1|]. split; [exact K2|].
    eapply kc_trans; eassumption.
  - simpl. auto.
Qed.

Lemma resp_readFile (p : string) : resp (readFile p).
Proof.
  resp_intro. unfold readFile, same, kc. simpl.
  destruct (f1 !! p) as [[j|]|]; simpl; auto.
Qed.

Lemma resp_parse (j : json) : resp (parse j).
Proof.
  resp_intro. unfold parse, same, kc. simpl.
  destruct (of_json j n1) as [v n]. simpl. auto.
Qed.

Lemma resp_writeFile (p : string) (v : jsval) : resp (writeFile p v).
Proof.
  resp_intro. unfold writeFile, same, kc. simpl.
  destruct (to_json v); [|simpl; auto].
  destruct (f1 !! p) as [[j'|]|]; simpl; auto.
Qed.

Lemma resp_mkdir_chain (qs : list string) : resp (mkdir_chain qs).
Proof.
  induction qs as [|q qs IH]; [apply resp_ret|].
  resp_intro. simpl. destruct (f1 !! q) as [[j|]|].
  - unfold same, kc. simpl. auto.
  - apply IH. unfold same. simpl. auto.
  - destruct (IH {| files := <[q:=FDir]> f1; cache_props := cp1; cache_proto := pr1;
                    next_loc := n1; seed := s1 |}
                  {| files := <[q:=FDir]> f1; cache_props := cp2; cache_proto := pr2;
                    next_loc := n1; seed := s1 |}) as (H1 & H2 & H3);
      [unfold same; simpl; auto|].
    unfold set_files. simpl. split; [exact H1|]. split; [exact H2|].
    eapply kc_trans; [|exact H3]. unfold kc. simpl. auto.
Qed.

Lemma resp_rm_rf (p : string) : resp (rm_rf p).
Proof. resp_intro. unfold rm_rf, modify, same, kc. simpl. auto. Qed.

Lemma resp_readdir (p : string) : resp (readdir p).
Proof.
  resp_intro. unfold readdir, same, kc. simpl.
  destruct (f1 !! p) as [[j|]|]; simpl; auto.
Qed.

Lemma resp_map_res {A B} (f : A -> B) (m : M A) : resp m -> resp (Storage.map_res f m).
Proof. intros Hm. unfold Storage.map_res. apply resp_bind; [exact Hm|]. intros a. apply resp_ret. Qed.

Lemma resp_files {A} (f : gmap string node -> A) : resp (gets (fun st => f (files st))).
Proof. apply resp_gets. intros st st' (Hf & _ & _). now rewrite Hf. Qed.

#[local] Hint Resolve resp_ret resp_lift resp_readFile resp_parse resp_writeFile
  resp_mkdir_chain resp_rm_rf resp_readdir : core.

Ltac resp_step :=
  first [ apply resp_bind; [|intros]
        | match goal with
          | |- resp (gets (fun st => existsSync (files st) ?q)) =>
              apply (resp_files (fun fs => existsSync fs q))
          end
        | match goal with
          | |- resp (if ?b then _ else _) => destruct b
          end
        | solve [auto] ].

Lemma resp_nocache_read (root p : string) : resp (NoCache.read root p).
Proof. unfold NoCache.read. repeat resp_step. Qed.

Lemma resp_nocache_write (root p : string) (v : jsval) : resp (NoCache.write root p v).
Proof. unfold NoCache.write, mkdir_p. repeat resp_step. Qed.

Lemma resp_nocache_exists (root p : string) : resp (NoCache.exists_ root p).
Proof. unfold NoCache.exists_. repeat resp_step. Qed.

Lemma resp_nocache_list (root p : string) : resp (NoCache.list root p).
Proof. unfold NoCache.list. repeat resp_step; apply resp_nocache_exists. Qed.

Lemma resp_nocache_remove (root p : string) : resp (NoCache.remove root p).
Proof. unfold NoCache.remove. repeat resp_step; apply resp_nocache_exists. Qed.

Lemma resp_nocache_makedir (root p : string) : resp (NoCache.makedir root p).
Proof. unfold NoCache.makedir, mkdir_p. repeat resp_step. Qed.

Lemma resp_nocache_op (root : string) (o : Storage.op) : resp (NoCache.run_op root o).
Proof.
  destruct o; simpl; try apply resp_map_res.
  - apply resp_nocache_read.
  - apply resp_nocache_write.
  - apply resp_nocache_exists.
  - apply resp_nocache_list.
  - apply resp_nocache_remove.
  - apply resp_nocache_makedir.
  - apply resp_ret.
Qed.






(** While [Map.prototype] is the prototype, the eviction check returns
    at once. *)
Lemma storage_cacheClear_ok (st : state) :
  cache_proto st = None -> Storage.cacheClear st = (Ok tt, st).
Proof. intros Hp. unfold Storage.cacheClear. rewrite Hp. reflexivity. Qed.






(** ** The cache object under any operation *)

Lemma resp_kc {A} (m : M A) : resp m -> inv_m kc m.
Proof.
  intros Hm st r st' H. destruct (Hm st st (same_refl st)) as (_ & _ & K). rewrite H in K. exact K.
Qed.

Lemma cache_has_kc : inv_m kc cache_has.
Proof. intros st r st' E. rewrite (cache_has_state _ _ _ E). apply kc_refl. Qed.

Lemma exists_kc (root p : string) : inv_m kc (Storage.exists_ root p).
Proof.
  intros st r st' E. rewrite (exists_state _ _ _ _ _ E). apply kc_refl.
Qed.

Lemma read_kc (root p : string) : inv_m kc (Storage.read root p).
Proof.
  apply (inv_bind kc kc_trans); [apply cache_has_kc|intros _].
  apply resp_kc, (resp_nocache_read root p).
Qed.

Lemma list_kc (root p : string) : inv_m kc (Storage.list root p).
Proof.
  apply (inv_bind kc kc_trans); [apply exists_kc|intros e].
  apply resp_kc. destruct e; simpl; repeat resp_step.
Qed.

Lemma remove_kc (root p : string) : inv_m kc (Storage.remove root p).
Proof.
  apply (inv_bind kc kc_trans); [apply (inv_gets kc kc_refl)|intros m].
  apply (inv_bind kc kc_trans); [apply (inv_lift kc kc_refl)|intros q].
  apply (inv_bind kc kc_trans).
  { destruct m; [apply (inv_throw kc kc_refl)|apply (inv_ret kc kc_refl)]. }
  intros _. apply (inv_bind kc kc_trans); [apply exists_kc|intros e].
  apply resp_kc. destruct e; repeat resp_step.
Qed.

Lemma makedir_kc (root p : string) : inv_m kc (Storage.makedir root p).
Proof. apply resp_kc, (resp_nocache_makedir root p). Qed.

Lemma cacheClear_kc : inv_m kc Storage.cacheClear.
Proof.
  intros st r st'. unfold Storage.cacheClear.
  repeat match goal with
         | |- context [match ?x with _ => _ end] => destruct x
         end; intros [= _ <-]; apply kc_refl.
Qed.

Lemma map_res_kc {A B} (f : A -> B) (m : M A) : inv_m kc m -> inv_m kc (Storage.map_res f m).
Proof. intros Hm. apply (inv_bind kc kc_trans); [exact Hm|intros a; apply (inv_ret kc kc_refl)]. Qed.

(** One operation, on any state whose cache object still has
    [Map.prototype] as prototype: only [write] changes the cache object,
    by setting one property. *)
Lemma op_cache (root : string) (o : Storage.op) (st : state) r (st' : state) :
  cache_proto st = None -> op_keeps_proto o = true -> Storage.run_op root o st = (r, st') ->
  cache_proto st' = None /\ cache_props st' = cache_after (cache_props st) o.
Proof.
  intros Hp Ho H.
  assert (Hk : forall m : M Storage.outcome, inv_m kc m -> m st = (r, st') ->
               cache_proto st' = None /\ cache_props st' = cache_props st).
  { intros m Hm E. destruct (Hm st r st' E) as [K1 K2]. split; congruence. }
  destruct o as [p|p v|p|p|p|p|]; simpl Storage.run_op in H; simpl cache_after.
  - exact (Hk _ (map_res_kc _ _ (read_kc root p)) H).
  - simpl in Ho. apply negb_true_iff, orb_false_iff in Ho as [Hs Hr].
    assert (Hw : Storage.write root p v st
                 = NoCache.write root p v (set_cache_props (<[p:=v]> (cache_props st)) st)).
    { unfold Storage.write. rewrite (bind_step _ _ _ _ _ (cache_assign_own p v st Hp Hs Hr)).
      reflexivity. }
    assert (Hm : inv_m kc (NoCache.write root p v)) by apply resp_kc, resp_nocache_write.
    unfold Storage.map_res, bind at 1 in H. rewrite Hw in H.
    destruct (NoCache.write root p v _) as [[u|e] st2] eqn:E;
      injection H as _ <-; destruct (Hm _ _ st2 E) as [K1 K2];
      split; simpl in *; congruence.
  - exact (Hk _ (map_res_kc _ _ (exists_kc root p)) H).
  - exact (Hk _ (map_res_kc _ _ (list_kc root p)) H).
  - exact (Hk _ (map_res_kc _ _ (remove_kc root p)) H).
  - exact (Hk _ (map_res_kc _ _ (makedir_kc root p)) H).
  - exact (Hk _ (map_res_kc _ _ cacheClear_kc) H).
Qed.

(** ** What queries narrow on and what they filter on *)

Section Filtering.
Variable c : Collection.collection.

(** The queried keys the candidate search looks at. *)
Let active (k : string) : bool :=
  negb (String.eqb k "id") &&
  match Collection.field_of c k with Some fd => Collection.index fd | None => false end.

Lemma probe_inactive (data : Collection.props) (cands : list jsval) (k : string) (st : state) :
  active k = false -> Collection.probe c data cands k st = (Ok cands, st).
Proof.
  unfold active, Collection.probe. destruct (String.eqb k "id"); [reflexivity|].
  simpl. destruct (Collection.field_of c k) as [fd|]; [|reflexivity].
  intros ->. reflexivity.
Qed.

Lemma gather_active (data : Collection.props) (ks : list string) (cands : list jsval) (st : state) :
  Collection.gather c data ks cands st = Collection.gather c data (List.filter active ks) cands st.
Proof.
  revert cands st. induction ks as [|k ks IH]; intros cands st; [reflexivity|].
  simpl. destruct (active k) eqn:E.
  - simpl. unfold bind. destruct (Collection.probe c data cands k st) as [[c'|e] st1]; [apply IH|reflexivity].
  - unfold bind at 1. rewrite (probe_inactive data cands k st E). apply IH.
Qed.

Lemma findOne_loop_matches (q : Collection.props) (cands : list jsval) (st st' : state) (o : jsval) :
  Collection.findOne_loop c q cands st = (Ok o, st') ->
  o = VUndef \/ Collection.every_match q o = Ok true.
Proof.
  revert st. induction cands as [|cand rest IH]; intros st H; simpl in H.
  - injection H as <- _. left. reflexivity.
  - unfold bind, lift in H. destruct (Collection.load c cand st) as [[obj|e] st1]; [|discriminate H].
    destruct (Collection.every_match q obj) as [[|]|e] eqn:E; [| |discriminate H].
    + injection H as <- _. right. exact E.
    + exact (IH _ H).
Qed.

Lemma findAll_loop_matches (q : Collection.props) (cands : list jsval) (st st' : state)
  (os : list jsval) :
  Collection.findAll_loop c q cands st = (Ok os, st') ->
  Forall (fun o => Collection.every_match q o = Ok true) os.
Proof.
  revert st st' os. induction cands as [|cand rest IH]; intros st st' os H; simpl in H.
  - injection H as <- _. constructor.
  - unfold bind, lift in H. destruct (Collection.load c cand st) as [[obj|e] st1]; [|discriminate H].
    destruct (Collection.every_match q obj) as [ok|e] eqn:E; [|discriminate H].
    destruct (Collection.findAll_loop c q rest st1) as [[rs|e] st2] eqn:E2; [|discriminate H].
    injection H as <- _. specialize (IH _ _ _ E2).
    destruct ok; [constructor; assumption|exact IH].
Qed.

End Filtering.

(** ** Sequential writes sharing a non-unique indexed value *)

Section Gathering.
Variables (c : Collection.collection) (rsegs : list string) (f h : string).
Variable fd : Collection.field.
Hypothesis Hwf : wf c rsegs.
Hypothesis Hf : f <> "id".
Hypothesis Hfd : Collection.field_of c f = Some fd.
Hypothesis Hi : Collection.index fd = true.
Hypothesis Hu : Collection.unique fd = false.

Let dfile (s : string) : string := render (rsegs ++ ["data"; Collection.name c; s]).
Let ifile (k h : string) : string := render (rsegs ++ ["index"; Collection.name c; k; h]).








End Gathering.

(** A sequence of operations, on a state whose cache object has
    [Map.prototype] as prototype. *)
Lemma ops_cache (root : string) (os : list Storage.op) (st : state) r (st' : state) :
  cache_proto st = None -> forallb op_keeps_proto os = true -> Storage.run_ops root os st = (r, st') ->
  cache_proto st' = None /\ cache_props st' = fold_left cache_after os (cache_props st).
Proof.
  revert st r. induction os as [|o os IH]; intros st r Hp Ho H.
  - injection H as _ <-. auto.
  - simpl in Ho. apply andb_prop in Ho as [Ho Hos]. simpl in H.
    destruct (Storage.run_op root o st) as [r1 st1] eqn:E1.
    destruct (op_cache root o st r1 st1 Hp Ho E1) as [P1 C1].
    destruct (Storage.run_ops root os st1) as [[rs|e] st2] eqn:E2;
      injection H as _ <-; destruct (IH st1 _ P1 Hos E2) as [P2 C2]; simpl;
      rewrite C2, C1; auto.
Qed.

(* ================================================================== *)
(** ** The claims *)

(** C1 (corrected).  Let the cache object be as the engine creates it
    (no earlier [storage.write] to the keys [has], [delete], [size] or
    [__proto__]).  After [d = await create(data)] and [await write(d)]
    succeed, [d.id] is a string [s], and when every property value of [d]
    is a string, a finite number, a boolean or [null], [get(s)] returns a
    fresh object with exactly the properties of [d], in the same order.
    ([NaN] and [Infinity] come back as [null]: see the counterexample.) *)
Theorem get_after_create_write (c : Collection.collection) (rsegs : list string) (l : loc)
  (data : Collection.props) (st0 : state) (doc : jsval) (d : Collection.props) (st1 st2 : state) :
  wf c rsegs -> cache_ok st0 ->
  Collection.create c l data st0 = (Ok doc, d, st1) ->
  Collection.write c l d st1 = (Ok tt, st2) ->
  forallb plain (map snd d) = true ->
  exists s, props_get d "id" = VStr s /\
    Collection.get c s st2
    = (Ok (VObj (next_loc st2) d), set_next_loc (N.succ (next_loc st2)) st2).
Proof.
  intros Hwf Hc0 Hcr Hw Hpl.
  pose proof (create_cro c l data st0) as Hcro. rewrite Hcr in Hcro.
  unfold Collection.create in Hcr.
  destruct (Collection.create_loop c (Collection.cschema c) data st0) as [[[u|e] d'] st'] eqn:EL;
    [|discriminate Hcr].
  injection Hcr as _ <- <-.
  destruct Hwf as (Hr & Hne & Hrs & Hn & Hks & Hnd & Hid).
  destruct (create_loop_id c _ _ _ _ _ _ Hnd Hid EL) as [n Hn'].
  destruct (uuid_simple n) as (s & Hs & Hss). rewrite Hs in Hn'.
  exists s. split; [exact Hn'|].
  assert (Hwf : wf c rsegs) by (repeat split; assumption).
  pose proof (cro_cache_ok _ _ Hcro Hc0) as Hc1.
  destruct (write_keeps c rsegs Hwf l d' s st' st2 _ Hn' Hss Hw) as [Hc2 _].
  pose proof (write_data c rsegs Hwf l d' s st' st2 Hn' Hss Hw) as Hdata.
  rewrite (to_json_plain_obj l d' Hpl) in Hdata.
  unfold Collection.get.
  pose proof (Hc2 Hc1) as Hc.
  rewrite (read_file _ _ _ _ _ Hc (data_path_prefix c rsegs s Hwf Hss) Hdata).
  rewrite (of_json_plain_obj d' _ Hpl). reflexivity.
Qed.

Lemma get_after_create_write_witness :
  exists s, props_get ann_doc "id" = VStr s /\
    Collection.get users s ann_st2
    = (Ok (VObj (next_loc ann_st2) ann_doc), set_next_loc (N.succ (next_loc ann_st2)) ann_st2).
Proof.
  apply (get_after_create_write users ["srv"; "db"] 1%N ann st_empty (VObj 1%N ann_doc)
           ann_doc ann_st1 ann_st2).
  - exact users_wf.
  - repeat split.
  - vm_compute. reflexivity.
  - vm_compute. reflexivity.
  - vm_compute. reflexivity.
Defined.

(** C1 counterexample: a document created with [score: NaN] and
    [age: Infinity] is read back by [get(d.id)] with [score: null] and
    [age: null], so it does not equal [d]. *)
Lemma get_after_create_write_nan :
  match create_write users 1%N [("email", VStr "a@x"); ("score", VNaN); ("age", VInf false)]
          st_empty with
  | Some (d, st2) =>
      d = [("email", VStr "a@x"); ("score", VNaN); ("age", VInf false); ("id", VStr "uuid-0")] /\
      fst (Collection.get users "uuid-0" st2)
      = Ok (VObj 0%N [("email", VStr "a@x"); ("score", VNull); ("age", VNull);
                      ("id", VStr "uuid-0")])
  | None => False
  end.
Proof. vm_compute. split; reflexivity. Qed.

(** C5 (confirmed).  [create] never changes durable storage: the files
    after the call are those before it, whatever its outcome. *)
Theorem create_keeps_files (c : Collection.collection) (l : loc) (data : Collection.props)
  (st : state) :
  files (Collection.create c l data st).2 = files st.
Proof.
  pose proof (create_cro c l data st) as H.
  destruct (Collection.create c l data st) as [[r d'] st']. exact (proj1 H).
Qed.











(** C8 (code bug).  The eviction check only counts and deletes [Map]
    entries, but [write] never makes one: it stores each value as a plain
    property of the [Map] object.  While no [write] targets [size] or
    [__proto__] (the prototype stays [Map.prototype]), after any sequence
    of operations the properties are exactly those every [write] of the
    sequence set, none ever removed, and the eviction check does nothing;
    so the values the cache holds grow with the number of distinct keys
    written, with no bound. *)
Theorem cache_props_unbounded (root : string) (os : list Storage.op) (st : state)
  r (st' : state) :
  cache_proto st = None -> forallb op_keeps_proto os = true -> Storage.run_ops root os st = (r, st') ->
  cache_proto st' = None /\ cache_props st' = fold_left cache_after os (cache_props st) /\
  Storage.cacheClear st' = (Ok tt, st').
Proof.
  intros Hp Ho H. destruct (ops_cache root os st r st' Hp Ho H) as [H1 H2].
  split; [exact H1|split; [exact H2|exact (storage_cacheClear_ok st' H1)]].
Qed.

(** 10001 writes of distinct keys followed by the eviction check leave
    10001 cached values. *)
Lemma cache_props_unbounded_witness :
  cache_proto st_empty = None /\ forallb op_keeps_proto (distinct_writes 10001) = true /\
  cache_proto (snd (Storage.run_ops "/srv/db" (distinct_writes 10001) st_empty)) = None /\
  size (cache_props (snd (Storage.run_ops "/srv/db" (distinct_writes 10001) st_empty))) = 10001 /\
  Storage.cacheClear (snd (Storage.run_ops "/srv/db" (distinct_writes 10001) st_empty))
  = (Ok tt, snd (Storage.run_ops "/srv/db" (distinct_writes 10001) st_empty)).
Proof.
  assert (Ho : forallb op_keeps_proto (distinct_writes 10001) = true) by (vm_compute; reflexivity).
  destruct (cache_props_unbounded "/srv/db" (distinct_writes 10001) st_empty _ _ eq_refl Ho
              (surjective_pairing _)) as (H1 & H2 & H3).
  split; [reflexivity|split; [exact Ho|split; [exact H1|split; [|exact H3]]]].
  rewrite H2. vm_compute. reflexivity.
Defined.

(** C4 (code bug).  [prefix] checks the resolved path with a string
    prefix test, not a path-segment test: from the root [/srv/db], the
    path [../db2/secret] resolves to [/srv/db2/secret], outside the root,
    yet [prefix] accepts it, [read] returns the file stored there and
    [write] replaces it. *)
Theorem sibling_path_escapes :
  Storage.prefix "/srv/db" "../db2/secret" = Ok "/srv/db2/secret" /\
  fst (Storage.read "/srv/db" "../db2/secret" st_sibling) = Ok (VStr "pw") /\
  files (snd (Storage.write "/srv/db" "../db2/secret" (VStr "x") st_sibling)) !! "/srv/db2/secret"
  = Some (FFile (JStr "x")).
Proof. vm_compute. repeat split. Qed.

(** C7 (corrected).  Queried keys other than [id] that the schema indexes
    are the only ones the candidate search looks at; but the final pass
    compares every queried key with [===]: each document [findAll]
    returns, and the document [findOne] returns (unless [undefined]), has
    every queried value, indexed or not. *)
Theorem query_filters_all_keys (c : Collection.collection) (q : Collection.props) (st : state) :
  Collection.candidates c q st
  = Collection.gather c q
      (List.filter (fun k => negb (String.eqb k "id") &&
                     match Collection.field_of c k with
                     | Some fd => Collection.index fd
                     | None => false
                     end) (Collection.keys q)) [] st /\
  (forall o st', Collection.findOne c q st = (Ok o, st') ->
     o = VUndef \/ Collection.every_match q o = Ok true) /\
  (forall os st', Collection.findAll c q st = (Ok os, st') ->
     Forall (fun o => Collection.every_match q o = Ok true) os).
Proof.
  split; [apply gather_active|]. split.
  - intros o st' H. unfold Collection.findOne, bind in H.
    destruct (Collection.candidates c q st) as [[cands|e] st1]; [|discriminate H].
    exact (findOne_loop_matches c q cands st1 st' o H).
  - intros os st' H. unfold Collection.findAll, bind in H.
    destruct (Collection.candidates c q st) as [[cands|e] st1]; [|discriminate H].
    exact (findAll_loop_matches c q cands st1 st' os H).
Qed.

(** C7 counterexample: [name] is indexed, [age] is not.  After writing
    [{name: "a", email: "a@x", age: 3}], the query [{name: "a"}] finds it,
    while [{name: "a", age: 2}], which agrees with it on its only indexed
    field, returns [undefined]: [age] is filtered on.  ([email], a unique
    field, is given a value: [pathsafe] of [undefined] throws.) *)
Lemma unindexed_key_filtered :
  match create_write users 1%N [("name", VStr "a"); ("email", VStr "a@x"); ("age", VNum 3)]
          st_empty with
  | Some (d, st2) =>
      fst (Collection.findOne users [("name", VStr "a")] st2)
      = Ok (VObj 2%N [("name", VStr "a"); ("email", VStr "a@x"); ("age", VNum 3);
                    ("id", VStr "uuid-0")]) /\
      fst (Collection.findOne users [("name", VStr "a"); ("age", VNum 2)] st2) = Ok VUndef
  | None => False
  end.
Proof. vm_compute. split; reflexivity. Qed.




(* ================================================================== *)
(** ** Further properties of the code *)


Lemma prefix_nonempty (root path p : string) : Storage.prefix root path = Ok p -> p <> "".
Proof.
  unfold Storage.prefix, Path.resolve. destruct (String.prefix _ _); [|discriminate].
  intros [= <-]. discriminate.
Qed.

Lemma cache_ok_has (st : state) : cache_ok st -> cache_method st "has" = None.
Proof. intros (Hp & Hh & _). unfold cache_method. rewrite Hh, Hp. reflexivity. Qed.

Lemma cache_has_method (st : state) : cache_method st "has" = None -> cache_has st = (Ok tt, st).
Proof. intros Hh. unfold cache_has, bind, gets. rewrite Hh. reflexivity. Qed.

Lemma sh_method (st st' : state) (m : string) : sh st st' -> cache_method st' m = cache_method st m.
Proof. intros (_ & Hp & Hq). unfold cache_method. rewrite Hp, Hq. reflexivity. Qed.

Lemma exists_present_m (root path p : string) (st : state) :
  cache_method st "has" = None -> Storage.prefix root path = Ok p -> files st !! p <> None ->
  Storage.exists_ root path st = (Ok true, st).
Proof.
  intros Hc Hp Hf. unfold Storage.exists_. rewrite (bind_step _ _ _ _ _ (cache_has_method st Hc)).
  unfold bind, lift, gets. rewrite Hp. unfold existsSync. destruct (files st !! p); [reflexivity|congruence].
Qed.

Lemma exists_absent_m (root path p : string) (st : state) :
  cache_method st "has" = None -> Storage.prefix root path = Ok p -> files st !! p = None ->
  Storage.exists_ root path st = (Ok false, st).
Proof.
  intros Hc Hp Hf. unfold Storage.exists_. rewrite (bind_step _ _ _ _ _ (cache_has_method st Hc)).
  unfold bind, lift, gets. rewrite Hp. unfold existsSync. rewrite Hf. reflexivity.
Qed.

Lemma read_none_m (root path p : string) (st : state) :
  cache_method st "has" = None -> Storage.prefix root path = Ok p -> files st !! p = None ->
  Storage.read root path st = (Ok VUndef, st).
Proof.
  intros Hc Hp Hf. unfold Storage.read. rewrite (bind_step _ _ _ _ _ (cache_has_method st Hc)).
  unfold bind, lift, gets. rewrite Hp. unfold existsSync. rewrite Hf. reflexivity.
Qed.

Lemma read_none (root path p : string) (st : state) :
  cache_ok st -> Storage.prefix root path = Ok p -> files st !! p = None ->
  Storage.read root path st = (Ok VUndef, st).
Proof. intros Hc. exact (read_none_m root path p st (cache_ok_has st Hc)). Qed.

(** A [storage.remove] that succeeds found [has] and [delete] to be the
    methods of [Map.prototype]. *)
Lemma remove_methods (root path : string) (st st' : state) :
  Storage.remove root path st = (Ok tt, st') ->
  cache_method st "has" = None /\ cache_method st "delete" = None.
Proof.
  intros H. unfold Storage.remove, bind at 1, gets in H.
  destruct (cache_method st "delete") eqn:Ed; unfold bind at 1, lift at 1 in H;
    destruct (Storage.prefix root path) as [p|e]; cbv [bind throw ret] in H; try discriminate H.
  unfold Storage.exists_, cache_has, gets in H. cbv [bind throw ret] in H.
  destruct (cache_method st "has"); [discriminate H|split; reflexivity].
Qed.

Lemma remove_gone_m (root path p : string) (st st' : state) :
  cache_method st "has" = None -> cache_method st "delete" = None ->
  Storage.prefix root path = Ok p ->
  Storage.remove root path st = (Ok tt, st') -> files st' !! p = None.
Proof.
  intros Hh Hd Hp H. unfold Storage.remove, bind at 1, gets in H. rewrite Hd in H.
  unfold bind at 1 in H. unfold lift at 1 in H. rewrite Hp in H. unfold bind at 1, ret at 1 in H.
  destruct (files st !! p) eqn:E.
  - rewrite (bind_step _ _ _ _ _ (exists_present_m _ _ _ _ Hh Hp ltac:(congruence))) in H.
    unfold bind, lift in H. exact (rm_rf_gone _ _ _ _ H).
  - rewrite (bind_step _ _ _ _ _ (exists_absent_m _ _ _ _ Hh Hp E)) in H.
    injection H as <-. exact E.
Qed.

Lemma split_render (L : list string) :
  L <> [] -> Forall (fun s => simple_seg s = true) L -> Path.split_slash (render L) = "" :: L.
Proof.
  intros Hne HF. rewrite render_cons, split_root, split_concat; [reflexivity|exact Hne|].
  eapply Forall_impl; [exact HF|]. intros s Hs. unfold simple_seg in Hs.
  now apply andb_prop in Hs as [_ ->].
Qed.

Lemma filter_simple (L : list string) :
  Forall (fun s => simple_seg s = true) L -> List.filter (fun a => negb (String.eqb a "")) L = L.
Proof.
  induction 1 as [|s L Hs _ IH]; [reflexivity|]. simpl. rewrite IH.
  unfold simple_seg in Hs. destruct (String.eqb s ""); [discriminate|reflexivity].
Qed.

Lemma mkdir_p_render (L : list string) :
  L <> [] -> Forall (fun s => simple_seg s = true) L -> mkdir_p (render L) = mkdir_chain (chain "" L).
Proof. intros Hne HF. unfold mkdir_p. rewrite split_render by assumption. simpl. now rewrite filter_simple. Qed.

Lemma chain_in (base : string) (L : list string) :
  L <> [] -> In (base +s+ "/" +s+ String.concat "/" L) (chain base L).
Proof.
  revert base. induction L as [|x [|y r] IH]; intros base Hne; [congruence| |].
  - simpl. left. reflexivity.
  - rewrite concat_cons2. simpl chain. right.
    specialize (IH (base +s+ "/" +s+ x) ltac:(discriminate)).
    rewrite !app_assoc_s in IH. exact IH.
Qed.

Lemma render_chain (L : list string) : L <> [] -> In (render L) (chain "" L).
Proof. intros Hne. rewrite render_cons. exact (chain_in "" L Hne). Qed.

Lemma mkdir_chain_keep (qs : list string) (st st' : state) r :
  mkdir_chain qs st = (r, st') -> forall q, files st !! q <> None -> files st' !! q = files st !! q.
Proof.
  revert st. induction qs as [|q0 qs IH]; intros st H q Hq; simpl in H.
  - injection H as _ <-. reflexivity.
  - destruct (files st !! q0) as [[j|]|] eqn:E.
    + injection H as _ <-. reflexivity.
    + exact (IH st H q Hq).
    + rewrite (IH _ H q); simpl.
      * apply lookup_insert_ne. congruence.
      * rewrite lookup_insert_ne by congruence. exact Hq.
Qed.

Lemma mkdir_chain_ok (qs : list string) (st st' : state) :
  mkdir_chain qs st = (Ok tt, st') -> Forall (fun q => files st' !! q = Some FDir) qs.
Proof.
  revert st. induction qs as [|q0 qs IH]; intros st H; simpl in H; [constructor|].
  destruct (files st !! q0) as [[j|]|] eqn:E.
  - discriminate H.
  - constructor; [|exact (IH st H)].
    rewrite (mkdir_chain_keep qs st st' _ H q0) by congruence. exact E.
  - constructor; [|exact (IH _ H)].
    rewrite (mkdir_chain_keep qs _ st' _ H q0); simpl; rewrite lookup_insert_eq; congruence.
Qed.

(** X1: with the cache object as [new Map] left it, [storage.write] of a plain value
    ([null], a boolean, a finite number or a string) at a path under the root other than
    [has], [delete], [size] and [__proto__] is read back unchanged by [storage.read],
    [storage.exists] then reports the path, no other file is touched, and the cache object
    keeps that shape. *)
Theorem storage_write_then_read (rsegs psegs : list string) (v : jsval) (st st' : state) :
  rsegs <> [] -> psegs <> [] ->
  Forall (fun s => simple_seg s = true) rsegs -> Forall (fun s => simple_seg s = true) psegs ->
  cache_ok st -> cache_key (String.concat "/" psegs) = false -> plain v = true ->
  Storage.write (render rsegs) (String.concat "/" psegs) v st = (Ok tt, st') ->
  Storage.read (render rsegs) (String.concat "/" psegs) st' = (Ok v, st') /\
  Storage.exists_ (render rsegs) (String.concat "/" psegs) st' = (Ok true, st') /\
  (forall q, q <> render (rsegs ++ psegs) -> ffile (files st') q = ffile (files st) q) /\
  cache_ok st'.
Proof.
  intros Hr Hp HFr HFp Hc Hk Hv H.
  pose proof (prefix_simple rsegs psegs Hr Hp HFr HFp) as Hpre.
  destruct (write_ok _ _ _ _ _ H) as (p & j & Hp' & Hj & Hf).
  rewrite Hpre in Hp'. injection Hp' as <-.
  rewrite (to_json_plain v Hv) in Hj. injection Hj as <-.
  assert (Hc' : cache_ok st').
  { refine (proj1 (proj2 (write_fr _ _ v "" Hk _ st _ st' H)) Hc).
    intros p E. exact (prefix_nonempty _ _ _ E). }
  split; [|split; [|split]].
  - rewrite (read_file _ _ _ st' _ Hc' Hpre Hf), of_json_plain by exact Hv.
    simpl. now rewrite state_eta.
  - apply (exists_present _ _ _ st' Hc' Hpre). unfold ffile in Hf.
    destruct (files st' !! _); congruence.
  - intros q Hq. refine (proj1 (write_fr _ _ v q Hk _ st _ st' H)).
    intros p E. rewrite Hpre in E. injection E as <-. congruence.
  - exact Hc'.
Qed.

(** X2: after [storage.remove] succeeds, [storage.exists] is false and [storage.read]
    gives [undefined] at that path; if the path existed, everything below it is gone too.
    *)
Theorem storage_remove_then_read (rsegs psegs : list string) (st st' : state) :
  rsegs <> [] -> psegs <> [] ->
  Forall (fun s => simple_seg s = true) rsegs -> Forall (fun s => simple_seg s = true) psegs ->
  Storage.remove (render rsegs) (String.concat "/" psegs) st = (Ok tt, st') ->
  Storage.exists_ (render rsegs) (String.concat "/" psegs) st' = (Ok false, st') /\
  Storage.read (render rsegs) (String.concat "/" psegs) st' = (Ok VUndef, st') /\
  (files st !! render (rsegs ++ psegs) <> None ->
   forall q, String.prefix (render (rsegs ++ psegs) +s+ "/") q = true -> files st' !! q = None).
Proof.
  intros Hr Hp HFr HFp H.
  pose proof (prefix_simple rsegs psegs Hr Hp HFr HFp) as Hpre.
  destruct (remove_methods _ _ _ _ H) as [Hh Hd].
  pose proof (remove_gone_m _ _ _ _ _ Hh Hd Hpre H) as Hg.
  assert (Hh' : cache_method st' "has" = None)
    by (rewrite (sh_method _ _ _ (remove_sh _ _ st _ st' H)); exact Hh).
  split; [|split].
  - exact (exists_absent_m _ _ _ st' Hh' Hpre Hg).
  - exact (read_none_m _ _ _ st' Hh' Hpre Hg).
  - intros Hin q Hq. unfold Storage.remove, bind at 1, gets in H. rewrite Hd in H.
    unfold bind at 1 in H. unfold lift at 1 in H. rewrite Hpre in H. unfold bind at 1, ret at 1 in H.
    rewrite (bind_step _ _ _ _ _ (exists_present_m _ _ _ _ Hh Hpre Hin)) in H.
    unfold bind, lift in H.
    unfold rm_rf, modify in H. apply (f_equal snd) in H. simpl in H. subst st'. simpl.
    apply map_lookup_filter_None. right. intros x _. simpl. rewrite render_cons in Hq. simpl in Hq.
    rewrite Hq, orb_true_r. simpl. intros Hx. inversion Hx.
Qed.

(** X3: after [storage.makedir] succeeds the path is a directory and existing entries are
    unchanged; with the cache object as [new Map] left it, [exists] then holds and [list]
    returns a listing. *)
Theorem storage_makedir_dir (rsegs psegs : list string) (st st' : state) :
  rsegs <> [] -> psegs <> [] ->
  Forall (fun s => simple_seg s = true) rsegs -> Forall (fun s => simple_seg s = true) psegs ->
  Storage.makedir (render rsegs) (String.concat "/" psegs) st = (Ok tt, st') ->
  files st' !! render (rsegs ++ psegs) = Some FDir /\
  (forall q, files st !! q <> None -> files st' !! q = files st !! q) /\
  (cache_ok st ->
   Storage.exists_ (render rsegs) (String.concat "/" psegs) st' = (Ok true, st') /\
   exists xs, Storage.list (render rsegs) (String.concat "/" psegs) st' = (Ok (Some xs), st')).
Proof.
  intros Hr Hp HFr HFp H.
  pose proof (prefix_simple rsegs psegs Hr Hp HFr HFp) as Hpre.
  assert (Hne : rsegs ++ psegs <> []) by (destruct rsegs; [congruence|discriminate]).
  assert (HF : Forall (fun s => simple_seg s = true) (rsegs ++ psegs)) by (apply Forall_app; auto).
  unfold Storage.makedir, bind, lift in H. rewrite Hpre, mkdir_p_render in H by assumption.
  assert (Hd : files st' !! render (rsegs ++ psegs) = Some FDir).
  { pose proof (mkdir_chain_ok _ _ _ H) as Hok. rewrite List.Forall_forall in Hok.
    apply Hok, render_chain, Hne. }
  split; [exact Hd|split]; [exact (mkdir_chain_keep _ _ _ _ H)|].
  intros Hc.
  pose proof (proj1 (proj2 (mkdir_chain_fr "" _ st _ st' H)) Hc) as Hc'.
  assert (Hex : Storage.exists_ (render rsegs) (String.concat "/" psegs) st' = (Ok true, st'))
    by (apply (exists_present _ _ _ st' Hc' Hpre); congruence).
  split; [exact Hex|].
  unfold Storage.list. rewrite (bind_step _ _ _ _ _ Hex). simpl.
  unfold bind, lift. rewrite Hpre. unfold readdir. rewrite Hd. eexists. reflexivity.
Qed.


Lemma gather_inactive (c : Collection.collection) (q : Collection.props) (ks : list string) (st : state) :
  Forall (fun k => k = "id" \/
                   match Collection.field_of c k with
                   | Some fd => Collection.index fd = false | None => True end) ks ->
  Collection.gather c q ks [] st = (Ok [], st).
Proof.
  intros HF. induction HF as [|k ks Hk _ IH]; [reflexivity|].
  simpl. unfold bind at 1. rewrite probe_inactive; [exact IH|].
  destruct Hk as [->|Hk]; [reflexivity|].
  destruct (String.eqb k "id"); [reflexivity|]. simpl.
  destruct (Collection.field_of c k); [exact Hk|reflexivity].
Qed.

Lemma findAll_absent (c : Collection.collection) (rsegs : list string) (st : state)
  (f h : string) (fd : Collection.field) (v : jsval) :
  wf c rsegs -> cache_ok st -> f <> "id" -> Collection.field_of c f = Some fd ->
  Collection.index fd = true -> pathsafe v = Some h ->
  files st !! render (rsegs ++ ["index"; Collection.name c; f; h]) = None ->
  Collection.findAll c [(f, v)] st = (Ok [], st).
Proof.
  intros Hwf Hc Hf Hfd Hi Hh Hfile.
  assert (Hcand : Collection.candidates c [(f, v)] st = (Ok [], st)).
  { unfold Collection.candidates. cbn [Collection.keys map fst Collection.gather].
    rewrite (bind_step _ _ _ _ _ (probe_absent c rsegs Hwf st [(f, v)] [] f h fd Hc Hf Hfd Hi
              ltac:(rewrite query1_get; exact Hh) Hfile)).
    reflexivity. }
  unfold Collection.findAll. rewrite (bind_step _ _ _ _ _ Hcand). reflexivity.
Qed.

Lemma get_none (c : Collection.collection) (rsegs : list string) (s : string) (st : state) :
  wf c rsegs -> simple_seg s = true -> cache_ok st ->
  files st !! render (rsegs ++ ["data"; Collection.name c; s]) = None ->
  Collection.get c s st = (Ok VUndef, st).
Proof.
  intros Hwf Hs Hc Hf. unfold Collection.get.
  exact (read_none _ _ _ st Hc (data_path_prefix c rsegs s Hwf Hs) Hf).
Qed.

Lemma all_tasks_each_ok (ts : list (M unit)) (st st' : state) :
  all_tasks ts st = (Ok tt, st') ->
  Forall (fun t => exists s1 s2, t s1 = (Ok tt, s2)) ts.
Proof.
  revert st. induction ts as [|t ts IH]; intros st H; [constructor|].
  destruct (all_tasks_cons_ok _ _ _ _ H) as (st1 & H1 & H2).
  constructor; [exists st, st1; exact H1|exact (IH _ H2)].
Qed.

(** X5: a query none of whose keys is an indexed schema field other than [id] finds
    nothing: [findAll] returns the empty list and [findOne] [undefined], without touching
    the state. *)
Theorem query_without_index (c : Collection.collection) (q : Collection.props) (st : state) :
  Forall (fun k => k = "id" \/
                   match Collection.field_of c k with
                   | Some fd => Collection.index fd = false | None => True end) (Collection.keys q) ->
  Collection.findAll c q st = (Ok [], st) /\ Collection.findOne c q st = (Ok VUndef, st).
Proof.
  intros HF. pose proof (gather_inactive c q _ st HF) as Hg.
  unfold Collection.findAll, Collection.findOne, Collection.candidates.
  rewrite !(bind_step _ _ _ _ _ Hg). split; reflexivity.
Qed.

(** X6: with the cache object as [new Map] left it, [get] of an id with no data file
    returns [undefined] and leaves the state unchanged. *)
Theorem get_missing (c : Collection.collection) (rsegs : list string) (s : string) (st : state) :
  wf c rsegs -> simple_seg s = true -> cache_ok st ->
  files st !! render (rsegs ++ ["data"; Collection.name c; s]) = None ->
  Collection.get c s st = (Ok VUndef, st).
Proof. exact (get_none c rsegs s st). Qed.

(** X7: after [delete(d)] succeeds, [get(d.id)] returns [undefined]. *)
Theorem delete_then_get (c : Collection.collection) (rsegs : list string) (d : Collection.props)
  (s : string) (st st' : state) :
  wf c rsegs -> props_get d "id" = VStr s -> simple_seg s = true ->
  Collection.delete c d st = (Ok tt, st') ->
  Collection.get c s st' = (Ok VUndef, st').
Proof.
  intros Hwf Hid Hs H. unfold Collection.delete in H. rewrite Hid in H.
  cbn [bind lift Collection.as_string] in H.
  destruct (all_tasks_cons_ok _ _ _ _ H) as (st1 & H1 & H2).
  pose proof (data_path_prefix c rsegs s Hwf Hs) as Hp.
  destruct (remove_methods _ _ _ _ H1) as [Hh Hd].
  pose proof (remove_gone_m _ _ _ _ _ Hh Hd Hp H1) as Hg1.
  pose proof (remove_sh _ _ st _ st1 H1) as Hsh1.
  assert (Hsh : sh st1 st').
  { revert H2. apply (inv_all_tasks sh sh_refl sh_trans). apply List.Forall_forall.
    intros t Ht. apply in_map_iff in Ht as (k & <- & _). apply delete_key_sh. }
  unfold Collection.get. refine (read_none_m _ _ _ st' _ Hp _).
  - rewrite (sh_method _ _ _ Hsh), (sh_method _ _ _ Hsh1). exact Hh.
  - exact (proj1 Hsh _ Hg1).
Qed.

(** X8: after [delete(d)] succeeds, [findAll] on an indexed non-id field of [d] with its
    value in [d] returns the empty list. *)
Theorem delete_then_findAll (c : Collection.collection) (rsegs : list string) (d : Collection.props)
  (f h : string) (fd : Collection.field) (st st' : state) :
  wf c rsegs -> cache_ok st -> NoDup (Collection.keys d) -> In f (Collection.keys d) ->
  f <> "id" -> Collection.field_of c f = Some fd -> Collection.index fd = true ->
  pathsafe (props_get d f) = Some h ->
  Collection.delete c d st = (Ok tt, st') ->
  Collection.findAll c [(f, props_get d f)] st' = (Ok [], st').
Proof.
  intros Hwf Hc Hnd Hin Hf Hfd Hi Hh H.
  destruct (delete_gone c rsegs d f h fd st st' Hwf Hc Hnd Hin Hf Hfd Hi Hh H) as [Hg Hc'].
  exact (findAll_absent c rsegs st' f h fd _ Hwf Hc' Hf Hfd Hi Hh Hg).
Qed.

(** X9: [write] of a document is rejected when one of its keys other than [id] is
    neither a schema key nor the name of a member of [Object.prototype], or is an indexed
    schema key holding [undefined]. *)
Theorem write_rejects_unindexable (c : Collection.collection) (l : loc)
  (d : Collection.props) (s k : string) (st st' : state) r :
  props_get d "id" = VStr s -> In k (Collection.keys d) -> k <> "id" ->
  (Collection.field_of c k = None /\ object_proto_member k = false \/
   exists fd, Collection.field_of c k = Some fd /\ Collection.index fd = true /\
              props_get d k = VUndef) ->
  Collection.write c l d st = (r, st') ->
  r <> Ok tt.
Proof.
  intros Hid Hk Hkid Hbad H. unfold Collection.write in H. rewrite Hid in H.
  cbn [bind lift Collection.as_string] in H.
  intros ->. apply all_tasks_each_ok in H. apply Forall_inv_tail in H.
  rewrite List.Forall_forall in H.
  destruct (H (Collection.write_key c d (VStr s) k)) as (s1 & s2 & Hw); [apply in_map; exact Hk|].
  unfold Collection.write_key in Hw. apply String.eqb_neq in Hkid. rewrite Hkid in Hw.
  unfold bind at 1, Collection.indexed_field in Hw.
  destruct Hbad as [[Hn Ho]|(fd & Hfd & Hi & Hu)].
  - rewrite Hn, Ho in Hw. discriminate Hw.
  - rewrite Hfd, Hi in Hw. cbv [ret bind lift_opt] in Hw. rewrite Hu in Hw. discriminate Hw.
Qed.




Lemma resolve_seed_le (key : string) (fd : Collection.field) (data : Collection.props)
  (st : state) r d1 st1 :
  Collection.resolve key fd data st = (r, d1, st1) -> seed st <= seed st1.
Proof.
  unfold Collection.resolve. destruct (_ && _).
  - destruct (Collection.default fd) as [|v|f]; [|destruct (truthy v)|];
      intros [= _ _ <-]; simpl; lia.
  - intros [= _ _ <-]. lia.
Qed.

Lemma create_loop_seed_le (c : Collection.collection) (fields : Collection.schema)
  (data : Collection.props) (st : state) r d st' :
  Collection.create_loop c fields data st = (r, d, st') -> seed st <= seed st'.
Proof.
  revert data st. induction fields as [|[key fd] rest IH]; intros data st H; simpl in H.
  - injection H as _ _ <-. lia.
  - destruct (String.eqb key "id").
    + destruct (Collection.default fd); try (injection H as _ _ <-; lia).
      apply IH in H. simpl in H. lia.
    + destruct (Collection.resolve key fd data st) as [[r1 d1] st1] eqn:ER.
      pose proof (resolve_seed_le _ _ _ _ _ _ _ ER) as E1.
      destruct r1 as [u|e]; [|injection H as _ _ <-; exact E1].
      destruct (Collection.unique fd); [|apply IH in H; lia].
      destruct (Collection.findOne c _ st1) as [r2 st2] eqn:EF.
      pose proof (proj2 (proj2 (proj2 (findOne_ro c _ st1 r2 st2 EF)))) as E2.
      destruct r2 as [found|e]; [destruct (truthy found)|];
        [injection H as _ _ <-; lia|apply IH in H; lia|injection H as _ _ <-; lia].
Qed.

(** The id of a successful [create] is the [randomUUID] drawn at some
    seed between the seed before the call and the seed after it. *)
Lemma create_loop_id_seed (c : Collection.collection) (fields : Collection.schema)
  (data : Collection.props) (st : state) u d st' :
  NoDup (map fst fields) -> Collection.schema_get fields "id" = Some Collection.id_field ->
  Collection.create_loop c fields data st = (Ok u, d, st') ->
  exists n, seed st <= n < seed st' /\ props_get d "id" = Collection.uuid_of n.
Proof.
  revert data st. induction fields as [|[key fd] rest IH]; intros data st Hnd Hid H;
    [discriminate Hid|].
  change (Collection.schema_get ((key, fd) :: rest) "id")
    with (if String.eqb "id" key then Some fd else Collection.schema_get rest "id") in Hid.
  simpl Collection.create_loop in H.
  apply NoDup_cons in Hnd as [Hnin Hnd].
  destruct (String.eqb_spec key "id") as [->|Hk].
  - try rewrite String.eqb_refl in Hid. injection Hid as ->. simpl in H.
    assert (Hn : ~ In "id" (map fst rest)) by (intros Hi; apply Hnin, list_elem_of_In, Hi).
    exists (seed st). split.
    + pose proof (create_loop_seed_le c _ _ _ _ _ _ H) as E. simpl in E. lia.
    + rewrite (create_loop_noid c _ _ _ _ _ _ Hn H). apply props_get_set_same.
  - rewrite (proj2 (String.eqb_neq "id" key) (not_eq_sym Hk)) in Hid.
    destruct (Collection.resolve key fd data st) as [[r1 d1] st1] eqn:ER.
    pose proof (resolve_seed_le _ _ _ _ _ _ _ ER) as E1.
    destruct r1 as [u1|e]; [|discriminate H].
    destruct (Collection.unique fd).
    + destruct (Collection.findOne c _ st1) as [r2 st2] eqn:EF.
      pose proof (proj2 (proj2 (proj2 (findOne_ro c _ st1 r2 st2 EF)))) as E2.
      destruct r2 as [found|e]; [|discriminate H].
      destruct (truthy found); [discriminate H|].
      destruct (IH _ _ Hnd Hid H) as (n & Hn & Hd). exists n. split; [lia|exact Hd].
    + destruct (IH _ _ Hnd Hid H) as (n & Hn & Hd). exists n. split; [lia|exact Hd].
Qed.

(** X12: a successful [create] returns the mutated input object, whose [id] is the
    [randomUUID] of a seed drawn during the call, whatever id the caller supplied. *)
Theorem create_assigns_id (c : Collection.collection) (rsegs : list string) (l : loc)
  (data : Collection.props) (st : state) (o : jsval) (d : Collection.props) (st' : state) :
  wf c rsegs -> Collection.create c l data st = (Ok o, d, st') ->
  o = VObj l d /\ exists n, seed st <= n < seed st' /\ props_get d "id" = Collection.uuid_of n.
Proof.
  intros (_ & _ & _ & _ & _ & Hnd & Hid) H. unfold Collection.create in H.
  destruct (Collection.create_loop c (Collection.cschema c) data st) as [[[u|e] d1] st1] eqn:E;
    [|discriminate H].
  injection H as <- <- <-. split; [reflexivity|].
  exact (create_loop_id_seed c _ data st u d1 st1 Hnd Hid E).
Qed.

(** X13: [create] fails with the missing-required error when a required non-id field has a
    falsy value [data[k]] and no default or a falsy constant default. *)
Theorem create_missing_required (c : Collection.collection) (pre post : Collection.schema)
  (k : string) (fd : Collection.field) (l : loc) (data : Collection.props) (st : state)
  u (d1 : Collection.props) (st1 : state) :
  Collection.cschema c = pre ++ (k, fd) :: post ->
  Collection.create_loop c pre data st = (Ok u, d1, st1) ->
  k <> "id" -> Collection.required fd = true -> Collection.member_truthy d1 k = false ->
  (Collection.default fd = Collection.DNone \/
   exists v, Collection.default fd = Collection.DConst v /\ truthy v = false) ->
  Collection.create c l data st = (Err MissingRequiredFieldError, d1, st1).
Proof.
  intros Hs Hpre Hk Hreq Htr Hdef. unfold Collection.create.
  rewrite Hs, create_loop_app, Hpre. cbn [Collection.create_loop].
  apply String.eqb_neq in Hk. rewrite Hk. unfold Collection.resolve.
  rewrite Hreq, Htr. simpl.
  destruct Hdef as [->|(v & -> & Hv)]; [reflexivity|]. rewrite Hv. reflexivity.
Qed.

Lemma join_render (rsegs psegs : list string) :
  rsegs <> [] -> psegs <> [] ->
  Forall (fun s => simple_seg s = true) rsegs -> Forall (fun s => simple_seg s = true) psegs ->
  Path.join [render rsegs; String.concat "/" psegs] = render (rsegs ++ psegs).
Proof.
  intros Hr Hp HFr HFp.
  assert (HF : Forall (fun s => simple_seg s = true) (rsegs ++ psegs))
    by (apply Forall_app; auto).
  unfold Path.join. rewrite filter_nonempty.
  2:{ constructor; [discriminate|]. constructor; [|constructor].
      apply concat_nonempty; [exact Hp|now apply Forall_simple_nonempty]. }
  change (String.concat "/" [render rsegs; String.concat "/" psegs])
    with (render rsegs +s+ String "/" (String.concat "/" psegs)).
  rewrite <- render_app by assumption.
  rewrite render_cons. cbn [String.eqb]. rewrite <- render_cons.
  now apply normalize_render; [destruct rsegs|].
Qed.

Lemma dirname_render (L : list string) (x : string) :
  L <> [] -> Forall (fun s => simple_seg s = true) (L ++ [x]) ->
  Path.dirname (render (L ++ [x])) = render L.
Proof.
  intros Hne HF. unfold Path.dirname.
  rewrite split_render by (auto; destruct L; discriminate).
  replace (rev ("" :: L ++ [x])) with (x :: (rev L ++ [""]))
    by (cbn [rev]; rewrite rev_unit; reflexivity).
  cbv iota beta. rewrite rev_app_distr, rev_involutive.
  destruct L as [|y r]; [congruence|].
  change (String.concat "/" ([""] ++ y :: r)) with (render (y :: r)).
  rewrite render_cons. reflexivity.
Qed.

Lemma mkdir_ok (p : string) (st st' : state) :
  PlexDB.mkdir p st = (Ok tt, st') ->
  files st !! p = None /\ files st' = <[p := FDir]> (files st).
Proof.
  unfold PlexDB.mkdir. destruct (files st !! p); [discriminate|].
  destruct (files st !! Path.dirname p) as [[j|]|]; try discriminate.
  intros [= <-]. split; reflexivity.
Qed.

Lemma write_file_ok (p : string) (v : jsval) (st st' : state) :
  PlexDB.write_file p v st = (Ok tt, st') -> writeFile p v st = (Ok tt, st').
Proof. unfold PlexDB.write_file. destruct (files st !! Path.dirname p) as [[j|]|]; congruence. Qed.

Lemma plexmeta_join (segs : list string) (x : string) :
  segs <> [] -> Forall (fun s => simple_seg s = true) segs -> simple_seg x = true ->
  Path.join [render segs; x] = render (segs ++ [x]).
Proof.
  intros Hne HF Hx. change x with (String.concat "/" [x]) at 1.
  apply join_render; auto.
Qed.

(** X14: [queryAll] on a collection whose data folder does not exist fails with a
    TypeError and leaves the state unchanged. *)
Theorem queryAll_missing_data (c : Collection.collection) (rsegs : list string)
  (task : jsval -> M jsval) (st : state) :
  wf c rsegs ->
  files st !! render (rsegs ++ ["data"; Collection.name c]) = None ->
  Collection.queryAll c task st = (Err TypeError, st).
Proof.
  intros Hwf Hf. destruct Hwf as (Hr & Hne & HFr & Hn & _).
  assert (HF : Forall (fun s => simple_seg s = true) ["data"; Collection.name c])
    by (repeat constructor; auto).
  assert (Hp : Storage.prefix (Collection.root c) (Path.join ["data"; Collection.name c])
               = Ok (render (rsegs ++ ["data"; Collection.name c]))).
  { rewrite join_simple by (auto; discriminate). rewrite Hr.
    apply prefix_simple; auto; discriminate. }
  unfold Collection.queryAll, Storage.list.
  destruct (cache_method st "has") eqn:Hc.
  - cbv [bind Storage.exists_ cache_has gets]. rewrite Hc. reflexivity.
  - rewrite (bind_step _ _ _ _ _ (bind_step _ _ _ _ _ (exists_absent_m _ _ _ st Hc Hp Hf))).
    reflexivity.
Qed.

(** X15: after [autosave] writes a truthy meta, opening the database parses back the JSON
    of that meta. *)
Theorem autosave_then_open (rsegs : list string) (meta : jsval) (st st' : state) :
  rsegs <> [] -> Forall (fun s => simple_seg s = true) rsegs -> truthy meta = true ->
  PlexDB.autosave (render rsegs) meta st = (Ok tt, st') ->
  exists j, to_json meta = Some j /\
    PlexDB.open_db (render rsegs) st'
    = (Ok (render rsegs, fst (of_json j (next_loc st'))),
       set_next_loc (snd (of_json j (next_loc st'))) st').
Proof.
  intros Hne HF Htr H. unfold PlexDB.autosave in H.
  destruct (negb (String.eqb (render rsegs) "") && truthy meta) eqn:E.
  2:{ rewrite Htr, andb_true_r, render_cons in E. simpl in E. discriminate E. }
  change (Path.join [".plexmeta"]) with (String.concat "/" [".plexmeta"]) in H.
  destruct (write_ok _ _ _ _ _ H) as (p & j & Hp & Hj & Hf).
  rewrite prefix_simple in Hp by (auto; try discriminate; repeat constructor). injection Hp as <-.
  exists j. split; [exact Hj|].
  unfold PlexDB.open_db. rewrite resolve_render, plexmeta_join by (auto; reflexivity).
  unfold bind, readFile. unfold ffile in Hf.
  destruct (files st' !! render (rsegs ++ [".plexmeta"])) as [[j'|]|]; [|discriminate Hf|discriminate Hf].
  injection Hf as ->. unfold parse. destruct (of_json j (next_loc st')). reflexivity.
Qed.

Ltac seg_neq := intros ?E; injection E; discriminate.

(** X16: [createNew] on a fresh path creates the [index] and [data] folders and an empty
    [.plexmeta] that the constructor then opens. *)
Theorem createNew_fresh (segs : list string) (st st' : state) :
  segs <> [] -> Forall (fun s => simple_seg s = true) segs ->
  PlexDB.createNew (render segs) st = (Ok tt, st') ->
  ffile (files st') (render (segs ++ [".plexmeta"]))
    = Some (JObj [("collections", JArr []); ("indexes", JObj []); ("name", JStr "db0")]) /\
  files st' !! render (segs ++ ["index"]) = Some FDir /\
  files st' !! render (segs ++ ["data"]) = Some FDir /\
  exists l1 l2 l3 st2,
    PlexDB.open_db (render segs) st'
    = (Ok (render segs, VObj l1 [("collections", VArr l2 []); ("indexes", VObj l3 []);
                                  ("name", VStr "db0")]), st2).
Proof.
  intros Hne HF H. unfold PlexDB.createNew in H.
  apply bind_ok in H as (isdir & st1 & _ & H).
  destruct isdir; cbn [negb] in H; [|discriminate H].
  apply bind_ok in H as (e & st2 & _ & H).
  apply bind_ok in H as (u & st3 & _ & H).
  apply bind_ok in H as (meta & st4 & Hfm & H).
  unfold PlexDB.fresh_meta in Hfm. injection Hfm as <- <-.
  rewrite !plexmeta_join in H by (auto; reflexivity).
  apply all_tasks_cons_ok in H as (s5 & H5 & H).
  apply all_tasks_cons_ok in H as (s6 & H6 & H).
  apply all_tasks_cons_ok in H as (s7 & H7 & H).
  injection H as <-.
  apply write_file_ok, writeFile_ok in H5 as (j & Hj & Hf5).
  simpl in Hj. injection Hj as <-.
  apply mkdir_ok in H6 as [_ E6]. apply mkdir_ok in H7 as [_ E7].
  assert (HFx : forall x, simple_seg x = true -> Forall (fun s => simple_seg s = true) (segs ++ [x]))
    by (intros x Hx; apply Forall_app; split; [exact HF|repeat constructor; exact Hx]).
  assert (Nid : render (segs ++ ["data"]) <> render (segs ++ ["index"]))
    by (apply render_seg_neq; auto; seg_neq).
  assert (Ndp : render (segs ++ ["data"]) <> render (segs ++ [".plexmeta"]))
    by (apply render_seg_neq; auto; seg_neq).
  assert (Nip : render (segs ++ ["index"]) <> render (segs ++ [".plexmeta"]))
    by (apply render_seg_neq; auto; seg_neq).
  assert (Hp : files s7 !! render (segs ++ [".plexmeta"])
               = Some (FFile (JObj [("collections", JArr []); ("indexes", JObj []); ("name", JStr "db0")]))).
  { rewrite E7, lookup_insert_ne by congruence. rewrite E6, lookup_insert_ne by congruence.
    unfold ffile in Hf5. destruct (files s5 !! _) as [[j|]|]; congruence. }
  split; [unfold ffile; rewrite Hp; reflexivity|].
  split; [rewrite E7, lookup_insert_ne by congruence; rewrite E6; apply lookup_insert_eq|].
  split; [rewrite E7; apply lookup_insert_eq|].
  unfold PlexDB.open_db. rewrite resolve_render, plexmeta_join by (auto; reflexivity).
  unfold bind, readFile. rewrite Hp. unfold parse. simpl. do 4 eexists. reflexivity.
Qed.

(** X17: [createNew] over an existing database fails with an IOError, because [index]
    already exists. *)
Theorem createNew_existing (segs : list string) (st st' : state) r :
  segs <> [] -> Forall (fun s => simple_seg s = true) segs ->
  files st !! Path.dirname (render segs) = Some FDir ->
  files st !! render segs = Some FDir ->
  files st !! render (segs ++ ["index"]) <> None ->
  files st !! render (segs ++ [".plexmeta"]) <> Some FDir ->
  PlexDB.createNew (render segs) st = (r, st') ->
  r = Err IOError.
Proof.
  intros Hne HF Hpar Hdir Hidx Hpm H. unfold PlexDB.createNew in H.
  assert (Hst : PlexDB.stat_is_dir (Path.dirname (render segs)) st = (Ok true, st))
    by (unfold PlexDB.stat_is_dir; rewrite Hpar; reflexivity).
  rewrite (bind_step _ _ _ _ _ Hst) in H. cbn [negb] in H.
  assert (Hex : gets (fun st => existsSync (files st) (render segs)) st = (Ok true, st))
    by (unfold gets, existsSync; rewrite Hdir; reflexivity).
  rewrite (bind_step _ _ _ _ _ Hex) in H. cbv iota in H.
  rewrite (bind_step _ _ _ _ _ (eq_refl : ret tt st = (Ok tt, st))) in H.
  unfold bind at 1, PlexDB.fresh_meta in H.
  rewrite !plexmeta_join in H by (auto; reflexivity).
  set (P := render (segs ++ [".plexmeta"])) in *.
  set (st3 := set_next_loc _ st) in H.
  set (m0 := JObj [("collections", JArr []); ("indexes", JObj []); ("name", JStr "db0")]).
  assert (HFx : forall x, simple_seg x = true -> Forall (fun s => simple_seg s = true) (segs ++ [x]))
    by (intros x Hx; apply Forall_app; split; [exact HF|repeat constructor; exact Hx]).
  assert (Hw : PlexDB.write_file P (VObj (next_loc st)
                 [("collections", VArr (N.succ (next_loc st)) []);
                  ("indexes", VObj (N.succ (N.succ (next_loc st))) []); ("name", VStr "db0")]) st3
               = (Ok tt, set_files (<[P := FFile m0]> (files st3)) st3)).
  { unfold PlexDB.write_file. subst P. rewrite dirname_render by (auto; reflexivity).
    simpl files. rewrite Hdir. unfold writeFile. simpl to_json. cbv iota.
    destruct (files st !! render (segs ++ [".plexmeta"])) as [[j|]|] eqn:E; simpl files;
      rewrite E; [reflexivity|congruence|reflexivity]. }
  cbn [all_tasks] in H. rewrite Hw in H.
  assert (Hi : PlexDB.mkdir (render (segs ++ ["index"])) (set_files (<[P := FFile m0]> (files st3)) st3)
               = (Err IOError, set_files (<[P := FFile m0]> (files st3)) st3)).
  { unfold PlexDB.mkdir. simpl files. rewrite lookup_insert_ne.
    - destruct (files st !! render (segs ++ ["index"])); [reflexivity|congruence].
    - subst P. apply render_seg_neq; auto; seg_neq. }
  rewrite Hi in H. injection H as <- _. reflexivity.
Qed.

Lemma makedir_keep (root path : string) (st st' : state) r :
  Storage.makedir root path st = (r, st') ->
  forall q, files st !! q <> None -> files st' !! q = files st !! q.
Proof.
  unfold Storage.makedir, bind, lift. destruct (Storage.prefix root path) as [p|e].
  - apply mkdir_chain_keep.
  - intros [= _ <-]. reflexivity.
Qed.

Lemma makedirs_keep (root : string) (dirs : list string) (st st' : state) r :
  all_tasks (map (Storage.makedir root) dirs) st = (r, st') ->
  forall q, files st !! q = Some FDir -> files st' !! q = Some FDir.
Proof.
  intros H.
  refine (inv_all_tasks (fun a b => forall q, files a !! q = Some FDir -> files b !! q = Some FDir)
            (fun a q Hq => Hq) (fun a b d Hab Hbd q Hq => Hbd q (Hab q Hq)) _ _ st r st' H).
  apply List.Forall_forall. intros t Ht. apply in_map_iff in Ht as (p & <- & _).
    intros a ra b Hab q Hq. rewrite (makedir_keep _ _ _ _ _ Hab q) by congruence. exact Hq.
Qed.

(** The folders [mkdir -p] of [render L] passes through are the [render M]
    of the nonempty prefixes [M] of [L]. *)
Lemma chain_prefix (base : string) (L : list string) (q : string) :
  In q (chain base L) ->
  exists M, M <> [] /\ M `prefix_of` L /\ q = base +s+ "/" +s+ String.concat "/" M.
Proof.
  revert base. induction L as [|x r IH]; intros base Hq; [destruct Hq|].
  simpl in Hq. destruct Hq as [<-|Hq].
  - exists [x]. split; [discriminate|]. split; [exists r; reflexivity|reflexivity].
  - destruct (IH _ Hq) as (M & HM & Hpre & ->). exists (x :: M). split; [discriminate|].
    split; [apply prefix_cons; exact Hpre|].
    destruct M as [|y M]; [congruence|]. rewrite concat_cons2, !app_assoc_s. reflexivity.
Qed.

Lemma mkdir_chain_files (qs : list string) (st st' : state) r :
  mkdir_chain qs st = (r, st') ->
  forall q j, files st' !! q = Some (FFile j) -> files st !! q = Some (FFile j).
Proof.
  revert st. induction qs as [|q0 qs IH]; intros st H q j Hq; simpl in H.
  - injection H as _ <-. exact Hq.
  - destruct (files st !! q0) as [[j0|]|] eqn:E.
    + injection H as _ <-. exact Hq.
    + exact (IH st H q j Hq).
    + pose proof (IH _ H q j Hq) as Hq'. simpl in Hq'.
      destruct (String.eq_dec q0 q) as [->|Hne].
      * rewrite lookup_insert_eq in Hq'. discriminate Hq'.
      * rewrite lookup_insert_ne in Hq' by exact Hne. exact Hq'.
Qed.

Lemma mkdir_chain_nofile (qs : list string) (st st' : state) r :
  mkdir_chain qs st = (r, st') ->
  (forall q j, In q qs -> files st !! q <> Some (FFile j)) -> r = Ok tt.
Proof.
  revert st. induction qs as [|q0 qs IH]; intros st H Hn; simpl in H.
  - injection H as <- _. reflexivity.
  - destruct (files st !! q0) as [[j0|]|] eqn:E.
    + exfalso. exact (Hn q0 j0 (or_introl eq_refl) E).
    + apply (IH st H). intros q j Hq. exact (Hn q j (or_intror Hq)).
    + apply (IH _ H). intros q j Hq. simpl. destruct (String.eq_dec q0 q) as [->|Hne].
      * rewrite lookup_insert_eq. discriminate.
      * rewrite lookup_insert_ne by exact Hne. exact (Hn q j (or_intror Hq)).
Qed.

Lemma makedir_files (root path : string) (st st' : state) r :
  Storage.makedir root path st = (r, st') ->
  forall q j, files st' !! q = Some (FFile j) -> files st !! q = Some (FFile j).
Proof.
  unfold Storage.makedir, bind, lift. destruct (Storage.prefix root path) as [p|e].
  - apply mkdir_chain_files.
  - intros [= _ <-]. auto.
Qed.

(** Each [makedir] of a batch started together makes its folder when no
    file is on the way, whatever the other ones do. *)
Lemma makedirs_dir (root : string) (dirs : list string) (st st' : state) r (p : string)
  (L : list string) :
  all_tasks (map (Storage.makedir root) dirs) st = (r, st') -> In p dirs ->
  L <> [] -> Forall (fun s => simple_seg s = true) L ->
  Storage.prefix root p = Ok (render L) -> no_file_on (files st) L ->
  files st' !! render L = Some FDir.
Proof.
  revert st r. induction dirs as [|p0 dirs IH]; intros st r H Hin Hne HF Hp Hn; [destruct Hin|].
  cbn [map all_tasks] in H.
  destruct (Storage.makedir root p0 st) as [r1 st1] eqn:E1.
  assert (H2 : exists r2, all_tasks (map (Storage.makedir root) dirs) st1 = (r2, st')).
  { destruct r1; [eexists; exact H|].
    destruct (all_tasks _ st1) as [r2 s2]. injection H as _ <-. eexists; reflexivity. }
  destruct H2 as (r2 & H2).
  destruct Hin as [<-|Hin].
  - apply (makedirs_keep root dirs st1 st' r2 H2).
    unfold Storage.makedir, bind, lift in E1. rewrite Hp, mkdir_p_render in E1 by assumption.
    assert (Hr1 : r1 = Ok tt).
    { apply (mkdir_chain_nofile _ _ _ _ E1). intros q j Hq.
      destruct (chain_prefix "" L q Hq) as (M & HM & Hpre & ->). exact (Hn M j HM Hpre). }
    subst r1. pose proof (mkdir_chain_ok _ _ _ E1) as Hok. rewrite List.Forall_forall in Hok.
    apply Hok, render_chain, Hne.
  - apply (IH st1 r2 H2 Hin Hne HF Hp). intros M j HM Hpre Hf.
    exact (Hn M j HM Hpre (makedir_files _ _ _ _ _ E1 _ _ Hf)).
Qed.

Lemma with_id_in (s : Collection.schema) (k : string) (fd : Collection.field) :
  In (k, fd) s -> k <> "id" -> In (k, fd) (Collection.with_id s).
Proof.
  unfold Collection.with_id. induction s as [|[k' f'] s IH]; [intros []|].
  cbn [Collection.schema_set]. intros Hin Hk. destruct (String.eqb_spec "id" k') as [<-|_].
  - destruct Hin as [E|Hin]; [injection E as <- _; congruence|right; exact Hin].
  - destruct Hin as [E|Hin]; [left; exact E|right; exact (IH Hin Hk)].
Qed.

Lemma with_id_simple (s : Collection.schema) :
  Forall (fun kf => simple_seg kf.1 = true) s ->
  Forall (fun kf => simple_seg kf.1 = true) (Collection.with_id s).
Proof.
  unfold Collection.with_id. induction s as [|[k' f'] s IH]; intros HF; cbn [Collection.schema_set].
  - repeat constructor.
  - inversion HF as [|? ? Hk Hs]; subst.
    destruct (String.eqb "id" k'); constructor; auto.
Qed.

(** X18: the [Collection] constructor creates [data/name], [index/name] and
    [index/name/key] for every indexed non-id key of the schema, each one whenever no file
    sits at that folder or at one of its ancestors. *)
Theorem construct_dirs (rsegs : list string) (nm : string) (s : Collection.schema)
  (st : state) (c : Collection.collection) (st' : state) :
  rsegs <> [] -> Forall (fun x => simple_seg x = true) rsegs -> simple_seg nm = true ->
  Forall (fun kf => simple_seg kf.1 = true) s ->
  Collection.construct (render rsegs) nm s st = (Ok c, st') ->
  (no_file_on (files st) (rsegs ++ ["data"; nm]) ->
   files st' !! render (rsegs ++ ["data"; nm]) = Some FDir) /\
  (no_file_on (files st) (rsegs ++ ["index"; nm]) ->
   files st' !! render (rsegs ++ ["index"; nm]) = Some FDir) /\
  (forall k fd, In (k, fd) s -> k <> "id" -> Collection.index fd = true ->
   no_file_on (files st) (rsegs ++ ["index"; nm; k]) ->
   files st' !! render (rsegs ++ ["index"; nm; k]) = Some FDir).
Proof.
  intros Hne HFr Hnm Hs H.
  set (c0 := Collection.mkCollection (render rsegs) nm (Collection.with_id s)).
  assert (Hst : st' = snd (all_tasks (map (Storage.makedir (render rsegs)) (Collection.ctor_dirs c0)) st))
    by (unfold Collection.construct in H; injection H as _ E'; symmetry; exact E').
  destruct (all_tasks (map (Storage.makedir (render rsegs)) (Collection.ctor_dirs c0)) st)
    as [r0 s0] eqn:E.
  simpl snd in Hst. subst s0.
  assert (Hpre : forall L, L <> [] -> Forall (fun x => simple_seg x = true) L ->
                 Storage.prefix (render rsegs) (Path.join L) = Ok (render (rsegs ++ L))).
  { intros L HL HFL. rewrite join_simple by assumption. now apply prefix_simple. }
  assert (Hget : forall L, L <> [] -> Forall (fun x => simple_seg x = true) L ->
                 In (Path.join L) (Collection.ctor_dirs c0) ->
                 no_file_on (files st) (rsegs ++ L) ->
                 files st' !! render (rsegs ++ L) = Some FDir).
  { intros L HL HFL Hin Hn. apply (makedirs_dir _ _ _ _ _ _ _ E Hin);
      [destruct rsegs; [congruence|discriminate]|apply Forall_app; auto|now apply Hpre|exact Hn]. }
  split; [|split].
  - apply Hget; [discriminate|repeat constructor; auto|left; reflexivity].
  - apply Hget; [discriminate|repeat constructor; auto|right; left; reflexivity].
  - intros k fd Hin Hk Hi. pose proof (with_id_in s k fd Hin Hk) as Hin'.
    assert (Hks : simple_seg k = true)
      by (rewrite List.Forall_forall in Hs; exact (Hs _ Hin)).
    apply Hget; [discriminate|repeat constructor; auto|].
    right; right. apply in_map_iff. exists (k, fd). split; [reflexivity|].
    apply filter_In. split; [exact Hin'|]. simpl. apply String.eqb_neq in Hk. now rewrite Hk, Hi.
Qed.

Lemma storage_write_then_read_witness :
  let st' := snd (Storage.write "/srv/db" "data/i1" (VStr "x") st_empty) in
  Storage.read "/srv/db" "data/i1" st' = (Ok (VStr "x"), st') /\
  Storage.exists_ "/srv/db" "data/i1" st' = (Ok true, st') /\
  (forall q, q <> "/srv/db/data/i1" -> ffile (files st') q = ffile (files st_empty) q) /\
  cache_ok st'.
Proof.
  intros st'.
  apply (storage_write_then_read ["srv"; "db"] ["data"; "i1"] (VStr "x") st_empty st').
  all: first [discriminate | (vm_compute; reflexivity) | (progress unfold cache_ok; repeat split) | repeat constructor].
Defined.

Lemma storage_remove_then_read_witness :
  let st1 := snd (Storage.write "/srv/db" "data/i1" (VStr "x") st_empty) in
  let st2 := snd (Storage.remove "/srv/db" "data" st1) in
  Storage.exists_ "/srv/db" "data" st2 = (Ok false, st2) /\
  Storage.read "/srv/db" "data" st2 = (Ok VUndef, st2) /\
  (files st1 !! "/srv/db/data" <> None ->
   forall q, String.prefix "/srv/db/data/" q = true -> files st2 !! q = None).
Proof.
  intros st1 st2.
  apply (storage_remove_then_read ["srv"; "db"] ["data"] st1 st2).
  all: first [discriminate | (vm_compute; reflexivity) | repeat constructor].
Defined.

Lemma storage_makedir_dir_witness :
  let st' := snd (Storage.makedir "/srv/db" "index/users" st_sibling) in
  files st' !! "/srv/db/index/users" = Some FDir /\
  (forall q, files st_sibling !! q <> None -> files st' !! q = files st_sibling !! q) /\
  (cache_ok st_sibling ->
   Storage.exists_ "/srv/db" "index/users" st' = (Ok true, st') /\
   exists xs, Storage.list "/srv/db" "index/users" st' = (Ok (Some xs), st')).
Proof.
  intros st'.
  apply (storage_makedir_dir ["srv"; "db"] ["index"; "users"] st_sibling st').
  all: first [discriminate | (vm_compute; reflexivity) | repeat constructor].
Defined.


Lemma query_without_index_witness :
  let st := snd (write_all users (two_users (VStr "ann")) st_empty) in
  Collection.findAll users [("id", VStr "i1"); ("age", VNum 3)] st = (Ok [], st) /\
  Collection.findOne users [("id", VStr "i1"); ("age", VNum 3)] st = (Ok VUndef, st).
Proof.
  intros st. apply (query_without_index users [("id", VStr "i1"); ("age", VNum 3)] st).
  constructor; [left; reflexivity|]. constructor; [right; vm_compute; reflexivity|constructor].
Defined.

Lemma get_missing_witness :
  let st := snd (write_all users (two_users (VStr "ann")) st_empty) in
  Collection.get users "i9" st = (Ok VUndef, st).
Proof.
  intros st. apply (get_missing users ["srv"; "db"] "i9" st users_wf).
  all: first [(vm_compute; reflexivity) | (progress unfold cache_ok; vm_compute; repeat split)].
Defined.

Lemma delete_then_get_witness :
  let st1 := snd (write_all users (two_users (VStr "ann")) st_empty) in
  let d := [("name", VStr "ann"); ("email", VStr "a@x"); ("id", VStr "i1")] in
  let st2 := snd (Collection.delete users d st1) in
  Collection.get users "i1" st2 = (Ok VUndef, st2).
Proof.
  intros st1 d st2. apply (delete_then_get users ["srv"; "db"] d "i1" st1 st2 users_wf).
  all: vm_compute; reflexivity.
Defined.

Lemma delete_then_findAll_witness :
  let st1 := snd (write_all users (two_users (VStr "ann")) st_empty) in
  let d := [("name", VStr "ann"); ("email", VStr "a@x"); ("id", VStr "i1")] in
  let st2 := snd (Collection.delete users d st1) in
  fst (Collection.get users "i2" st2) <> Ok VUndef /\
  Collection.findAll users [("name", VStr "ann")] st2 = (Ok [], st2).
Proof.
  intros st1 d st2. split; [vm_compute; discriminate|].
  apply (delete_then_findAll users ["srv"; "db"] d "name" (hex_name (VStr "ann"))
           (Collection.mkField true false false Collection.DNone) st1 st2 users_wf).
  - vm_compute. repeat split.
  - vm_compute. apply NoDup_cons. split; [|apply NoDup_cons; split; [|apply NoDup_cons; split; [|apply NoDup_nil_2]]];
      rewrite list_elem_of_In; simpl; intuition discriminate.
  - simpl. left. reflexivity.
  - discriminate.
  - vm_compute. reflexivity.
  - reflexivity.
  - vm_compute. reflexivity.
  - vm_compute. reflexivity.
Defined.

Lemma write_rejects_unindexable_witness :
  let d := [("name", VStr "a"); ("nick", VStr "x"); ("id", VStr "i1")] in
  fst (Collection.write users 1%N d st_empty) <> Ok tt.
Proof.
  intros d.
  apply (write_rejects_unindexable users 1%N d "i1" "nick" st_empty
           (snd (Collection.write users 1%N d st_empty))).
  - reflexivity.
  - simpl. right. left. reflexivity.
  - discriminate.
  - left. split; vm_compute; reflexivity.
  - apply surjective_pairing.
Defined.



Lemma create_assigns_id_witness :
  let res := Collection.create users 1%N [("name", VStr "ann"); ("email", VStr "a@x"); ("id", VStr "mine")] st_empty in
  VObj 1%N res.1.2 = VObj 1%N res.1.2 /\
  exists n, seed st_empty <= n < seed res.2 /\ props_get res.1.2 "id" = Collection.uuid_of n.
Proof.
  intros res. apply (create_assigns_id users ["srv"; "db"] 1%N [("name", VStr "ann"); ("email", VStr "a@x"); ("id", VStr "mine")]
                       st_empty (VObj 1%N res.1.2) res.1.2 res.2 users_wf).
  vm_compute. reflexivity.
Defined.

Lemma create_missing_required_witness :
  let c := Collection.mkCollection "/srv/db" "c"
             (Collection.with_id [("n", Collection.mkField false false true
                                          (Collection.DConst (VNum 0)))]) in
  Collection.create c 1%N [] st_empty = (Err MissingRequiredFieldError, [], st_empty).
Proof.
  intros c.
  apply (create_missing_required c [] [("id", Collection.id_field)] "n"
           (Collection.mkField false false true (Collection.DConst (VNum 0))) 1%N [] st_empty tt [] st_empty).
  - reflexivity.
  - reflexivity.
  - discriminate.
  - reflexivity.
  - reflexivity.
  - right. exists (VNum 0). split; reflexivity.
Defined.

(** X19: [create] fails with a TypeError when a unique indexed field that is not required
    is left [undefined] ([data[k]] is [undefined], or an inherited built-in method, which
    [JSON.stringify] also turns into [undefined]), since [pathsafe] then throws inside
    [findOne]. *)
Theorem create_unique_undefined (c : Collection.collection) (pre post : Collection.schema)
  (k : string) (fd : Collection.field) (l : loc) (data : Collection.props) (st : state)
  u (d1 : Collection.props) (st1 : state) :
  Collection.cschema c = pre ++ (k, fd) :: post ->
  Collection.create_loop c pre data st = (Ok u, d1, st1) ->
  k <> "id" -> Collection.field_of c k = Some fd ->
  Collection.index fd = true -> Collection.unique fd = true -> Collection.required fd = false ->
  Collection.query_value d1 k = VUndef ->
  Collection.create c l data st = (Err TypeError, d1, st1).
Proof.
  intros Hs Hpre Hk Hfd Hi Hu Hreq Hv. unfold Collection.create.
  rewrite Hs, create_loop_app, Hpre. cbn [Collection.create_loop].
  pose proof Hk as Hk'. apply String.eqb_neq in Hk'. rewrite Hk'. unfold Collection.resolve.
  rewrite Hreq. cbn [andb]. rewrite Hu.
  unfold Collection.findOne, Collection.candidates. cbn [Collection.keys map fst Collection.gather].
  unfold bind at 2. unfold Collection.probe. rewrite Hk'. cbn [negb]. rewrite Hfd, Hi.
  rewrite query1_get, Hv. reflexivity.
Qed.

Lemma create_unique_undefined_witness :
  Collection.create users 1%N [("name", VStr "ann")] st_empty
  = (Err TypeError, [("name", VStr "ann")], st_empty).
Proof.
  apply (create_unique_undefined users [("name", Collection.mkField true false false Collection.DNone)]
           [("age", Collection.mkField false false false Collection.DNone);
            ("score", Collection.mkField false false false Collection.DNone);
            ("id", Collection.id_field)]
           "email" (Collection.mkField true true false Collection.DNone) 1%N
           [("name", VStr "ann")] st_empty tt [("name", VStr "ann")] st_empty).
  all: first [discriminate | reflexivity | vm_compute; reflexivity].
Defined.

Lemma createNew_fresh_witness :
  let st' := snd (PlexDB.createNew "/srv/newdb" (mkState {[ "/srv" := FDir ]} ∅ None 0%N 0)) in
  ffile (files st') "/srv/newdb/.plexmeta"
    = Some (JObj [("collections", JArr []); ("indexes", JObj []); ("name", JStr "db0")]) /\
  files st' !! "/srv/newdb/index" = Some FDir /\
  files st' !! "/srv/newdb/data" = Some FDir /\
  exists l1 l2 l3 st2,
    PlexDB.open_db "/srv/newdb" st'
    = (Ok ("/srv/newdb", VObj l1 [("collections", VArr l2 []); ("indexes", VObj l3 []);
                                  ("name", VStr "db0")]), st2).
Proof.
  intros st'. apply (createNew_fresh ["srv"; "newdb"] (mkState {[ "/srv" := FDir ]} ∅ None 0%N 0) st').
  all: first [discriminate | (vm_compute; reflexivity) | repeat constructor].
Defined.

Lemma createNew_existing_witness :
  let st := mkState {[ "/srv" := FDir; "/srv/db" := FDir; "/srv/db/index" := FDir;
                       "/srv/db/data" := FDir;
                       "/srv/db/.plexmeta" := FFile (JObj [("collections", JArr [JStr "users"]);
                                                           ("indexes", JObj []); ("name", JStr "db0")]) ]}
              ∅ None 0%N 0 in
  fst (PlexDB.createNew "/srv/db" st) = Err IOError.
Proof.
  intros st. apply (createNew_existing ["srv"; "db"] st (snd (PlexDB.createNew "/srv/db" st)) _).
  all: first [discriminate | (vm_compute; reflexivity) | (vm_compute; discriminate)
             | apply surjective_pairing | repeat constructor].
Defined.

Lemma queryAll_missing_data_witness :
  Collection.queryAll users (fun v => ret v) st_empty = (Err TypeError, st_empty).
Proof.
  apply (queryAll_missing_data users ["srv"; "db"] (fun v => ret v) st_empty users_wf).
  all: vm_compute; reflexivity.
Defined.

Lemma autosave_then_open_witness :
  let meta := VObj 5%N [("collections", VArr 6%N [VStr "users"]); ("indexes", VObj 7%N []);
                        ("name", VStr "db0")] in
  let st' := snd (PlexDB.autosave "/srv/db" meta st_empty) in
  exists j, to_json meta = Some j /\
    PlexDB.open_db "/srv/db" st'
    = (Ok ("/srv/db", fst (of_json j (next_loc st'))), set_next_loc (snd (of_json j (next_loc st'))) st').
Proof.
  intros meta st'. apply (autosave_then_open ["srv"; "db"] meta st_empty st').
  all: first [discriminate | (vm_compute; reflexivity) | repeat constructor].
Defined.

Lemma construct_dirs_witness :
  let s := [("name", Collection.mkField true false false Collection.DNone);
            ("email", Collection.mkField true true false Collection.DNone);
            ("age", Collection.mkField false false false Collection.DNone)] in
  let st := mkState {[ "/srv" := FDir; "/srv/db" := FDir;
                       "/srv/db/.plexmeta" := FFile (JObj [("collections", JArr [])]) ]}
              ∅ None 0%N 0 in
  let st' := snd (Collection.construct "/srv/db" "users" s st) in
  (no_file_on (files st) (["srv"; "db"] ++ ["data"; "users"]) ->
   files st' !! render (["srv"; "db"] ++ ["data"; "users"]) = Some FDir) /\
  (no_file_on (files st) (["srv"; "db"] ++ ["index"; "users"]) ->
   files st' !! render (["srv"; "db"] ++ ["index"; "users"]) = Some FDir) /\
  (forall k fd, In (k, fd) s -> k <> "id" -> Collection.index fd = true ->
   no_file_on (files st) (["srv"; "db"] ++ ["index"; "users"; k]) ->
   files st' !! render (["srv"; "db"] ++ ["index"; "users"; k]) = Some FDir).
Proof.
  intros s st st'.
  apply (construct_dirs ["srv"; "db"] "users" s st
           (Collection.mkCollection "/srv/db" "users" (Collection.with_id s)) st').
  - discriminate.
  - repeat constructor.
  - reflexivity.
  - repeat constructor.
  - vm_compute. reflexivity.
Defined.

Lemma all_ascii_in (c : ascii) : In c (map ascii_of_nat (seq 0 256)).
Proof.
  rewrite <- (ascii_nat_embedding c). apply in_map, in_seq.
  pose proof (nat_ascii_bounded c). lia.
Qed.

Lemma app_s_cancel (a r1 r2 : string) : a +s+ r1 = a +s+ r2 -> r1 = r2.
Proof. induction a as [|x a IH]; simpl; [auto|]. intros H. injection H. exact IH. Qed.

Lemma app_s_prefix (a b r1 r2 : string) :
  a +s+ r1 = b +s+ r2 -> String.prefix a b = true \/ String.prefix b a = true.
Proof.
  revert b. induction a as [|x a IH]; intros b H; [left; destruct b; reflexivity|].
  destruct b as [|y b]; [right; reflexivity|].
  simpl in H. injection H as <- H. simpl. destruct (ascii_dec x x) as [_|]; [|congruence].
  exact (IH b H).
Qed.

(** A code whose words are pairwise not prefixes of each other. *)
Lemma code_split (f : ascii -> string) (c1 c2 : ascii) (r1 r2 : string) :
  (let l := map (fun c => (c, f c)) (map ascii_of_nat (seq 0 256)) in
   forallb (fun '(c1, w1) => forallb (fun '(c2, w2) => Ascii.eqb c1 c2 ||
             (negb (String.prefix w1 w2) && negb (String.prefix w2 w1))) l) l) = true ->
  f c1 +s+ r1 = f c2 +s+ r2 -> c1 = c2 /\ r1 = r2.
Proof.
  intros Hchk H. cbv zeta in Hchk. rewrite forallb_forall in Hchk.
  specialize (Hchk (c1, f c1) (in_map (fun c => (c, f c)) _ _ (all_ascii_in c1))).
  rewrite forallb_forall in Hchk.
  specialize (Hchk (c2, f c2) (in_map (fun c => (c, f c)) _ _ (all_ascii_in c2))).
  destruct (Ascii.eqb_spec c1 c2) as [<-|Hne].
  - split; [reflexivity|exact (app_s_cancel _ _ _ H)].
  - cbv beta iota in Hchk. rewrite (proj2 (Ascii.eqb_neq _ _) Hne) in Hchk. cbn [orb] in Hchk. apply andb_prop in Hchk as [H1 H2].
    destruct (app_s_prefix _ _ _ _ H) as [E|E]; rewrite E in *; discriminate.
Qed.

Lemma escape_quote_inj (s1 s2 : string) :
  escape_string s1 +s+ String "034" EmptyString = escape_string s2 +s+ String "034" EmptyString -> s1 = s2.
Proof.
  assert (Hq : forall c r, escape_char c +s+ r <> String "034" EmptyString).
  { intros c r. assert (Hc : forallb (fun c => match escape_char c with
                                              | String x _ => negb (Ascii.eqb x "034")
                                              | EmptyString => false end)
                              (map ascii_of_nat (seq 0 256)) = true) by (vm_compute; reflexivity).
    rewrite forallb_forall in Hc. specialize (Hc c (all_ascii_in c)).
    destruct (escape_char c) as [|x e]; [discriminate|]. simpl. intros E. injection E as -> _.
    discriminate Hc. }
  revert s2. induction s1 as [|c1 t1 IH]; intros [|c2 t2] H; simpl in H.
  - reflexivity.
  - rewrite app_assoc_s in H. symmetry in H. destruct (Hq _ _ H).
  - rewrite app_assoc_s in H. destruct (Hq _ _ H).
  - rewrite !app_assoc_s in H.
    apply code_split in H as [-> H]; [|vm_compute; reflexivity].
    f_equal. exact (IH _ H).
Qed.

Lemma hex_of_string_inj (s1 s2 : string) : hex_of_string s1 = hex_of_string s2 -> s1 = s2.
Proof.
  assert (Hne : forall c r, String.concat "" (map hex_byte (utf8_bytes c)) +s+ r <> "").
  { intros c r. assert (Hc : forallb (fun c => negb (String.eqb (String.concat "" (map hex_byte (utf8_bytes c))) ""))
                              (map ascii_of_nat (seq 0 256)) = true) by (vm_compute; reflexivity).
    rewrite forallb_forall in Hc. specialize (Hc c (all_ascii_in c)).
    destruct (String.concat "" (map hex_byte (utf8_bytes c))); [discriminate|discriminate]. }
  revert s2. induction s1 as [|c1 t1 IH]; intros [|c2 t2] H; simpl in H.
  - reflexivity.
  - symmetry in H. destruct (Hne _ _ H).
  - destruct (Hne _ _ H).
  - apply (code_split (fun c => String.concat "" (map hex_byte (utf8_bytes c)))) in H as [-> H];
      [|vm_compute; reflexivity].
    f_equal. exact (IH _ H).
Qed.

(** X20: [pathsafe] maps distinct strings to distinct names, so two string values never
    share an index file. *)
Theorem pathsafe_string_inj (a b : string) :
  a <> b -> pathsafe (VStr a) <> pathsafe (VStr b).
Proof.
  intros Hab E. apply Hab. unfold pathsafe in E. cbn [to_json] in E.
  change (Some (hex_of_string (quote a)) = Some (hex_of_string (quote b))) in E.
  assert (E1 : hex_of_string (quote a) = hex_of_string (quote b)) by congruence.
  apply hex_of_string_inj in E1. unfold quote in E1.
  assert (E2 : escape_string a +s+ String "034" EmptyString
               = escape_string b +s+ String "034" EmptyString) by congruence.
  exact (escape_quote_inj _ _ E2).
Qed.

Lemma pathsafe_string_inj_witness : pathsafe (VStr "ann") <> pathsafe (VStr "Ann").
Proof. apply (pathsafe_string_inj "ann" "Ann"). discriminate. Defined.
